(** * libcontainer/configs: kernel-ABI translation and lifecycle hooks

    A shallow embedding of [libcontainer/configs/config.go]:
    the scheduler attribute translator ([ToSchedAttr]), the CPU set builder
    ([toCPUSet], [ConvertCPUAffinity]), the hook registry ([Hooks.Run],
    [Hooks.MarshalJSON], [Hooks.UnmarshalJSON], [HookList.SetDefaultEnv]) and
    the command runner ([Command.Run]).

    Go values are modelled as follows.
    - fixed-width integers are [Z] with the wrap-around written out;
    - a Go [string] is a byte string, here [string] (a list of 8-bit [ascii]);
    - a slice is a [list] where the code only ranges over it or takes its
      elements; the slices of a [Command], which the code tests, assigns
      and hands to [exec.Cmd], are an [option (list _)], the nil slice
      being [None] and not the empty slice;
    - a map is a [gmap]; a possibly nil pointer or map is an [option];
    - a result [(T, error)] is a pair whose second component is
      [option error], [None] being the nil error. *)

From Stdlib Require Import ZArith Lia String Ascii List.
From stdpp Require Import base option list list_numbers gmap strings fin_maps.

Local Open Scope string_scope.
Local Open Scope Z_scope.

(** ** The Go packages the file imports *)

(** Errors are kept as the calls that build them: the format string and the
    operands of [fmt.Errorf], the text of [errors.New], the fields of
    [*strconv.NumError]. *)
Module errors.

Inductive strconv_Err : Type := ErrSyntax | ErrRange.

Inductive error : Type :=
| New (text : string)
| Errorf (format : string) (a : list operand)
| NumError (Func Num : string) (Err : strconv_Err)
with operand : Type :=
| op_s (s : string)   (* operand of a %s or %q verb *)
| op_d (n : Z)        (* operand of a %d verb *)
| op_T (ty : string)  (* operand of a %T verb, by the name of its type *)
| op_w (e : error)    (* operand of a %w verb: the wrapped error *)
| op_seconds (d : Z). (* operand of a %f verb: the float64 that
                         [time.Duration.Seconds] gives for the duration
                         [d], in nanoseconds *)

(** [errors.Unwrap]: the operand of %w, when there is one. *)
Fixpoint wrapped (a : list operand) : option error :=
  match a with
  | [] => None
  | op_w e :: _ => Some e
  | _ :: a' => wrapped a'
  end.

Definition Unwrap (e : error) : option error :=
  match e with
  | Errorf _ a => wrapped a
  | _ => None
  end.

End errors.
Export errors(error).

Module strings.

Definition byte_eqb (a b : ascii) : bool := Ascii.eqb a b.

(** [strings.Split(s, sep)] for a one-byte separator. *)
Fixpoint Split (s : string) (sep : ascii) : list string :=
  match s with
  | EmptyString => [EmptyString]
  | String c s' =>
      if byte_eqb c sep then EmptyString :: Split s' sep
      else match Split s' sep with
           | seg :: rest => String c seg :: rest
           | [] => [String c EmptyString]
           end
  end.

(** [strings.Cut(s, sep)] for a one-byte separator: the text before and
    after the first [sep], and whether [sep] was found. *)
Fixpoint Cut (s : string) (sep : ascii) : string * string * bool :=
  match s with
  | EmptyString => (EmptyString, EmptyString, false)
  | String c s' =>
      if byte_eqb c sep then (EmptyString, s', true)
      else let '(before, after, found) := Cut s' sep in
           (String c before, after, found)
  end.

(** The runes of [unicode.IsSpace], by their UTF-8 encodings:
    U+0009..U+000D and U+0020 (one byte); U+0085 and U+00A0 (two bytes);
    U+1680, U+2000..U+200A, U+2028, U+2029, U+202F, U+205F and U+3000
    (three bytes). *)
Definition isSpace1 (b1 : N) : bool :=
  ((9 <=? b1) && (b1 <=? 13) || (b1 =? 32))%N.

Definition isSpace2 (b1 b2 : N) : bool :=
  ((b1 =? 194) && ((b2 =? 133) || (b2 =? 160)))%N.

Definition isSpace3 (b1 b2 b3 : N) : bool :=
  ((b1 =? 225) && (b2 =? 154) && (b3 =? 128)
   || (b1 =? 226) && (b2 =? 128)
      && ((128 <=? b3) && (b3 <=? 138) || (b3 =? 168) || (b3 =? 169) || (b3 =? 175))
   || (b1 =? 226) && (b2 =? 129) && (b3 =? 159)
   || (b1 =? 227) && (b2 =? 128) && (b3 =? 128))%N.

(** [strings.TrimLeftFunc(s, unicode.IsSpace)]: drop space runes from the
    front; decoding stops at the first rune that is not a space (an invalid
    byte decodes to U+FFFD, which is not a space). *)
Fixpoint TrimLeftSpace (s : string) : string :=
  match s with
  | EmptyString => EmptyString
  | String c1 r1 =>
      if isSpace1 (N_of_ascii c1) then TrimLeftSpace r1
      else match r1 with
           | EmptyString => s
           | String c2 r2 =>
               if isSpace2 (N_of_ascii c1) (N_of_ascii c2) then TrimLeftSpace r2
               else match r2 with
                    | EmptyString => s
                    | String c3 r3 =>
                        if isSpace3 (N_of_ascii c1) (N_of_ascii c2) (N_of_ascii c3)
                        then TrimLeftSpace r3 else s
                    end
           end
  end.

(** The same from the back, on the reversed string: the last rune is a
    space exactly when the string ends with the encoding of one. *)
Fixpoint TrimLeftSpace_rev (s : string) : string :=
  match s with
  | EmptyString => EmptyString
  | String c1 r1 =>
      if isSpace1 (N_of_ascii c1) then TrimLeftSpace_rev r1
      else match r1 with
           | EmptyString => s
           | String c2 r2 =>
               if isSpace2 (N_of_ascii c2) (N_of_ascii c1) then TrimLeftSpace_rev r2
               else match r2 with
                    | EmptyString => s
                    | String c3 r3 =>
                        if isSpace3 (N_of_ascii c3) (N_of_ascii c2) (N_of_ascii c1)
                        then TrimLeftSpace_rev r3 else s
                    end
           end
  end.

Definition TrimRightSpace (s : string) : string :=
  String.rev (TrimLeftSpace_rev (String.rev s)).

(** [strings.TrimSpace]: all leading and trailing white space removed, as
    defined by Unicode. *)
Definition TrimSpace (s : string) : string :=
  TrimRightSpace (TrimLeftSpace s).

End strings.

Module strconv.
Import errors.

Definition maxUint64 : Z := 2 ^ 64 - 1.

Definition lower (c : Z) : Z := Z.lor c 32.

(** The value of one digit byte, [None] for a byte that is no digit in
    any base. *)
Definition digit (c : Z) : option Z :=
  if (48 <=? c) && (c <=? 57) then Some (c - 48)
  else if (97 <=? lower c) && (lower c <=? 122) then Some (lower c - 97 + 10)
  else None.

(** The digit loop of [strconv.ParseUint], [n] being the value read so
    far. The result is the value and the kind of error, if any. *)
Fixpoint parseDigits (base maxVal : Z) (s : string) (n : Z) : Z * option strconv_Err :=
  match s with
  | EmptyString => (n, None)
  | String c s' =>
      match digit (Z.of_N (N_of_ascii c)) with
      | None => (0, Some ErrSyntax)
      | Some d =>
          if d >=? base then (0, Some ErrSyntax)
          else if n >=? maxUint64 / base + 1 then (maxVal, Some ErrRange)
          else
            let n := n * base in
            let n1 := (n + d) mod 2 ^ 64 in
            if (n1 <? n) || (n1 >? maxVal) then (maxVal, Some ErrRange)
            else parseDigits base maxVal s' n1
      end
  end.

(** [strconv.ParseUint(s, base, bitSize)] for an explicit base between 2
    and 36 and a bit size between 1 and 64. *)
Definition ParseUint (s : string) (base bitSize : Z) : Z * option error :=
  match s with
  | EmptyString => (0, Some (NumError "ParseUint" s ErrSyntax))
  | _ =>
      let '(n, err) := parseDigits base (2 ^ bitSize - 1) s 0 in
      (n, (λ k, NumError "ParseUint" s k) <$> err)
  end.

End strconv.

(** [golang.org/x/sys/unix]: the CPU set and the scheduler attribute record,
    as laid out on Linux with 64-bit words. *)
Module unix.

Definition _CPU_SETSIZE : Z := 1024.
Definition _NCPUBITS : Z := 64.
Definition cpuSetSize : Z := _CPU_SETSIZE / _NCPUBITS.

(** [type CPUSet [cpuSetSize]cpuMask]: an array of [cpuSetSize] words. *)
Abbreviation CPUSet := (list Z) (only parsing).

Definition CPUSet_new : CPUSet := replicate (Z.to_nat cpuSetSize) 0.

(** [unsafe.Sizeof] of a [CPUSet], in bytes. *)
Definition CPUSet_Sizeof : Z := cpuSetSize * (_NCPUBITS / 8).

Definition cpuBitsIndex (cpu : Z) : Z := Z.quot cpu _NCPUBITS.
Definition cpuBitsMask (cpu : Z) : Z := Z.shiftl 1 (cpu mod _NCPUBITS).

(** [CPUSet.Set]: CPU numbers past the array are ignored. [cpu] is
    never negative where the package calls it. *)
Definition CPUSet_Set (s : CPUSet) (cpu : Z) : CPUSet :=
  let i := cpuBitsIndex cpu in
  if i <? Z.of_nat (length s)
  then <[Z.to_nat i := Z.lor (s !!! Z.to_nat i) (cpuBitsMask cpu)]> s
  else s.

Definition CPUSet_IsSet (s : CPUSet) (cpu : Z) : bool :=
  let i := cpuBitsIndex cpu in
  if i <? Z.of_nat (length s)
  then negb (Z.land (s !!! Z.to_nat i) (cpuBitsMask cpu) =? 0)
  else false.

(** [bits.OnesCount64]. *)
Definition OnesCount64 (x : Z) : Z :=
  foldr (λ i c, Z.b2z (Z.testbit x i) + c) 0 (seqZ 0 64).

Definition CPUSet_Count (s : CPUSet) : Z :=
  foldl (λ c b, c + OnesCount64 b) 0 s.

Definition SizeofSchedAttr : Z := 56.

Record SchedAttr : Type := {
  Size : Z;       (* uint32 *)
  Policy : Z;     (* uint32 *)
  Flags : Z;      (* uint64 *)
  Nice : Z;       (* int32 *)
  Priority : Z;   (* uint32 *)
  Runtime : Z;    (* uint64 *)
  Deadline : Z;   (* uint64 *)
  Period : Z;     (* uint64 *)
}.

End unix.

(** [github.com/opencontainers/runtime-spec/specs-go]: the abstract
    configuration the translators read. *)
Module specs.

Definition SchedOther : string := "SCHED_OTHER".
Definition SchedFIFO : string := "SCHED_FIFO".
Definition SchedRR : string := "SCHED_RR".
Definition SchedBatch : string := "SCHED_BATCH".
Definition SchedISO : string := "SCHED_ISO".
Definition SchedIdle : string := "SCHED_IDLE".
Definition SchedDeadline : string := "SCHED_DEADLINE".

Definition SchedFlagResetOnFork : string := "SCHED_FLAG_RESET_ON_FORK".
Definition SchedFlagReclaim : string := "SCHED_FLAG_RECLAIM".
Definition SchedFlagDLOverrun : string := "SCHED_FLAG_DL_OVERRUN".
Definition SchedFlagKeepPolicy : string := "SCHED_FLAG_KEEP_POLICY".
Definition SchedFlagKeepParams : string := "SCHED_FLAG_KEEP_PARAMS".
Definition SchedFlagUtilClampMin : string := "SCHED_FLAG_UTIL_CLAMP_MIN".
Definition SchedFlagUtilClampMax : string := "SCHED_FLAG_UTIL_CLAMP_MAX".

Record Scheduler : Type := {
  Policy : string;        (* LinuxSchedulerPolicy *)
  Nice : Z;               (* int32 *)
  Priority : Z;           (* int32 *)
  Flags : list string;    (* []LinuxSchedulerFlag *)
  Runtime : Z;            (* uint64 *)
  Deadline : Z;           (* uint64 *)
  Period : Z;             (* uint64 *)
}.

Record CPUAffinity : Type := {
  Initial : string;
  Final : string;
}.

End specs.

(** ** Package configs *)
Module configs.
Import errors.

(** *** Scheduler attribute translator *)

(** The [switch scheduler.Policy]. *)
Definition schedPolicy (p : string) : Z + error :=
  if String.eqb p specs.SchedOther then inl 0
  else if String.eqb p specs.SchedFIFO then inl 1
  else if String.eqb p specs.SchedRR then inl 2
  else if String.eqb p specs.SchedBatch then inl 3
  else if String.eqb p specs.SchedISO then inl 4
  else if String.eqb p specs.SchedIdle then inl 5
  else if String.eqb p specs.SchedDeadline then inl 6
  else inr (Errorf "invalid scheduler policy: %s" [op_s p]).

(** The [switch flag] in the body of the loop over [scheduler.Flags]. *)
Definition schedFlag (flags : Z) (flag : string) : Z + error :=
  if String.eqb flag specs.SchedFlagResetOnFork then inl (Z.lor flags 0x01)
  else if String.eqb flag specs.SchedFlagReclaim then inl (Z.lor flags 0x02)
  else if String.eqb flag specs.SchedFlagDLOverrun then inl (Z.lor flags 0x04)
  else if String.eqb flag specs.SchedFlagKeepPolicy then inl (Z.lor flags 0x08)
  else if String.eqb flag specs.SchedFlagKeepParams then inl (Z.lor flags 0x10)
  else if String.eqb flag specs.SchedFlagUtilClampMin then inl (Z.lor flags 0x20)
  else if String.eqb flag specs.SchedFlagUtilClampMax then inl (Z.lor flags 0x40)
  else inr (Errorf "invalid scheduler flag: %s" [op_s flag]).

Fixpoint schedFlags (fl : list string) (flags : Z) : Z + error :=
  match fl with
  | [] => inl flags
  | flag :: fl' =>
      match schedFlag flags flag with
      | inl flags' => schedFlags fl' flags'
      | inr err => inr err
      end
  end.

(** The conversion [uint32(x)] of an [int32]. *)
Definition uint32 (x : Z) : Z := x mod 2 ^ 32.

Definition ToSchedAttr (scheduler : specs.Scheduler) : option unix.SchedAttr * option error :=
  match schedPolicy (specs.Policy scheduler) with
  | inr err => (None, Some err)
  | inl policy =>
      match schedFlags (specs.Flags scheduler) 0 with
      | inr err => (None, Some err)
      | inl flags =>
          (Some {| unix.Size := unix.SizeofSchedAttr;
                   unix.Policy := policy;
                   unix.Flags := flags;
                   unix.Nice := specs.Nice scheduler;
                   unix.Priority := uint32 (specs.Priority scheduler);
                   unix.Runtime := specs.Runtime scheduler;
                   unix.Deadline := specs.Deadline scheduler;
                   unix.Period := specs.Period scheduler |}, None)
      end
  end.

(** *** CPU set builder *)

Record CPUAffinity : Type := {
  Initial : option unix.CPUSet;
  Final : option unix.CPUSet;
}.

(** [maxCPU := uint64(unsafe.Sizeof( *s ) * 8)]. *)
Definition maxCPU : Z := unix.CPUSet_Sizeof * 8.

(** The closure [toInt] of [toCPUSet]. *)
Definition toInt (v : string) : Z * option error :=
  match strconv.ParseUint v 10 32 with
  | (_, Some err) => (0, Some err)
  | (ret, None) =>
      if ret >=? maxCPU
      then (0, Some (Errorf "values larger than %d are not supported" [op_d (maxCPU - 1)]))
      else (ret, None)
  end.

(** [for i := start; i <= end; i++ { s.Set(i) }]. *)
Definition setRange (s : unix.CPUSet) (start end_ : Z) : unix.CPUSet :=
  foldl unix.CPUSet_Set s (seqZ start (end_ - start + 1)).

(** One turn of the loop over the segments: the set after the segment, or
    the error the function returns. *)
Definition segment (s : unix.CPUSet) (r : string) : unix.CPUSet + error :=
  let r := strings.TrimSpace r in
  if String.eqb r EmptyString then inl s
  else
    let '(r0, r1, found) := strings.Cut r "-" in
    if found then
      match toInt r0 with
      | (_, Some err) => inr err
      | (start, None) =>
          match toInt r1 with
          | (_, Some err) => inr err
          | (end_, None) =>
              if start >? end_ then inr (New ("invalid range: " ++ r))
              else inl (setRange s start end_)
          end
      end
    else
      match toInt r with
      | (_, Some err) => inr err
      | (val, None) => inl (unix.CPUSet_Set s val)
      end.

Fixpoint segments (rs : list string) (s : unix.CPUSet) : unix.CPUSet + error :=
  match rs with
  | [] => inl s
  | r :: rs' =>
      match segment s r with
      | inl s' => segments rs' s'
      | inr err => inr err
      end
  end.

Definition toCPUSet (str : string) : option unix.CPUSet * option error :=
  if String.eqb str EmptyString then (None, None)
  else
    match segments (strings.Split str ",") unix.CPUSet_new with
    | inr err => (None, Some err)
    | inl s =>
        if unix.CPUSet_Count s =? 0
        then (None, Some (Errorf "no CPUs found in %q" [op_s str]))
        else (Some s, None)
    end.

(** [ConvertCPUAffinity] converts [specs.CPUAffinity] to [CPUAffinity]. *)
Definition ConvertCPUAffinity (sa : option specs.CPUAffinity)
  : option CPUAffinity * option error :=
  match sa with
  | None => (None, None)
  | Some sa =>
      match toCPUSet (specs.Initial sa) with
      | (_, Some err) => (None, Some (Errorf "bad CPUAffinity.Initial: %w" [op_w err]))
      | (initial, None) =>
          match toCPUSet (specs.Final sa) with
          | (_, Some err) => (None, Some (Errorf "bad CPUAffinity.Final: %w" [op_w err]))
          | (final, None) =>
              match initial, final with
              | None, None => (None, None)
              | _, _ => (Some {| Initial := initial; Final := final |}, None)
              end
          end
      end
  end.

(** *** Hooks *)

Abbreviation HookName := string (only parsing).

Definition Prestart : HookName := "prestart".
Definition CreateRuntime : HookName := "createRuntime".
Definition CreateContainer : HookName := "createContainer".
Definition StartContainer : HookName := "startContainer".
Definition Poststart : HookName := "poststart".
Definition Poststop : HookName := "poststop".

(** [KnownHookNames] returns the known hook names. *)
Definition KnownHookNames : list string :=
  [Prestart; CreateRuntime; CreateContainer; StartContainer; Poststart; Poststop].

(** A slice, [[]string] here: [None] is the nil slice, [Some []] the empty
    slice that is not nil. The two are different values of the same
    length, 0. *)
Abbreviation slice A := (option (list A)) (only parsing).

Definition len {A : Type} (s : slice A) : Z :=
  match s with
  | None => 0
  | Some l => Z.of_nat (length l)
  end.

Record Command : Type := {
  Path : string;
  Args : slice string;
  Env : slice string;
  Dir : string;
  Timeout : option Z;   (* *time.Duration, in nanoseconds *)
}.

(** A line of the logrus log. *)
Inductive logEntry : Type :=
| Warnf (format : string) (a : list operand).

Section Hooks.
(** [State] is [specs.State]. A hook acts on the world outside the
    program: its run takes the world before to the world after and the
    error it returns. [CommandHook] is the struct that embeds a pointer
    to a [Command]; what [Command.Run] does with the process it starts is
    [Command_Run]. *)
Variables State World CommandHook : Type.
Variable Command_Run : CommandHook → State → World → World * option error.

Record FuncHook : Type := NewFunctionHook {
  run : State → World → World * option error;
}.

(** A value of the interface [Hook]: a [FuncHook], a [CommandHook], or a
    value of another type with a [Run] method, given by the name of the
    type and the method. *)
Inductive Hook : Type :=
| Hook_FuncHook (f : FuncHook)
| Hook_CommandHook (chook : CommandHook)
| Hook_other (ty : string) (Run : State → World → World * option error).

Definition Hook_Run (h : Hook) (s : State) : World → World * option error :=
  match h with
  | Hook_FuncHook f => run f s
  | Hook_CommandHook c => Command_Run c s
  | Hook_other _ Run => Run s
  end.

(** The name the verb %T prints for the type of a hook. *)
Definition Hook_type (h : Hook) : string :=
  match h with
  | Hook_FuncHook _ => "configs.FuncHook"
  | Hook_CommandHook _ => "configs.CommandHook"
  | Hook_other ty _ => ty
  end.

Abbreviation HookList := (list Hook) (only parsing).

(** [Hooks] is [map[HookName]HookList]; [None] is the nil map. *)
Abbreviation Hooks := (option (gmap string (list Hook))) (only parsing).

(** The index expression [hooks[name]]: the zero value, a nil list, for
    a name that is not in the map and for every name of a nil map. *)
Definition Hooks_index (hooks : Hooks) (name : HookName) : HookList :=
  match hooks with
  | None => []
  | Some m => default [] (m !! name)
  end.

(** The loop [for i, h := range list] of [Hooks.Run], from index [i]. *)
Fixpoint runFrom (i : Z) (list : HookList) (name : HookName) (state : State)
    (w : World) : World * option error :=
  match list with
  | [] => (w, None)
  | h :: list' =>
      match Hook_Run h state w with
      | (w', Some err) =>
          (w', Some (Errorf "error running %s hook #%d: %w" [op_s name; op_d i; op_w err]))
      | (w', None) => runFrom (i + 1) list' name state w'
      end
  end.

(** [Hooks.Run] executes all hooks for the given hook name. *)
Definition Hooks_Run (hooks : Hooks) (name : HookName) (state : State)
    (w : World) : World * option error :=
  runFrom 0 (Hooks_index hooks name) name state w.

(** The loop [for i, h := range hooks] of [HookList.RunHooks], from index
    [i]. *)
Fixpoint runHooksFrom (i : Z) (hooks : HookList) (state : State) (w : World)
    : World * option error :=
  match hooks with
  | [] => (w, None)
  | h :: hooks' =>
      match Hook_Run h state w with
      | (w', Some err) =>
          (w', Some (Errorf "error running hook #%d: %w" [op_d i; op_w err]))
      | (w', None) => runHooksFrom (i + 1) hooks' state w'
      end
  end.

(** [HookList.RunHooks], the deprecated form of [Hooks.Run]. *)
Definition RunHooks (hooks : HookList) (state : State) (w : World)
    : World * option error :=
  runHooksFrom 0 hooks state w.

(** The loop [for _, h := range names] of [Config.HasHook]. *)
Fixpoint hasHookIn (hooks : Hooks) (names : list HookName) : bool :=
  match names with
  | [] => false
  | h :: names' =>
      if Z.of_nat (length (Hooks_index hooks h)) >? 0 then true
      else hasHookIn hooks names'
  end.

(** [Config.HasHook] checks if config has any hooks with any given names
    configured; [hooks] is the field [c.Hooks]. *)
Definition HasHook (hooks : Hooks) (names : list HookName) : bool :=
  match hooks with
  | None => false
  | Some _ => hasHookIn hooks names
  end.

(** **** Serialization *)

(** [encoding/json] on the shape both methods use, a map from names to
    arrays of command hooks. *)
Variable bytes : Type.
Variable json_Marshal : gmap string (list CommandHook) → bytes * option error.
Variable json_Unmarshal : bytes → gmap string (list CommandHook) + error.

(** The closure [serialize] of [MarshalJSON]: the command hooks it
    collects and the lines it logs. *)
Fixpoint serialize_from (hooks : list Hook) (serializableHooks : list CommandHook)
    : list CommandHook * list logEntry :=
  match hooks with
  | [] => (serializableHooks, [])
  | hook :: hooks' =>
      match hook with
      | Hook_CommandHook chook =>
          serialize_from hooks' (serializableHooks ++ [chook])%list
      | _ =>
          let '(r, log) := serialize_from hooks' serializableHooks in
          (r, Warnf "cannot serialize hook of type %T, skipping" [op_T (Hook_type hook)]
                :: log)
      end
  end.

Definition serialize (hooks : list Hook) : list CommandHook * list logEntry :=
  serialize_from hooks [].

Definition MarshalJSON (hooks : Hooks) : (bytes * option error) * list logEntry :=
  let '(prestart, log1) := serialize (Hooks_index hooks Prestart) in
  let '(createRuntime, log2) := serialize (Hooks_index hooks CreateRuntime) in
  let '(createContainer, log3) := serialize (Hooks_index hooks CreateContainer) in
  let '(startContainer, log4) := serialize (Hooks_index hooks StartContainer) in
  let '(poststart, log5) := serialize (Hooks_index hooks Poststart) in
  let '(poststop, log6) := serialize (Hooks_index hooks Poststop) in
  (json_Marshal
     (<["prestart" := prestart]>
      (<["createRuntime" := createRuntime]>
       (<["createContainer" := createContainer]>
        (<["startContainer" := startContainer]>
         (<["poststart" := poststart]>
          (<["poststop" := poststop]> ∅)))))),
   (log1 ++ log2 ++ log3 ++ log4 ++ log5 ++ log6)%list).

(** One turn of the loop [for n, commandHooks := range state] of
    [UnmarshalJSON]. *)
Definition unmarshalEntry (n : string) (commandHooks : list CommandHook)
    (hooks : gmap string (list Hook)) : gmap string (list Hook) :=
  if Z.of_nat (length commandHooks) =? 0 then hooks
  else <[n := foldl (λ l h, (l ++ [Hook_CommandHook h])%list) [] commandHooks]> hooks.

(** [UnmarshalJSON] on the receiver [hooks]: the registry the receiver
    holds afterwards, and the error. *)
Definition UnmarshalJSON (hooks : Hooks) (b : bytes) : Hooks * option error :=
  match json_Unmarshal b with
  | inr err => (hooks, Some err)
  | inl state => (Some (map_fold unmarshalEntry ∅ state), None)
  end.

End Hooks.

Abbreviation HookList State World CommandHook :=
  (list (Hook State World CommandHook)) (only parsing).
Abbreviation Hooks State World CommandHook :=
  (option (gmap string (list (Hook State World CommandHook)))) (only parsing).

Arguments NewFunctionHook {State World} _.
Arguments run {State World} _ _ _.
Arguments Hook_FuncHook {State World CommandHook} _.
Arguments Hook_CommandHook {State World CommandHook} _.
Arguments Hook_other {State World CommandHook} _ _.
Arguments Hook_Run {State World CommandHook} _ _ _ _.
Arguments Hook_type {State World CommandHook} _.
Arguments Hooks_index {State World CommandHook} _ _.
Arguments runFrom {State World CommandHook} _ _ _ _ _ _.
Arguments Hooks_Run {State World CommandHook} _ _ _ _ _.
Arguments runHooksFrom {State World CommandHook} _ _ _ _ _.
Arguments RunHooks {State World CommandHook} _ _ _ _.
Arguments hasHookIn {State World CommandHook} _ _.
Arguments HasHook {State World CommandHook} _ _.
Arguments serialize_from {State World CommandHook} _ _.
Arguments serialize {State World CommandHook} _.
Arguments MarshalJSON {State World CommandHook bytes} _ _.
Arguments unmarshalEntry {State World CommandHook} _ _ _.
Arguments UnmarshalJSON {State World CommandHook bytes} _ _ _.

(** **** The default environment

    [SetDefaultEnv] writes through the pointer a [CommandHook] embeds, so
    here a command hook is the address of its [Command] and the commands
    live in a heap. An address outside the heap stands for the nil
    pointer, and reading through it panics: [None]. *)
Definition loc : Type := positive.

Definition setEnv (c : Command) (env : slice string) : Command :=
  {| Path := Path c; Args := Args c; Env := env; Dir := Dir c; Timeout := Timeout c |}.

(** The body of the loop of [SetDefaultEnv]. *)
Definition setDefaultEnv {State World : Type} (env : slice string)
    (σ : gmap loc Command) (h : Hook State World loc) : option (gmap loc Command) :=
  match h with
  | Hook_CommandHook ch =>
      c ← σ !! ch;
      if len (Env c) =? 0 then Some (<[ch := setEnv c env]> σ)
      else Some σ
  | _ => Some σ
  end.

(** [SetDefaultEnv] sets the environment for those [CommandHook] entries
    that do not have one set. *)
Fixpoint SetDefaultEnv {State World : Type} (hooks : list (Hook State World loc))
    (env : slice string) (σ : gmap loc Command) : option (gmap loc Command) :=
  match hooks with
  | [] => Some σ
  | h :: hooks' => σ' ← setDefaultEnv env σ h; SetDefaultEnv hooks' env σ'
  end.

(** **** The command runner

    [Command.Run] starts a process, has a goroutine wait for it and send
    the result on the channel [errC], and waits itself, in a [select], for
    that result or for a timer. What the process, the timer and the
    scheduler do is not the method's to decide: it is given, as the
    [outside] of the call. What the method does to them is the list of its
    calls, in order. *)
Section Command_Run.
Variables State bytes : Type.
(** [json.Marshal] on a [specs.State]. *)
Variable json_Marshal : State → bytes * option error.

(** The fields of [exec.Cmd] the method fills in, without the two buffers. *)
Record Cmd : Type := {
  Cmd_Path : string;
  Cmd_Args : slice string;
  Cmd_Env : slice string;
  Cmd_Stdin : bytes;
}.

Inductive call : Type :=
| call_Start (cmd : Cmd)   (* cmd.Start() *)
| call_NewTimer (d : Z)    (* time.NewTimer( *c.Timeout ) *)
| recv_errC                (* a receive from errC: cmd.Wait() has returned
                              in the goroutine, and its result is taken *)
| call_Kill                (* cmd.Process.Kill() *)
| call_Stop.               (* the deferred timer.Stop() *)

(** The exit of the process as [cmd.Wait] reports it to the goroutine: the
    error, and what the two buffers hold then. *)
Record exit : Type := {
  Wait_error : option error;
  stdout : string;
  stderr : string;
}.

Record outside : Type := {
  (** the error of [cmd.Start] *)
  Start_error : option error;
  (** the exit of the process when nobody kills it; [None] when it runs
      for ever *)
  exit_alone : option exit;
  (** the exit of the process as it is once [Kill] has been called, also
      when the process had exited before; [None] when [cmd.Wait] does not
      return then either *)
  exit_after_Kill : option exit;
  (** when the process exits and the timer fires: the [select] receives
      the exit *)
  exit_first : bool;
}.

(** The body of the goroutine after [cmd.Wait]: the value it sends. *)
Definition annotate (e : exit) : option error :=
  match Wait_error e with
  | Some err =>
      Some (Errorf "%w, stdout: %s, stderr: %s" [op_w err; op_s (stdout e); op_s (stderr e)])
  | None => None
  end.

(** A channel, for the one receive a [select] makes from it: the nil
    channel, or a channel with the value that arrives on it, if one ever
    does. *)
Inductive chan (A : Type) : Type :=
| chan_nil
| chan_of (v : option A).
Arguments chan_nil {A}.
Arguments chan_of {A} _.

(** A [select] with two receive cases. A nil channel is never ready. When
    a value arrives on both channels, [first] says that the first case is
    taken; when none arrives on either, the statement blocks: [None]. *)
Definition select {A B : Type} (c1 : chan A) (c2 : chan B) (first : bool)
    : option (A + B) :=
  match c1, c2 with
  | chan_of (Some a), chan_of (Some b) => Some (if first then inl a else inr b)
  | chan_of (Some a), _ => Some (inl a)
  | _, chan_of (Some b) => Some (inr b)
  | _, _ => None
  end.

(** How a call ends: it returns, it blocks for ever, or it panics. *)
Inductive result : Type :=
| Returns (err : option error)
| Blocks
| Panics.

Definition Command_Run (c : Command) (s : State) (o : outside) : list call * result :=
  match json_Marshal s with
  | (_, Some err) => ([], Returns (Some err))
  | (b, None) =>
      let cmd := {| Cmd_Path := Path c; Cmd_Args := Args c; Cmd_Env := Env c;
                    Cmd_Stdin := b |} in
      match Start_error o with
      | Some err => ([call_Start cmd], Returns (Some err))
      | None =>
          let errC := chan_of (annotate <$> exit_alone o) in
          let timerCh : chan unit :=
            match Timeout c with
            | Some _ => chan_of (Some tt)
            | None => chan_nil
            end in
          let timer :=
            match Timeout c with Some d => [call_NewTimer d] | None => [] end in
          let deferred :=
            match Timeout c with Some _ => [call_Stop] | None => [] end in
          match select errC timerCh (exit_first o) with
          | None => (call_Start cmd :: timer, Blocks)
          | Some (inl err) =>
              (((call_Start cmd :: timer) ++ recv_errC :: deferred)%list, Returns err)
          | Some (inr _) =>
              match exit_after_Kill o with
              | None => (((call_Start cmd :: timer) ++ [call_Kill])%list, Blocks)
              | Some _ =>
                  match Timeout c with
                  | Some d =>
                      (((call_Start cmd :: timer)
                          ++ call_Kill :: recv_errC :: deferred)%list,
                       Returns
                         (Some (Errorf "hook ran past specified timeout of %.1fs"
                                  [op_seconds d])))
                  | None =>
                      (* c.Timeout.Seconds() through a nil pointer *)
                      (((call_Start cmd :: timer) ++ [call_Kill; recv_errC])%list,
                       Panics)
                  end
              end
          end
      end
  end.

End Command_Run.

Arguments Cmd_Path {bytes} _.
Arguments Cmd_Args {bytes} _.
Arguments Cmd_Env {bytes} _.
Arguments Cmd_Stdin {bytes} _.
Arguments call_Start {bytes} _.
Arguments call_NewTimer {bytes} _.
Arguments recv_errC {bytes}.
Arguments call_Kill {bytes}.
Arguments call_Stop {bytes}.
Arguments Command_Run {State bytes} _ _ _ _.

End configs.

Import errors.

(** * Vocabulary of the properties *)

(** ** The tables of the scheduler attribute translator *)

(** The table of the specification: the policy names with their codes and
    the flag names with their bits, in the order it lists them. *)
Definition policy_table : list (string * Z) :=
  [ (specs.SchedOther, 0); (specs.SchedFIFO, 1); (specs.SchedRR, 2);
    (specs.SchedBatch, 3); (specs.SchedISO, 4); (specs.SchedIdle, 5);
    (specs.SchedDeadline, 6) ].

Definition flag_table : list (string * Z) :=
  [ (specs.SchedFlagResetOnFork, 0x01); (specs.SchedFlagReclaim, 0x02);
    (specs.SchedFlagDLOverrun, 0x04); (specs.SchedFlagKeepPolicy, 0x08);
    (specs.SchedFlagKeepParams, 0x10); (specs.SchedFlagUtilClampMin, 0x20);
    (specs.SchedFlagUtilClampMax, 0x40) ].

Fixpoint assoc (t : list (string * Z)) (k : string) : option Z :=
  match t with
  | [] => None
  | (k', v) :: t' => if String.eqb k k' then Some v else assoc t' k
  end.

(** The bitwise OR of a list of bits. *)
Definition or_all (bits : list Z) : Z := foldr Z.lor 0 bits.

(** The bits of a list of flag names, when every name is in the table. *)
Fixpoint flag_bits (fl : list string) : option (list Z) :=
  match fl with
  | [] => Some []
  | flag :: fl' =>
      match assoc flag_table flag, flag_bits fl' with
      | Some bit, Some bits => Some (bit :: bits)
      | _, _ => None
      end
  end.

Definition with_Flags (scheduler : specs.Scheduler) (fl : list string) : specs.Scheduler :=
  {| specs.Policy := specs.Policy scheduler; specs.Nice := specs.Nice scheduler;
     specs.Priority := specs.Priority scheduler; specs.Flags := fl;
     specs.Runtime := specs.Runtime scheduler; specs.Deadline := specs.Deadline scheduler;
     specs.Period := specs.Period scheduler |}.

(** ** CPU sets, byte strings and numerals *)

(** A CPU set has the length of the array [CPUSet]. *)
Definition CPUSet_wf (s : unix.CPUSet) : Prop := length s = Z.to_nat unix.cpuSetSize.

(** Every byte of a string passes a test. *)
Fixpoint all_bytes (P : ascii → bool) (s : string) : bool :=
  match s with
  | EmptyString => true
  | String c s' => P c && all_bytes P s'
  end.

(** A byte of the ASCII range that is not white space. *)
Definition plain_byte (c : ascii) : bool :=
  (N_of_ascii c <? 128)%N && negb (strings.isSpace1 (N_of_ascii c)).

Definition byte_code (c : ascii) : Z := Z.of_N (N_of_ascii c).

(** A decimal digit, and the strings of decimal digits with the number
    they write after the digits of [n]. *)
Definition digit_byte (c : ascii) : bool := (48 <=? byte_code c) && (byte_code c <=? 57).

Fixpoint numeral (v : string) (n : Z) : Z :=
  match v with
  | EmptyString => n
  | String c v' => numeral v' (n * 10 + (byte_code c - 48))
  end.

(** The error of [toInt] for a value the CPU set cannot hold. *)
Definition limit_error : error :=
  Errorf "values larger than %d are not supported" [op_d (configs.maxCPU - 1)].

(** The errors of the loop are those of [ParseUint], the error of the
    limit and the error of an invalid range. *)
Definition segment_error (e : error) : Prop :=
  (∃ v k, e = NumError "ParseUint" v k) ∨ e = limit_error ∨ ∃ r, e = New r.

(** The text of a range: start, hyphen, end. *)
Definition range_text (v w : string) : string := v ++ String "-" w.

(** ** Hooks *)

Section Hooks_vocabulary.
Context {State World CommandHook : Type}.

Local Abbreviation Hook := (configs.Hook State World CommandHook).

(** The command hooks of a list, in the order of the list. *)
Definition command_of (h : Hook) : option CommandHook :=
  match h with
  | configs.Hook_CommandHook chook => Some chook
  | _ => None
  end.

Definition command_hooks (l : list Hook) : list CommandHook := omap command_of l.

(** The warnings for the hooks of a list that are not command hooks. *)
Definition warning_of (h : Hook) : option configs.logEntry :=
  match h with
  | configs.Hook_CommandHook _ => None
  | _ => Some (configs.Warnf "cannot serialize hook of type %T, skipping"
                 [op_T (configs.Hook_type h)])
  end.

Definition warnings (l : list Hook) : list configs.logEntry := omap warning_of l.

(** The record of a registry: under each of the six names, the command
    hooks of the list of that name. *)
Definition record (hooks : option (gmap string (list Hook)))
  : gmap string (list CommandHook) :=
  list_to_map
    ((λ name, (name, command_hooks (configs.Hooks_index hooks name)))
       <$> configs.KnownHookNames).

(** The six names of the fixed events, as [MarshalJSON] writes them. *)
Definition event_names : list string :=
  ["prestart"; "createRuntime"; "createContainer"; "startContainer";
   "poststart"; "poststop"].

(** The hooks a registry lists under a name: none for a nil registry and
    for a name the registry does not hold. *)
Definition listed (hooks : option (gmap string (list Hook))) (name : string)
  : list Hook :=
  match hooks with
  | Some m => match m !! name with Some l => l | None => [] end
  | None => []
  end.

(** A registry with the hooks that are not command hooks taken out. *)
Definition commands_only (hooks : option (gmap string (list Hook)))
  : option (gmap string (list Hook)) :=
  (λ m : gmap string (list Hook),
     (λ l, configs.Hook_CommandHook <$> command_hooks l) <$> m) <$> hooks.

(** The hook is a command hook. *)
Definition is_command (h : Hook) : Prop := is_Some (command_of h).

(** What [UnmarshalJSON] stores for the array of a name. *)
Definition stored (commandHooks : list CommandHook) : option (list Hook) :=
  match commandHooks with
  | [] => None
  | _ => Some (configs.Hook_CommandHook <$> commandHooks)
  end.

Section all_run.
Variable Command_Run : CommandHook → State → World → World * option error.

(** The hooks of a list run one after the other and all succeed, taking
    the world [w] to the world [w']. *)
Inductive all_run (state : State) : list Hook → World → World → Prop :=
| all_run_nil w : all_run state [] w w
| all_run_cons h l w w1 w2 :
    configs.Hook_Run Command_Run h state w = (w1, None) → all_run state l w1 w2 →
    all_run state (h :: l) w w2.

End all_run.

End Hooks_vocabulary.

Section SetDefaultEnv_vocabulary.
Context {State World : Type}.

Local Abbreviation Hook := (configs.Hook State World configs.loc).

(** The commands the command hooks of a list point to. *)
Definition commands_of (hooks : list Hook) : list configs.loc := omap command_of hooks.

(** A command with the default environment when it has none of its own. *)
Definition defaulted (env : option (list string)) (c : configs.Command)
  : configs.Command :=
  if configs.len (configs.Env c) =? 0 then configs.setEnv c env else c.

End SetDefaultEnv_vocabulary.

(** ** The command runner *)

(** The error of the exit of a process, with what the process wrote: none
    for an exit without error. *)
Definition exit_error (e : configs.exit) : option error :=
  (λ err, Errorf "%w, stdout: %s, stderr: %s"
            [op_w err; op_s (configs.stdout e); op_s (configs.stderr e)])
    <$> configs.Wait_error e.

(** The error of a run past the timeout [d]. *)
Definition timeout_error (d : Z) : error :=
  Errorf "hook ran past specified timeout of %.1fs" [op_seconds d].

(** The [exec.Cmd] of a command, with the encoded state as input. *)
Definition Cmd_of {bytes : Type} (c : configs.Command) (b : bytes) : configs.Cmd bytes :=
  {| configs.Cmd_Path := configs.Path c; configs.Cmd_Args := configs.Args c;
     configs.Cmd_Env := configs.Env c; configs.Cmd_Stdin := b |}.

(** ** The data of the examples *)

Definition note (name : string) (result : option error)
  : configs.Hook unit (list string) unit :=
  configs.Hook_FuncHook
    (configs.NewFunctionHook (λ _ w, ((w ++ [name])%list, result))).

Definition three_hooks : option (gmap string (list (configs.Hook unit (list string) unit))) :=
  Some {[ configs.Prestart :=
            [note "A" None; note "B" (Some (New "B failed")); note "C" None] ]}.

Definition no_Command_Run (c : unit) (s : unit) (w : list string)
  : list string * option error := (w, None).

(** An encoder and a decoder that are inverse, for the examples: the bytes
    are the record itself. *)

Definition Marshal_id (doc : gmap string (list configs.Command))
  : gmap string (list configs.Command) * option error := (doc, None).

Definition Unmarshal_id (b : gmap string (list configs.Command))
  : gmap string (list configs.Command) + error := inl b.

Definition echo : configs.Command :=
  {| configs.Path := "/bin/echo"; configs.Args := Some ["echo"; "hello"];
     configs.Env := None; configs.Dir := "/"; configs.Timeout := None |}.

Definition ls : configs.Command :=
  {| configs.Path := "/bin/ls"; configs.Args := Some ["ls"];
     configs.Env := Some ["LANG=C"]; configs.Dir := "/";
     configs.Timeout := Some 1000000000 |}.

Definition prestart_hooks
  : option (gmap string (list (configs.Hook unit unit configs.Command))) :=
  Some {[ configs.Prestart := [configs.Hook_CommandHook echo; configs.Hook_CommandHook ls] ]}.

Definition custom_hooks
  : option (gmap string (list (configs.Hook unit unit configs.Command))) :=
  Some {[ "custom" := [configs.Hook_CommandHook echo] ]}.

(** A function hook that does nothing, and a registry that lists it under
    a name that is not one of the six. *)
Definition nop : configs.FuncHook unit unit :=
  configs.NewFunctionHook (λ _ w, (w, None)).

Definition custom_function
  : option (gmap string (list (configs.Hook unit unit configs.Command))) :=
  Some {[ "custom" := [configs.Hook_FuncHook nop] ]}.

(** A process that fails when left alone, and that a kill ends. *)
Definition killed : configs.exit :=
  {| configs.Wait_error := Some (New "signal: killed");
     configs.stdout := EmptyString; configs.stderr := EmptyString |}.

Definition failed : configs.exit :=
  {| configs.Wait_error := Some (New "exit status 1");
     configs.stdout := "out"; configs.stderr := "err" |}.

(** The outside of a run: the process starts; it exits with [alone] when
    nobody kills it, and with [killed] when it is killed. *)
Definition process (alone : option configs.exit) (exit_first : bool) : configs.outside :=
  {| configs.Start_error := None; configs.exit_alone := alone;
     configs.exit_after_Kill := Some killed; configs.exit_first := exit_first |}.

Definition Marshal_state (s : unit) : string * option error := ("{}", None).

Definition two_commands : gmap configs.loc configs.Command :=
  <[1%positive := echo]> (<[2%positive := ls]> ∅).

Definition two_hooks : list (configs.Hook unit unit configs.loc) :=
  [configs.Hook_CommandHook 1%positive;
   configs.Hook_FuncHook (configs.NewFunctionHook (λ _ w, (w, None)));
   configs.Hook_CommandHook 2%positive].

Definition rr_scheduler (flags : list string) (priority : Z) : specs.Scheduler :=
  {| specs.Policy := specs.SchedRR; specs.Nice := 5; specs.Priority := priority;
     specs.Flags := flags; specs.Runtime := 0; specs.Deadline := 0; specs.Period := 0 |}.

Definition rr_attr (flags priority : Z) : unix.SchedAttr :=
  {| unix.Size := 56; unix.Policy := 2; unix.Flags := flags; unix.Nice := 5;
     unix.Priority := priority; unix.Runtime := 0; unix.Deadline := 0;
     unix.Period := 0 |}.

(** ** The vocabulary of the further properties *)

(** A word of a CPU set fits 64 bits. *)
Definition word_ok (w : Z) : Prop := 0 ≤ w < 2 ^ 64.

Definition CPUSet_words (s : unix.CPUSet) : Prop := Forall word_ok s.

(** The string [v] is a decimal numeral of the CPU number [a]: digits only,
    one at least, of a value below [maxCPU]. *)
Definition cpu_numeral (v : string) (a : Z) : Prop :=
  v ≠ EmptyString ∧ all_bytes digit_byte v = true ∧ numeral v 0 = a
  ∧ a < configs.maxCPU.

(** The texts of a segment, once trimmed, that [toCPUSet] takes: nothing, a
    CPU number, or a range of two CPU numbers in order. *)
Definition segment_text (t : string) : Prop :=
  t = EmptyString
  ∨ (∃ a, cpu_numeral t a)
  ∨ ∃ v w a b, t = range_text v w ∧ cpu_numeral v a ∧ cpu_numeral w b ∧ a ≤ b.

(** The segment [r] names the CPU [j]. *)
Definition covers (r : string) (j : Z) : Prop :=
  cpu_numeral (strings.TrimSpace r) j
  ∨ ∃ v w a b, strings.TrimSpace r = range_text v w
      ∧ cpu_numeral v a ∧ cpu_numeral w b ∧ a ≤ j ≤ b.

(** The number of the elements of a list that pass a test. *)
Definition bit_count (f : Z → bool) (l : list Z) : Z :=
  foldr (λ j c, Z.b2z (f j) + c) 0 l.

(** The record with, under each of the six names, the array a decoded
    record has under the name, the empty one when it has none. *)
Definition known_arrays {CommandHook : Type} (state : gmap string (list CommandHook))
  : gmap string (list CommandHook) :=
  list_to_map ((λ name, (name, default [] (state !! name))) <$> configs.KnownHookNames).

(** * Properties *)

(** ** Wrapped errors *)

(** The error [fmt.Errorf] builds with a verb %w unwraps to the operand of
    the verb: the error of a hook from the error of [Hooks.Run], the error of
    [toCPUSet] from the error of [ConvertCPUAffinity]. *)
Lemma Unwrap_run_error name i err :
  Unwrap (Errorf "error running %s hook #%d: %w" [op_s name; op_d i; op_w err]) = Some err.
Proof. reflexivity. Qed.

Lemma Unwrap_bad_side format err : Unwrap (Errorf format [op_w err]) = Some err.
Proof. reflexivity. Qed.

(** ** Scheduler attribute translator *)

Section ToSchedAttr.

Lemma flag_bits_cons flag fl :
  flag_bits (flag :: fl) =
    match assoc flag_table flag, flag_bits fl with
    | Some bit, Some bits => Some (bit :: bits)
    | _, _ => None
    end.
Proof. reflexivity. Qed.

Lemma policy_table_codes : policy_table.*2 = seqZ 0 7.
Proof. reflexivity. Qed.

Lemma flag_table_bits : flag_table.*2 = (λ k, Z.shiftl 1 k) <$> seqZ 0 7.
Proof. reflexivity. Qed.

Lemma schedPolicy_assoc p :
  configs.schedPolicy p =
    match assoc policy_table p with
    | Some code => inl code
    | None => inr (Errorf "invalid scheduler policy: %s" [op_s p])
    end.
Proof.
  unfold configs.schedPolicy; simpl.
  repeat (destruct (String.eqb p _); [reflexivity|]); reflexivity.
Qed.

Lemma schedFlag_assoc flags flag :
  configs.schedFlag flags flag =
    match assoc flag_table flag with
    | Some bit => inl (Z.lor flags bit)
    | None => inr (Errorf "invalid scheduler flag: %s" [op_s flag])
    end.
Proof.
  unfold configs.schedFlag; simpl.
  repeat (destruct (String.eqb flag _); [reflexivity|]); reflexivity.
Qed.

Lemma schedFlags_known fl bits flags :
  flag_bits fl = Some bits →
  configs.schedFlags fl flags = inl (Z.lor flags (or_all bits)).
Proof.
  revert bits flags; induction fl as [|flag fl IH]; intros bits flags Hbits.
  - simplify_eq/=. by rewrite Z.lor_0_r.
  - rewrite flag_bits_cons in Hbits. cbn [configs.schedFlags]. rewrite schedFlag_assoc.
    destruct (assoc flag_table flag) as [bit|]; [|done].
    destruct (flag_bits fl) as [bits'|]; simplify_eq/=.
    erewrite IH by done. by rewrite Z.lor_assoc.
Qed.

Lemma schedFlags_unknown pre flag post flags :
  is_Some (flag_bits pre) →
  assoc flag_table flag = None →
  configs.schedFlags (pre ++ flag :: post) flags =
    inr (Errorf "invalid scheduler flag: %s" [op_s flag]).
Proof.
  intros [bits Hbits] Hflag; revert bits flags Hbits.
  induction pre as [|f pre IH]; intros bits flags Hbits; simpl.
  - by rewrite schedFlag_assoc, Hflag.
  - rewrite flag_bits_cons in Hbits. rewrite schedFlag_assoc.
    destruct (assoc flag_table f); [|done].
    destruct (flag_bits pre); simplify_eq/=. eauto.
Qed.

(** A list of flags either has every name in the table or splits at its
    first name that is not. *)
Lemma flags_known_or_not fl :
  is_Some (flag_bits fl) ∨
  ∃ pre flag post, fl = (pre ++ flag :: post)%list ∧
    is_Some (flag_bits pre) ∧ assoc flag_table flag = None.
Proof.
  induction fl as [|f fl IH]; [left; by eexists|].
  destruct (assoc flag_table f) as [bit|] eqn:Hf.
  - destruct IH as [[bits Hbits]|(pre & flag & post & -> & [bits Hbits] & Hflag)].
    + left. exists (bit :: bits). by rewrite flag_bits_cons, Hf, Hbits.
    + right. exists (f :: pre), flag, post. split_and!; [done| |done].
      exists (bit :: bits). by rewrite flag_bits_cons, Hf, Hbits.
  - right. exists [], f, fl. split_and!; [done| by eexists |done].
Qed.

Lemma or_all_Permutation bits1 bits2 :
  Permutation bits1 bits2 → or_all bits1 = or_all bits2.
Proof.
  unfold or_all.
  induction 1 as [|b l1 l2 _ IH|b1 b2 l|l1 l2 l3 _ IH1 _ IH2]; simpl.
  - done.
  - by rewrite IH.
  - rewrite !Z.lor_assoc. by rewrite (Z.lor_comm b2 b1).
  - congruence.
Qed.

Lemma flag_bits_Permutation fl1 fl2 bits1 :
  Permutation fl1 fl2 → flag_bits fl1 = Some bits1 →
  ∃ bits2, flag_bits fl2 = Some bits2 ∧ Permutation bits1 bits2.
Proof.
  intros Hp; revert bits1.
  induction Hp as [|x l1 l2 _ IH|x y l|l1 l2 l3 _ IH1 _ IH2]; intros k1 Hk1.
  - simplify_eq/=. by exists [].
  - rewrite flag_bits_cons in *. destruct (assoc flag_table x); [|done].
    destruct (flag_bits l1) as [k|]; simplify_eq.
    destruct (IH _ eq_refl) as (k2 & -> & ?). eexists; split; [done|].
    by constructor.
  - rewrite !flag_bits_cons in *. destruct (assoc flag_table x), (assoc flag_table y),
      (flag_bits l); simplify_eq.
    eexists; split; [done|]. constructor.
  - destruct (IH1 _ Hk1) as (k2 & Hk2 & ?).
    destruct (IH2 _ Hk2) as (k3 & Hk3 & ?).
    exists k3; split; [done|]. by etrans.
Qed.

End ToSchedAttr.

(** Claim C1, amended. [ToSchedAttr] maps the seven policy names to the codes
    0 to 6 and the seven flag names to the bits 0x01 to 0x40 of the table,
    ORs the bits together whatever the order of the flags, sets the size to
    [SizeofSchedAttr], passes nice, runtime, deadline and period through
    unchanged and the priority through the conversion to an unsigned 32-bit
    integer (unchanged when it is not negative, 2^32 more when it is); with
    a policy name outside the table it fails with an error on that name, and
    with a flag name outside the table with an error on the first such
    name. *)
Theorem ToSchedAttr_translation (scheduler : specs.Scheduler) :
  match assoc policy_table (specs.Policy scheduler) with
  | None =>
      configs.ToSchedAttr scheduler =
        (None, Some (Errorf "invalid scheduler policy: %s" [op_s (specs.Policy scheduler)]))
  | Some code =>
      match flag_bits (specs.Flags scheduler) with
      | Some bits =>
          configs.ToSchedAttr scheduler =
            (Some {| unix.Size := unix.SizeofSchedAttr;
                     unix.Policy := code;
                     unix.Flags := or_all bits;
                     unix.Nice := specs.Nice scheduler;
                     unix.Priority := specs.Priority scheduler mod 2 ^ 32;
                     unix.Runtime := specs.Runtime scheduler;
                     unix.Deadline := specs.Deadline scheduler;
                     unix.Period := specs.Period scheduler |}, None)
          ∧ (∀ fl, Permutation (specs.Flags scheduler) fl →
                configs.ToSchedAttr (with_Flags scheduler fl) = configs.ToSchedAttr scheduler)
      | None =>
          ∃ pre flag post,
            specs.Flags scheduler = (pre ++ flag :: post)%list
            ∧ is_Some (flag_bits pre) ∧ assoc flag_table flag = None
            ∧ configs.ToSchedAttr scheduler =
                (None, Some (Errorf "invalid scheduler flag: %s" [op_s flag]))
      end
  end
  ∧ (0 ≤ specs.Priority scheduler < 2 ^ 31 →
       specs.Priority scheduler mod 2 ^ 32 = specs.Priority scheduler)
  ∧ (- 2 ^ 31 ≤ specs.Priority scheduler < 0 →
       specs.Priority scheduler mod 2 ^ 32 = specs.Priority scheduler + 2 ^ 32).
Proof.
  split; [|split; intros ?; [rewrite Z.mod_small by lia; done|]].
  - unfold configs.ToSchedAttr. rewrite schedPolicy_assoc.
    destruct (assoc policy_table _) as [code|] eqn:Hcode; [|done].
    destruct (flag_bits _) as [bits|] eqn:Hbits.
    + rewrite (schedFlags_known _ bits) by done. split; [done|].
      intros fl Hfl.
      destruct (flag_bits_Permutation _ _ _ Hfl Hbits) as (bits' & Hbits' & Hperm).
      cbn [with_Flags specs.Policy specs.Flags specs.Nice specs.Priority
           specs.Runtime specs.Deadline specs.Period].
      rewrite schedPolicy_assoc, Hcode, (schedFlags_known _ bits') by done.
      by rewrite (or_all_Permutation _ _ Hperm).
    + destruct (flags_known_or_not (specs.Flags scheduler))
        as [[bits Hbits']|(pre & flag & post & Hfl & Hpre & Hflag)]; [congruence|].
      exists pre, flag, post. split_and!; try done.
      by rewrite Hfl, schedFlags_unknown.
  - symmetry. apply Z.mod_unique with (-1); lia.
Qed.

Lemma ToSchedAttr_translation_witness :
  7 mod 2 ^ 32 = 7 ∧ (-1) mod 2 ^ 32 = -1 + 2 ^ 32.
Proof.
  pose (fifo := λ priority,
    {| specs.Policy := specs.SchedFIFO; specs.Nice := 0;
       specs.Priority := priority; specs.Flags := [specs.SchedFlagReclaim];
       specs.Runtime := 0; specs.Deadline := 0; specs.Period := 0 |}).
  assert (H7 : 0 ≤ 7 < 2 ^ 31) by lia.
  assert (H1 : - 2 ^ 31 ≤ -1 < 0) by lia.
  split.
  - exact (proj1 (proj2 (ToSchedAttr_translation (fifo 7))) H7).
  - exact (proj2 (proj2 (ToSchedAttr_translation (fifo (-1)))) H1).
Defined.

(** Claim C1 as stated fails on the priority: a negative priority is not
    passed through unchanged. *)
Lemma ToSchedAttr_priority_changed :
  let scheduler := {| specs.Policy := specs.SchedFIFO; specs.Nice := 0;
                      specs.Priority := -1; specs.Flags := [];
                      specs.Runtime := 0; specs.Deadline := 0; specs.Period := 0 |} in
  ∃ attr, configs.ToSchedAttr scheduler = (Some attr, None)
    ∧ unix.Priority attr = 4294967295
    ∧ unix.Priority attr ≠ specs.Priority scheduler.
Proof. eexists; split_and!; [reflexivity|reflexivity|done]. Qed.

(** The translation of the specification examples. *)
Example ToSchedAttr_other :
  configs.ToSchedAttr {| specs.Policy := "SCHED_OTHER"; specs.Nice := 0; specs.Priority := 0;
                         specs.Flags := []; specs.Runtime := 0; specs.Deadline := 0;
                         specs.Period := 0 |}
  = (Some {| unix.Size := 56; unix.Policy := 0; unix.Flags := 0; unix.Nice := 0;
             unix.Priority := 0; unix.Runtime := 0; unix.Deadline := 0;
             unix.Period := 0 |}, None).
Proof. reflexivity. Qed.

Example ToSchedAttr_two_flags :
  fst (configs.ToSchedAttr
         {| specs.Policy := "SCHED_OTHER"; specs.Nice := 0; specs.Priority := 0;
            specs.Flags := ["SCHED_FLAG_RECLAIM"; "SCHED_FLAG_RESET_ON_FORK"];
            specs.Runtime := 0; specs.Deadline := 0; specs.Period := 0 |})
  = Some {| unix.Size := 56; unix.Policy := 0; unix.Flags := 0x03; unix.Nice := 0;
            unix.Priority := 0; unix.Runtime := 0; unix.Deadline := 0;
            unix.Period := 0 |}.
Proof. reflexivity. Qed.

Example ToSchedAttr_unknown_policy :
  configs.ToSchedAttr {| specs.Policy := "SCHED_FAIR"; specs.Nice := 0; specs.Priority := 0;
                         specs.Flags := []; specs.Runtime := 0; specs.Deadline := 0;
                         specs.Period := 0 |}
  = (None, Some (Errorf "invalid scheduler policy: %s" [op_s "SCHED_FAIR"])).
Proof. reflexivity. Qed.

(** ** CPU sets *)

Section CPUSet.
Import unix.

Lemma CPUSet_new_wf : CPUSet_wf CPUSet_new.
Proof. reflexivity. Qed.

Lemma land_mask_eqb w k :
  0 ≤ k → (Z.land w (Z.shiftl 1 k) =? 0) = negb (Z.testbit w k).
Proof.
  intros Hk. rewrite Z.shiftl_1_l.
  destruct (Z.testbit w k) eqn:Hw; simpl.
  - apply Z.eqb_neq. intros H0.
    assert (Hb : Z.testbit (Z.land w (2 ^ k)) k = true)
      by (rewrite Z.land_spec, Hw, Z.pow2_bits_true; done).
    rewrite H0, Z.bits_0 in Hb. done.
  - apply Z.eqb_eq, Z.bits_inj'. intros n Hn.
    rewrite Z.land_spec, Z.bits_0, Z.pow2_bits_eqb by done.
    destruct (Z.eqb_spec k n) as [->|]; [by rewrite Hw|by rewrite andb_false_r].
Qed.

Lemma cpuBitsIndex_nonneg cpu : 0 ≤ cpu → cpuBitsIndex cpu = cpu / 64.
Proof. intros. unfold cpuBitsIndex, _NCPUBITS. by rewrite Z.quot_div_nonneg by lia. Qed.

Lemma CPUSet_IsSet_testbit s cpu :
  0 ≤ cpu →
  CPUSet_IsSet s cpu =
    if cpu / 64 <? Z.of_nat (length s)
    then Z.testbit (s !!! Z.to_nat (cpu / 64)) (cpu mod 64) else false.
Proof.
  intros Hcpu. unfold CPUSet_IsSet. rewrite cpuBitsIndex_nonneg by done.
  unfold cpuBitsMask, _NCPUBITS. cbn zeta.
  destruct (_ <? _); [|done].
  rewrite land_mask_eqb by (apply Z.mod_pos_bound; lia).
  by rewrite negb_involutive.
Qed.

Lemma CPUSet_Set_wf s cpu : CPUSet_wf s → CPUSet_wf (CPUSet_Set s cpu).
Proof.
  unfold CPUSet_wf, CPUSet_Set. cbn zeta. intros Hs.
  destruct (_ <? _); [|done]. by rewrite length_insert.
Qed.

(** [Set] sets the bit of [cpu] and no other. *)
Lemma CPUSet_IsSet_Set s cpu j :
  CPUSet_wf s → 0 ≤ cpu < _CPU_SETSIZE → 0 ≤ j →
  CPUSet_IsSet (CPUSet_Set s cpu) j = (cpu =? j) || CPUSet_IsSet s j.
Proof.
  unfold CPUSet_wf, _CPU_SETSIZE. intros Hs Hcpu Hj.
  assert (Hlen : Z.of_nat (length s) = 16) by (rewrite Hs; reflexivity).
  rewrite !CPUSet_IsSet_testbit by done.
  unfold CPUSet_Set. cbn zeta. rewrite cpuBitsIndex_nonneg by lia.
  assert (Hi : 0 ≤ cpu / 64 < 16)
    by (split; [apply Z.div_pos; lia|apply Z.div_lt_upper_bound; lia]).
  destruct (Z.ltb_spec (cpu / 64) (Z.of_nat (length s))); [|lia].
  rewrite length_insert.
  destruct (Z.ltb_spec (j / 64) (Z.of_nat (length s))) as [Hjl|Hjl].
  - assert (0 ≤ j / 64) by (apply Z.div_pos; lia).
    destruct (decide (cpu / 64 = j / 64)) as [Heq|Hne].
    + rewrite Heq, list_lookup_total_insert_eq by lia.
      unfold cpuBitsMask, _NCPUBITS.
      rewrite Z.lor_spec, Z.shiftl_1_l, Z.pow2_bits_eqb
        by (apply Z.mod_pos_bound; lia).
      rewrite orb_comm. f_equal.
      destruct (Z.eqb_spec cpu j) as [->|Hcj]; [by rewrite Z.eqb_refl|].
      apply Z.eqb_neq. intros Hm. apply Hcj.
      rewrite (Z.div_mod cpu 64), (Z.div_mod j 64) by lia. by rewrite Heq, Hm.
    + rewrite list_lookup_total_insert_ne by lia.
      destruct (Z.eqb_spec cpu j) as [->|]; done.
  - destruct (Z.eqb_spec cpu j) as [->|]; [lia|done].
Qed.

Lemma CPUSet_IsSet_new j : CPUSet_IsSet CPUSet_new j = false.
Proof.
  unfold CPUSet_IsSet. cbn zeta.
  destruct (Z.ltb_spec (cpuBitsIndex j) (Z.of_nat (length CPUSet_new))) as [Hlt|]; [|done].
  unfold CPUSet_new in *. change (Z.to_nat cpuSetSize) with 16%nat in *.
  rewrite length_replicate in Hlt.
  rewrite lookup_total_replicate_2 by lia. done.
Qed.

Lemma setRange_wf s start end_ : CPUSet_wf s → CPUSet_wf (configs.setRange s start end_).
Proof.
  unfold configs.setRange. generalize (seqZ start (end_ - start + 1)); intros l.
  revert s; induction l as [|i l IH]; intros s Hs; simpl; [done|].
  by apply IH, CPUSet_Set_wf.
Qed.

(** The loop over a range sets the bits of the range and no other. *)
Lemma CPUSet_IsSet_setRange s start end_ j :
  CPUSet_wf s → 0 ≤ start → end_ < _CPU_SETSIZE → 0 ≤ j →
  CPUSet_IsSet (configs.setRange s start end_) j =
    (start <=? j) && (j <=? end_) || CPUSet_IsSet s j.
Proof.
  unfold configs.setRange. intros Hs Hstart Hend Hj.
  remember (Z.to_nat (end_ - start + 1)) as n eqn:Hn.
  revert s start Hs Hstart Hn; induction n as [|n IH]; intros s start Hs Hstart Hn.
  - rewrite seqZ_nil by lia. simpl.
    destruct (Z.leb_spec start j), (Z.leb_spec j end_); simpl; try done; lia.
  - rewrite seqZ_cons by lia. simpl.
    replace (Z.pred (end_ - start + 1)) with (end_ - Z.succ start + 1) by lia.
    rewrite IH; [|by apply CPUSet_Set_wf|lia|lia].
    rewrite CPUSet_IsSet_Set by (done || lia).
    destruct (Z.leb_spec start j), (Z.leb_spec (Z.succ start) j), (Z.leb_spec j end_),
      (Z.eqb_spec start j); simpl; try done; lia.
Qed.

Lemma OnesCount64_testbit x k : 0 ≤ k < 64 → Z.testbit x k = true → 1 ≤ OnesCount64 x.
Proof.
  intros Hk Hx. unfold OnesCount64.
  assert (Hin : k ∈ seqZ 0 64) by (apply elem_of_seqZ; lia).
  revert Hin. generalize (seqZ 0 64); intros l.
  assert (Hnn : ∀ l', 0 ≤ foldr (λ i c, Z.b2z (Z.testbit x i) + c) 0 l').
  { induction l' as [|i l' IH]; simpl; [done|]. destruct (Z.testbit x i); simpl; lia. }
  induction l as [|i l IH]; intros Hin; [by apply elem_of_nil in Hin|].
  apply elem_of_cons in Hin as [<-|Hin]; simpl.
  - rewrite Hx. specialize (Hnn l). simpl; lia.
  - specialize (IH Hin). destruct (Z.testbit x i); simpl; lia.
Qed.

Lemma OnesCount64_nonneg x : 0 ≤ OnesCount64 x.
Proof.
  unfold OnesCount64. generalize (seqZ 0 64); intros l.
  induction l as [|i l IH]; simpl; [done|]. destruct (Z.testbit x i); simpl; lia.
Qed.

Lemma CPUSet_Count_foldl s c :
  foldl (λ c b, c + OnesCount64 b) c s = c + CPUSet_Count s.
Proof.
  unfold CPUSet_Count. revert c; induction s as [|b s IH]; intros c; simpl; [lia|].
  rewrite (IH (c + _)), (IH (0 + _)). lia.
Qed.

Lemma CPUSet_Count_nonneg s : 0 ≤ CPUSet_Count s.
Proof.
  induction s as [|b s IH]; [done|]. unfold CPUSet_Count; simpl.
  rewrite CPUSet_Count_foldl. pose proof (OnesCount64_nonneg b). lia.
Qed.

(** A set with a bit set does not count zero. *)
Lemma CPUSet_Count_lookup s n k :
  (n < length s)%nat → 0 ≤ k < 64 → Z.testbit (s !!! n) k = true →
  0 < CPUSet_Count s.
Proof.
  revert n; induction s as [|b s IH]; intros n Hn Hk Hbit; simpl in Hn; [lia|].
  unfold CPUSet_Count; simpl. rewrite CPUSet_Count_foldl.
  pose proof (OnesCount64_nonneg b). pose proof (CPUSet_Count_nonneg s).
  destruct n as [|n]; simpl in Hbit.
  - pose proof (OnesCount64_testbit b k Hk Hbit). lia.
  - assert (0 < CPUSet_Count s) by (apply (IH n); [lia|done|done]). lia.
Qed.

Lemma CPUSet_Count_IsSet s j :
  0 ≤ j → CPUSet_IsSet s j = true → 0 < CPUSet_Count s.
Proof.
  intros Hj. rewrite CPUSet_IsSet_testbit by done.
  destruct (Z.ltb_spec (j / 64) (Z.of_nat (length s))) as [Hlt|]; [|done].
  assert (Hm : 0 ≤ j mod 64 < 64) by (apply Z.mod_pos_bound; lia).
  assert (0 ≤ j / 64) by (apply Z.div_pos; lia).
  apply CPUSet_Count_lookup; [lia|done].
Qed.

End CPUSet.

(** ** Byte strings *)

Section Strings.
Import strings.

Lemma app_cons c s t : String c s ++ t = String c (s ++ t).
Proof. reflexivity. Qed.

Lemma app_empty_l t : EmptyString ++ t = t.
Proof. reflexivity. Qed.

Lemma app_empty_r s : s ++ EmptyString = s.
Proof. induction s as [|c s IH]; [done|]. by rewrite app_cons, IH. Qed.

Lemma app_assoc_string s t u : (s ++ t) ++ u = s ++ (t ++ u).
Proof. induction s as [|c s IH]; [done|]. by rewrite !app_cons, IH. Qed.

Lemma rev_app_spec s t : String.rev_app s t = String.rev s ++ t.
Proof.
  unfold String.rev. revert t; induction s as [|c s IH]; intros t; simpl; [done|].
  rewrite (IH (String c t)), (IH (String c EmptyString)).
  by rewrite app_assoc_string.
Qed.

Lemma rev_cons c s : String.rev (String c s) = String.rev s ++ String c EmptyString.
Proof. unfold String.rev at 1. simpl. by rewrite rev_app_spec. Qed.

Lemma rev_snoc s c : String.rev (s ++ String c EmptyString) = String c (String.rev s).
Proof.
  induction s as [|a s IH]; [done|].
  by rewrite app_cons, !rev_cons, IH.
Qed.

Lemma rev_involutive s : String.rev (String.rev s) = s.
Proof. induction s as [|c s IH]; [done|]. by rewrite rev_cons, rev_snoc, IH. Qed.

Lemma snoc_destruct s :
  s ≠ EmptyString → ∃ r c, s = r ++ String c EmptyString.
Proof.
  induction s as [|a s IH]; [done|]. intros _.
  destruct s as [|b s]; [by exists EmptyString, a|].
  destruct IH as (r & c & Hr); [done|].
  exists (String a r), c. by rewrite app_cons, <-Hr.
Qed.

Lemma all_bytes_app P s t : all_bytes P (s ++ t) = all_bytes P s && all_bytes P t.
Proof.
  induction s as [|c s IH]; [done|]. rewrite app_cons; simpl.
  by rewrite IH, andb_assoc.
Qed.

Lemma all_bytes_impl (P Q : ascii → bool) s :
  (∀ c, P c = true → Q c = true) → all_bytes P s = true → all_bytes Q s = true.
Proof.
  intros HPQ. induction s as [|c s IH]; simpl; [done|].
  intros [? ?]%andb_true_iff. apply andb_true_iff; auto.
Qed.

(** *** Split and Cut *)

Lemma Split_cons_inv s sep : ∃ seg rest, Split s sep = seg :: rest.
Proof.
  induction s as [|c s (seg & rest & IH)]; simpl; [by eexists _, _|].
  destruct (byte_eqb c sep); [by eexists _, _|]. rewrite IH. by eexists _, _.
Qed.

Lemma Split_without s sep :
  all_bytes (λ c, negb (byte_eqb c sep)) s = true → Split s sep = [s].
Proof.
  induction s as [|c s IH]; simpl; [done|].
  intros [Hc Hs]%andb_true_iff. apply negb_true_iff in Hc. rewrite Hc, IH; done.
Qed.

Lemma Cut_without s sep :
  all_bytes (λ c, negb (byte_eqb c sep)) s = true →
  Cut s sep = (s, EmptyString, false).
Proof.
  induction s as [|c s IH]; simpl; [done|].
  intros [Hc Hs]%andb_true_iff. apply negb_true_iff in Hc. rewrite Hc, IH; done.
Qed.

Lemma Cut_app s sep t :
  all_bytes (λ c, negb (byte_eqb c sep)) s = true →
  Cut (s ++ String sep t) sep = (s, t, true).
Proof.
  induction s as [|c s IH].
  - intros _. rewrite app_empty_l. simpl. unfold byte_eqb. by rewrite Ascii.eqb_refl.
  - simpl. intros [Hc Hs]%andb_true_iff. apply negb_true_iff in Hc.
    rewrite ?app_cons. simpl. rewrite Hc, IH; done.
Qed.

(** *** TrimSpace *)

Lemma plain_not_space2_l c c' : plain_byte c = true → isSpace2 (N_of_ascii c) c' = false.
Proof.
  unfold plain_byte, isSpace2. intros [H _]%andb_true_iff. apply N.ltb_lt in H.
  destruct (N.eqb_spec (N_of_ascii c) 194); try lia; done.
Qed.

Lemma plain_not_space2_r c c' : plain_byte c = true → isSpace2 c' (N_of_ascii c) = false.
Proof.
  unfold plain_byte, isSpace2. intros [H _]%andb_true_iff. apply N.ltb_lt in H.
  destruct (N.eqb_spec (N_of_ascii c) 133), (N.eqb_spec (N_of_ascii c) 160);
    try lia; rewrite ?andb_false_r; done.
Qed.

Lemma plain_not_space3_l c c' c'' :
  plain_byte c = true → isSpace3 (N_of_ascii c) c' c'' = false.
Proof.
  unfold plain_byte, isSpace3. intros [H _]%andb_true_iff. apply N.ltb_lt in H.
  destruct (N.eqb_spec (N_of_ascii c) 225), (N.eqb_spec (N_of_ascii c) 226),
    (N.eqb_spec (N_of_ascii c) 227); try lia; done.
Qed.

Lemma plain_not_space3_r c c' c'' :
  plain_byte c = true → isSpace3 c' c'' (N_of_ascii c) = false.
Proof.
  unfold plain_byte, isSpace3. intros [H _]%andb_true_iff. apply N.ltb_lt in H.
  destruct (N.eqb_spec (N_of_ascii c) 128), (N.eqb_spec (N_of_ascii c) 168),
    (N.eqb_spec (N_of_ascii c) 169), (N.eqb_spec (N_of_ascii c) 175),
    (N.eqb_spec (N_of_ascii c) 159), (N.leb_spec 128 (N_of_ascii c));
    try lia; rewrite ?andb_false_r; done.
Qed.

Lemma TrimLeftSpace_plain c r :
  plain_byte c = true → TrimLeftSpace (String c r) = String c r.
Proof.
  intros Hc. pose proof Hc as [_ H1%negb_true_iff]%andb_true_iff.
  simpl. rewrite H1. destruct r as [|c2 r]; [done|].
  rewrite plain_not_space2_l by done. destruct r as [|c3 r]; [done|].
  by rewrite plain_not_space3_l.
Qed.

Lemma TrimLeftSpace_rev_plain c r :
  plain_byte c = true → TrimLeftSpace_rev (String c r) = String c r.
Proof.
  intros Hc. pose proof Hc as [_ H1%negb_true_iff]%andb_true_iff.
  simpl. rewrite H1. destruct r as [|c2 r]; [done|].
  rewrite plain_not_space2_r by done. destruct r as [|c3 r]; [done|].
  by rewrite plain_not_space3_r.
Qed.

Lemma TrimRightSpace_plain r c :
  plain_byte c = true →
  TrimRightSpace (r ++ String c EmptyString) = r ++ String c EmptyString.
Proof.
  intros Hc. unfold TrimRightSpace.
  rewrite rev_snoc, TrimLeftSpace_rev_plain by done.
  by rewrite <-rev_snoc, rev_involutive.
Qed.

(** A string of plain bytes has no space to trim. *)
Lemma TrimSpace_plain s : all_bytes plain_byte s = true → TrimSpace s = s.
Proof.
  intros Hs. unfold TrimSpace. destruct s as [|c s]; [done|].
  pose proof Hs as [Hc _]%andb_true_iff.
  rewrite TrimLeftSpace_plain by done.
  destruct (snoc_destruct (String c s)) as (r & c' & Hr); [done|].
  rewrite Hr in *. rewrite all_bytes_app in Hs.
  apply andb_true_iff in Hs as [_ [Hc' _]%andb_true_iff].
  by apply TrimRightSpace_plain.
Qed.

End Strings.

(** ** Decimal numerals *)

Section Numerals.
Import strings strconv.

Lemma digit_byte_range c : digit_byte c = true → 48 ≤ byte_code c ≤ 57.
Proof. unfold digit_byte. intros [?%Z.leb_le ?%Z.leb_le]%andb_true_iff. lia. Qed.

Lemma digit_digit_byte c :
  digit_byte c = true → digit (byte_code c) = Some (byte_code c - 48).
Proof. unfold digit, digit_byte. by intros ->. Qed.

Lemma digit_other c d :
  digit_byte c = false → digit (byte_code c) = Some d → 10 ≤ d.
Proof.
  unfold digit, digit_byte. intros ->.
  destruct (Z.leb_spec 97 (lower (byte_code c))); simpl; [|done].
  destruct (_ <=? 122); intros; simplify_eq. lia.
Qed.

Lemma digit_byte_plain c : digit_byte c = true → plain_byte c = true.
Proof.
  intros H%digit_byte_range. unfold plain_byte, isSpace1, byte_code in *.
  apply andb_true_iff; split; [apply N.ltb_lt; lia|].
  apply negb_true_iff.
  destruct (N.leb_spec 9 (N_of_ascii c)), (N.leb_spec (N_of_ascii c) 13),
    (N.eqb_spec (N_of_ascii c) 32); simpl; try done; lia.
Qed.

Lemma digit_byte_neq c (sep : ascii) :
  digit_byte sep = false → digit_byte c = true → negb (byte_eqb c sep) = true.
Proof.
  intros Hsep Hc. apply negb_true_iff. unfold byte_eqb.
  destruct (Ascii.eqb_spec c sep) as [->|]; [congruence|done].
Qed.

Lemma numeral_le v n : all_bytes digit_byte v = true → 0 ≤ n → n ≤ numeral v n.
Proof.
  revert n; induction v as [|c v IH]; intros n; simpl; [lia|].
  intros [Hc%digit_byte_range Hv]%andb_true_iff Hn.
  specialize (IH (n * 10 + (byte_code c - 48)) Hv). lia.
Qed.

Lemma parseDigits_digits v n :
  all_bytes digit_byte v = true → 0 ≤ n ≤ 2 ^ 32 - 1 →
  parseDigits 10 (2 ^ 32 - 1) v n =
    if numeral v n <=? 2 ^ 32 - 1 then (numeral v n, None)
    else (2 ^ 32 - 1, Some errors.ErrRange).
Proof.
  revert n; induction v as [|c v IH]; intros n; simpl.
  - intros _ Hn. destruct (Z.leb_spec n (2 ^ 32 - 1)); [done|lia].
  - intros [Hc Hv]%andb_true_iff Hn. fold (byte_code c).
    rewrite (digit_digit_byte c Hc). apply digit_byte_range in Hc.
    destruct (Z.geb_spec (byte_code c - 48) 10); [lia|].
    change (maxUint64 / 10 + 1) with 1844674407370955162.
    change (2 ^ 32) with 4294967296 in *. change (2 ^ 64) with 18446744073709551616.
    destruct (Z.geb_spec n 1844674407370955162); [lia|].
    rewrite Z.mod_small by lia.
    destruct (Z.ltb_spec (n * 10 + (byte_code c - 48)) (n * 10)); [lia|].
    destruct (Z.gtb_spec (n * 10 + (byte_code c - 48)) (4294967296 - 1)); simpl.
    + pose proof (numeral_le v (n * 10 + (byte_code c - 48)) Hv).
      destruct (Z.leb_spec (numeral v (n * 10 + (byte_code c - 48))) (4294967296 - 1));
        [lia|done].
    + apply IH; [done|lia].
Qed.

Lemma parseDigits_ok_inv maxVal v n r :
  parseDigits 10 maxVal v n = (r, None) → all_bytes digit_byte v = true.
Proof.
  revert n; induction v as [|c v IH]; intros n; simpl; [done|].
  fold (byte_code c).
  destruct (digit (byte_code c)) as [d|] eqn:Hd; [|done].
  destruct (digit_byte c) eqn:Hc.
  - repeat case_match; try done. eauto.
  - pose proof (digit_other c d Hc Hd).
    destruct (Z.geb_spec d 10); [done|lia].
Qed.

(** [ParseUint] on a string of decimal digits. *)
Lemma ParseUint_digits v :
  v ≠ EmptyString → all_bytes digit_byte v = true →
  ParseUint v 10 32 =
    if numeral v 0 <=? 2 ^ 32 - 1 then (numeral v 0, None)
    else (2 ^ 32 - 1, Some (errors.NumError "ParseUint" v errors.ErrRange)).
Proof.
  intros Hne Hv. unfold ParseUint. destruct v as [|c v]; [done|].
  rewrite parseDigits_digits by (done || lia).
  by destruct (_ <=? _).
Qed.

(** [ParseUint] accepts the strings of decimal digits only. *)
Lemma ParseUint_ok_inv v n :
  ParseUint v 10 32 = (n, None) →
  v ≠ EmptyString ∧ all_bytes digit_byte v = true ∧ n = numeral v 0
  ∧ 0 ≤ n ≤ 2 ^ 32 - 1.
Proof.
  intros Hp. assert (Hne : v ≠ EmptyString) by (by intros ->).
  assert (Hv : all_bytes digit_byte v = true).
  { unfold ParseUint in Hp. destruct v as [|c v]; [done|].
    cbv beta iota in Hp.
    destruct (parseDigits 10 (2 ^ 32 - 1) (String c v) 0) as [r [k|]] eqn:Hd;
      [done|]. eapply parseDigits_ok_inv, Hd. }
  rewrite ParseUint_digits in Hp by done.
  pose proof (numeral_le v 0 Hv).
  destruct (Z.leb_spec (numeral v 0) (2 ^ 32 - 1)); simplify_eq. split_and!; auto; lia.
Qed.

End Numerals.

(** ** CPU set builder *)

Section toCPUSet.
Import strings strconv unix configs.

Lemma maxCPU_eq : maxCPU = _CPU_SETSIZE.
Proof. reflexivity. Qed.

Lemma toInt_digits v :
  v ≠ EmptyString → all_bytes digit_byte v = true →
  toInt v =
    if numeral v 0 <? maxCPU then (numeral v 0, None)
    else if numeral v 0 <=? 2 ^ 32 - 1 then (0, Some limit_error)
    else (0, Some (NumError "ParseUint" v ErrRange)).
Proof.
  intros Hne Hv. unfold toInt. rewrite ParseUint_digits by done.
  change maxCPU with 1024. change (2 ^ 32) with 4294967296.
  destruct (Z.leb_spec (numeral v 0) (4294967296 - 1)).
  - destruct (Z.geb_spec (numeral v 0) 1024), (Z.ltb_spec (numeral v 0) 1024);
      try lia; done.
  - destruct (Z.ltb_spec (numeral v 0) 1024); [lia|done].
Qed.

Lemma toInt_ok_inv v a :
  toInt v = (a, None) →
  v ≠ EmptyString ∧ all_bytes digit_byte v = true ∧ a = numeral v 0 ∧ 0 ≤ a < maxCPU.
Proof.
  unfold toInt. destruct (ParseUint v 10 32) as [ret [err|]] eqn:Hp; [done|].
  apply ParseUint_ok_inv in Hp as (Hne & Hv & -> & Hr).
  destruct (Z.geb_spec (numeral v 0) maxCPU); [done|].
  intros; simplify_eq. split_and!; auto; lia.
Qed.

Lemma digits_no_byte v (sep : ascii) :
  digit_byte sep = false → all_bytes digit_byte v = true →
  all_bytes (λ c, negb (byte_eqb c sep)) v = true.
Proof. intros Hsep. apply all_bytes_impl. intros c. by apply digit_byte_neq. Qed.

Lemma digits_plain v : all_bytes digit_byte v = true → all_bytes plain_byte v = true.
Proof. apply all_bytes_impl, digit_byte_plain. Qed.

Lemma range_text_plain v w :
  all_bytes digit_byte v = true → all_bytes digit_byte w = true →
  all_bytes plain_byte (range_text v w) = true.
Proof.
  intros Hv Hw. unfold range_text. rewrite all_bytes_app. simpl.
  by rewrite !digits_plain.
Qed.

Lemma range_text_no_comma v w :
  all_bytes digit_byte v = true → all_bytes digit_byte w = true →
  all_bytes (λ c, negb (byte_eqb c ",")) (range_text v w) = true.
Proof.
  intros Hv Hw. unfold range_text. rewrite all_bytes_app. simpl.
  by rewrite !digits_no_byte.
Qed.

Lemma range_text_ne v w : range_text v w ≠ EmptyString.
Proof. unfold range_text. by destruct v. Qed.

Lemma eqb_empty_false r : r ≠ EmptyString → String.eqb r EmptyString = false.
Proof. by intros ?%String.eqb_neq. Qed.

(** *** One segment *)

Lemma segment_blank s r : TrimSpace r = EmptyString → segment s r = inl s.
Proof. unfold segment. by intros ->. Qed.

Lemma segment_scalar s r :
  TrimSpace r ≠ EmptyString →
  all_bytes (λ c, negb (byte_eqb c "-")) (TrimSpace r) = true →
  segment s r =
    match toInt (TrimSpace r) with
    | (_, Some err) => inr err
    | (val, None) => inl (CPUSet_Set s val)
    end.
Proof.
  intros Hne Hr. unfold segment. cbn zeta.
  by rewrite eqb_empty_false, Cut_without.
Qed.

Lemma segment_range s r v w :
  TrimSpace r = range_text v w →
  all_bytes (λ c, negb (byte_eqb c "-")) v = true →
  segment s r =
    match toInt v with
    | (_, Some err) => inr err
    | (start, None) =>
        match toInt w with
        | (_, Some err) => inr err
        | (end_, None) =>
            if start >? end_ then inr (New ("invalid range: " ++ range_text v w))
            else inl (setRange s start end_)
        end
    end.
Proof.
  intros Hr Hv. unfold segment. cbn zeta. rewrite Hr.
  rewrite eqb_empty_false by apply range_text_ne.
  unfold range_text at 1. by rewrite Cut_app.
Qed.

Lemma segment_wf s r s' : CPUSet_wf s → segment s r = inl s' → CPUSet_wf s'.
Proof.
  unfold segment. cbn zeta. intros Hs.
  destruct (String.eqb _ _); [by intros [= <-]|].
  destruct (Cut _ _) as [[r0 r1] [|]].
  - destruct (toInt r0) as [start [?|]]; [done|].
    destruct (toInt r1) as [end_ [?|]]; [done|].
    destruct (_ >? _); [done|]. intros [= <-]. by apply setRange_wf.
  - destruct (toInt _) as [val [?|]]; [done|]. intros [= <-]. by apply CPUSet_Set_wf.
Qed.

(** *** The loop over the segments *)

Lemma segments_app rs1 rs2 s :
  segments (rs1 ++ rs2) s =
    match segments rs1 s with
    | inl s' => segments rs2 s'
    | inr err => inr err
    end.
Proof.
  revert s; induction rs1 as [|r rs1 IH]; intros s; simpl; [done|].
  destruct (segment s r); [apply IH|done].
Qed.

Lemma segments_blank rs s :
  Forall (λ r, TrimSpace r = EmptyString) rs → segments rs s = inl s.
Proof.
  induction 1 as [|r rs Hr _ IH]; simpl; [done|]. by rewrite segment_blank.
Qed.

(** Blank segments are skipped. *)
Lemma segments_skip_blank rs s :
  segments rs s =
    segments (filter (λ r, TrimSpace r ≠ EmptyString) rs) s.
Proof.
  revert s; induction rs as [|r rs IH]; intros s; [done|].
  rewrite filter_cons. destruct (decide (TrimSpace r ≠ EmptyString)) as [Hr|Hr].
  - simpl. destruct (segment s r); [apply IH|done].
  - apply dec_stable in Hr. simpl. rewrite segment_blank by done. apply IH.
Qed.

Lemma segments_wf rs s s' : CPUSet_wf s → segments rs s = inl s' → CPUSet_wf s'.
Proof.
  revert s; induction rs as [|r rs IH]; intros s Hs; simpl; [by intros [= <-]|].
  destruct (segment s r) as [s1|] eqn:Hr; [|done].
  apply IH. by eapply segment_wf.
Qed.

(** The bits set stay set, and a segment that is not blank sets one. *)
Lemma segment_IsSet s r s' :
  CPUSet_wf s → segment s r = inl s' →
  (∀ j, 0 ≤ j → CPUSet_IsSet s j = true → CPUSet_IsSet s' j = true)
  ∧ (TrimSpace r ≠ EmptyString → ∃ j, 0 ≤ j ∧ CPUSet_IsSet s' j = true).
Proof.
  unfold segment. cbn zeta. intros Hs.
  destruct (String.eqb_spec (TrimSpace r) EmptyString) as [Hr|Hr];
    [intros [= <-]; by split|].
  destruct (Cut _ _) as [[r0 r1] [|]].
  - destruct (toInt r0) as [start [?|]] eqn:H0; [done|].
    destruct (toInt r1) as [end_ [?|]] eqn:H1; [done|].
    apply toInt_ok_inv in H0 as (_ & _ & _ & H0).
    apply toInt_ok_inv in H1 as (_ & _ & _ & H1).
    change maxCPU with _CPU_SETSIZE in *.
    destruct (Z.gtb_spec start end_); [done|]. intros [= <-]. split.
    + intros j Hj Hset. rewrite CPUSet_IsSet_setRange, Hset by (done || lia).
      by rewrite orb_true_r.
    + intros _. exists start. split; [lia|].
      rewrite CPUSet_IsSet_setRange by (done || lia).
      destruct (Z.leb_spec start start), (Z.leb_spec start end_); try lia; done.
  - destruct (toInt _) as [val [?|]] eqn:Hval; [done|].
    apply toInt_ok_inv in Hval as (_ & _ & _ & Hval).
    change maxCPU with _CPU_SETSIZE in *. intros [= <-]. split.
    + intros j Hj Hset. rewrite CPUSet_IsSet_Set, Hset by (done || lia).
      by rewrite orb_true_r.
    + intros _. exists val. split; [lia|].
      rewrite CPUSet_IsSet_Set by (done || lia). by rewrite Z.eqb_refl.
Qed.

Lemma segments_IsSet rs s s' j :
  CPUSet_wf s → segments rs s = inl s' →
  0 ≤ j → CPUSet_IsSet s j = true → CPUSet_IsSet s' j = true.
Proof.
  revert s; induction rs as [|r rs IH]; intros s Hs; simpl; [by intros [= <-]|].
  destruct (segment s r) as [s1|] eqn:Hr; [|done]. intros Hrs Hj Hset.
  apply (IH s1); [by eapply segment_wf|done|done|].
  by apply (segment_IsSet s r s1).
Qed.

(** The loop leaves the set empty only when every segment is blank. *)
Lemma segments_empty rs s s' :
  CPUSet_wf s → segments rs s = inl s' → CPUSet_Count s' = 0 →
  Forall (λ r, TrimSpace r = EmptyString) rs.
Proof.
  revert s; induction rs as [|r rs IH]; intros s Hs; simpl; [by constructor|].
  destruct (segment s r) as [s1|] eqn:Hr; [|done]. intros Hrs Hcount.
  assert (Hs1 : CPUSet_wf s1) by by eapply segment_wf.
  constructor; [|by apply (IH s1)].
  destruct (decide (TrimSpace r = EmptyString)) as [|Hne]; [done|].
  destruct (proj2 (segment_IsSet s r s1 Hs Hr) Hne) as (j & Hj & Hset).
  pose proof (segments_IsSet rs s1 s' j Hs1 Hrs Hj Hset) as Hset'.
  pose proof (CPUSet_Count_IsSet s' j Hj Hset'). lia.
Qed.

Lemma toInt_error v x e : toInt v = (x, Some e) → segment_error e.
Proof.
  unfold toInt, ParseUint.
  destruct v as [|c v]; [intros [= <- <-]; left; by eexists _, _|].
  destruct (parseDigits _ _ _ _) as [ret [k|]]; simpl.
  - intros [= <- <-]. left. by eexists _, _.
  - destruct (_ >=? _); [|done]. intros [= <- <-]. by right; left.
Qed.

Lemma segment_inr s r e : segment s r = inr e → segment_error e.
Proof.
  unfold segment. cbn zeta. destruct (String.eqb _ _); [done|].
  destruct (Cut _ _) as [[r0 r1] [|]].
  - destruct (toInt r0) as [start [?|]] eqn:H0;
      [intros [= <-]; by eapply toInt_error|].
    destruct (toInt r1) as [end_ [?|]] eqn:H1;
      [intros [= <-]; by eapply toInt_error|].
    destruct (_ >? _); [|done]. intros [= <-]. right; right. by eexists.
  - destruct (toInt _) as [val [?|]] eqn:Hval; [|done].
    intros [= <-]. by eapply toInt_error.
Qed.

Lemma segments_inr rs s e : segments rs s = inr e → segment_error e.
Proof.
  revert s; induction rs as [|r rs IH]; intros s; simpl; [done|].
  destruct (segment s r) as [s1|e1] eqn:Hr; [apply IH|].
  intros [= <-]. by eapply segment_inr.
Qed.

(** *** The whole function *)

Lemma toCPUSet_nonempty str :
  str ≠ EmptyString →
  toCPUSet str =
    match segments (Split str ",") CPUSet_new with
    | inr err => (None, Some err)
    | inl s =>
        if CPUSet_Count s =? 0
        then (None, Some (Errorf "no CPUs found in %q" [op_s str]))
        else (Some s, None)
    end.
Proof. intros Hne. unfold toCPUSet. by rewrite eqb_empty_false. Qed.

(** The error of a segment is the error of the function when the segments
    before it are in order. *)
Lemma toCPUSet_segment_error str pre r post s err :
  Split str "," = (pre ++ r :: post)%list →
  segments pre CPUSet_new = inl s → segment s r = inr err →
  toCPUSet str = (None, Some err).
Proof.
  intros Hsplit Hpre Hr.
  assert (str ≠ EmptyString).
  { intros ->. simpl in Hsplit. destruct pre as [|? [|? ?]]; simplify_eq/=. }
  rewrite toCPUSet_nonempty, Hsplit, segments_app, Hpre by done.
  simpl. by rewrite Hr.
Qed.

(** A specification of one segment. *)
Lemma toCPUSet_single str :
  str ≠ EmptyString → all_bytes (λ c, negb (byte_eqb c ",")) str = true →
  toCPUSet str =
    match segment CPUSet_new str with
    | inr err => (None, Some err)
    | inl s =>
        if CPUSet_Count s =? 0
        then (None, Some (Errorf "no CPUs found in %q" [op_s str]))
        else (Some s, None)
    end.
Proof.
  intros Hne Hstr. rewrite toCPUSet_nonempty, Split_without by done.
  simpl. by destruct (segment _ _).
Qed.

Lemma Count_Set_new val :
  0 ≤ val < maxCPU → (CPUSet_Count (CPUSet_Set CPUSet_new val) =? 0) = false.
Proof.
  intros Hval. apply Z.eqb_neq.
  pose proof (CPUSet_Count_IsSet (CPUSet_Set CPUSet_new val) val) as H.
  rewrite CPUSet_IsSet_Set, Z.eqb_refl in H by (done || apply CPUSet_new_wf || lia).
  specialize (H ltac:(lia) eq_refl). lia.
Qed.

Lemma Count_setRange_new start end_ :
  0 ≤ start → start ≤ end_ → end_ < maxCPU →
  (CPUSet_Count (setRange CPUSet_new start end_) =? 0) = false.
Proof.
  intros Hs Hse He. apply Z.eqb_neq.
  pose proof (CPUSet_Count_IsSet (setRange CPUSet_new start end_) start) as H.
  rewrite CPUSet_IsSet_setRange in H by (done || apply CPUSet_new_wf || lia).
  destruct (Z.leb_spec start start), (Z.leb_spec start end_); try lia;
    specialize (H ltac:(lia) eq_refl); lia.
Qed.

End toCPUSet.

Section toCPUSet_whole.
Import strings strconv unix configs.

Lemma setRange_single s a : setRange s a a = CPUSet_Set s a.
Proof.
  unfold setRange. replace (a - a + 1) with 1 by lia.
  rewrite seqZ_cons, seqZ_nil by lia. done.
Qed.

(** The scalar specification: one decimal numeral. *)
Lemma toCPUSet_scalar v :
  v ≠ EmptyString → all_bytes digit_byte v = true →
  toCPUSet v =
    match toInt v with
    | (_, Some err) => (None, Some err)
    | (val, None) => (Some (CPUSet_Set CPUSet_new val), None)
    end.
Proof.
  intros Hne Hv.
  rewrite toCPUSet_single by (done || by apply digits_no_byte).
  rewrite segment_scalar; rewrite TrimSpace_plain by (by apply digits_plain);
    [|done|by apply digits_no_byte].
  destruct (toInt v) as [val [err|]] eqn:Hval; [done|].
  apply toInt_ok_inv in Hval as (_ & _ & _ & Hval).
  by rewrite Count_Set_new.
Qed.

(** The range specification: two decimal numerals and a hyphen. *)
Lemma toCPUSet_range v w a b :
  toInt v = (a, None) → toInt w = (b, None) →
  toCPUSet (range_text v w) =
    if a >? b then (None, Some (New ("invalid range: " ++ range_text v w)))
    else (Some (setRange CPUSet_new a b), None).
Proof.
  intros Hv Hw.
  pose proof Hv as (_ & Hdv & _ & Ha)%toInt_ok_inv.
  pose proof Hw as (_ & Hdw & _ & Hb)%toInt_ok_inv.
  rewrite toCPUSet_single by (apply range_text_ne || by apply range_text_no_comma).
  rewrite (segment_range _ _ v w), Hv, Hw;
    [|by apply TrimSpace_plain, range_text_plain|by apply digits_no_byte].
  destruct (Z.gtb_spec a b); [done|].
  by rewrite Count_setRange_new by lia.
Qed.

End toCPUSet_whole.

(** Claim C4, amended. For a value written as a string of decimal digits,
    [toCPUSet] accepts it when it is below [maxCPU], the bit width of the CPU
    mask; rejects it with the error naming the limit [maxCPU - 1] when it is
    [maxCPU] or more and fits 32 bits; and rejects it with the range error of
    [ParseUint] when it does not fit. The rejection is that of the whole
    function wherever the value stands in a segment: alone, as the start of a
    range, or as the end of a range whose start is in order, the segments
    before being in order. The value [maxCPU] fails and [maxCPU - 1], the
    largest index, succeeds. *)
Theorem toCPUSet_value_limit (v : string) :
  v ≠ EmptyString → all_bytes digit_byte v = true →
  (numeral v 0 < configs.maxCPU →
     configs.toInt v = (numeral v 0, None)
     ∧ ∃ s, configs.toCPUSet v = (Some s, None)
         ∧ ∀ j, 0 ≤ j → unix.CPUSet_IsSet s j = (numeral v 0 =? j))
  ∧ (configs.maxCPU ≤ numeral v 0 ≤ 2 ^ 32 - 1 →
       configs.toInt v = (0, Some limit_error))
  ∧ (2 ^ 32 ≤ numeral v 0 →
       configs.toInt v = (0, Some (NumError "ParseUint" v ErrRange)))
  ∧ (∀ err, configs.toInt v = (0, Some err) →
       ∀ str pre r post s,
         strings.Split str "," = (pre ++ r :: post)%list →
         configs.segments pre unix.CPUSet_new = inl s →
         strings.TrimSpace r = v
         ∨ (∃ w, strings.TrimSpace r = range_text v w)
         ∨ (∃ w b, configs.toInt w = (b, None) ∧ strings.TrimSpace r = range_text w v) →
         configs.toCPUSet str = (None, Some err))
  ∧ (numeral "1024" 0 = configs.maxCPU
     ∧ configs.toCPUSet "1024" = (None, Some limit_error))
  ∧ (numeral "1023" 0 = configs.maxCPU - 1
     ∧ ∃ s, configs.toCPUSet "1023" = (Some s, None)).
Proof.
  intros Hne Hv. pose proof (toInt_digits v Hne Hv) as Hint.
  pose proof (numeral_le v 0 Hv ltac:(lia)) as Hnn.
  split_and!.
  - intros Hlt. destruct (Z.ltb_spec (numeral v 0) configs.maxCPU); [|lia].
    split; [done|]. rewrite toCPUSet_scalar, Hint by done.
    eexists; split; [done|]. intros j Hj.
    rewrite CPUSet_IsSet_Set, CPUSet_IsSet_new by (done || apply CPUSet_new_wf || lia).
    by rewrite orb_false_r.
  - intros [Hge Hle]. destruct (Z.ltb_spec (numeral v 0) configs.maxCPU); [lia|].
    by destruct (Z.leb_spec (numeral v 0) (2 ^ 32 - 1)); [|lia].
  - intros Hge. change configs.maxCPU with 1024 in *.
    change (2 ^ 32) with 4294967296 in *.
    destruct (Z.ltb_spec (numeral v 0) 1024); [lia|].
    by destruct (Z.leb_spec (numeral v 0) (4294967296 - 1)); [lia|].
  - intros err Herr str pre r post s Hsplit Hpre Hr.
    eapply toCPUSet_segment_error; [done..|].
    destruct Hr as [Hr|[[w Hr]|(w & b & Hw & Hr)]].
    + rewrite segment_scalar; rewrite Hr; [|done|by apply digits_no_byte].
      by rewrite Herr.
    + rewrite (segment_range _ _ v w), Herr; [done..|by apply digits_no_byte].
    + pose proof Hw as (_ & Hdw & _)%toInt_ok_inv.
      rewrite (segment_range _ _ w v), Hw, Herr; [done..|by apply digits_no_byte].
  - done.
  - done.
  - done.
  - by eexists.
Qed.

Lemma toCPUSet_value_limit_witness :
  configs.toInt "1023" = (1023, None) ∧ configs.toInt "1024" = (0, Some limit_error).
Proof.
  assert (H1 : "1023" ≠ EmptyString) by discriminate.
  assert (H2 : "1024" ≠ EmptyString) by discriminate.
  assert (H3 : numeral "1023" 0 < configs.maxCPU) by (vm_compute; reflexivity).
  assert (H4 : configs.maxCPU ≤ numeral "1024" 0 ≤ 2 ^ 32 - 1)
    by (vm_compute; split; discriminate).
  split.
  - exact (proj1 (proj1 (toCPUSet_value_limit "1023" H1 eq_refl) H3)).
  - exact (proj1 (proj2 (toCPUSet_value_limit "1024" H2 eq_refl)) H4).
Defined.

(** Claim C4 as stated fails: with the maximum the bit width of the CPU
    mask, the value at the maximum is rejected, not accepted; and the value
    one less, the largest index, is accepted. *)
Lemma toCPUSet_maximum_rejected :
  numeral "1024" 0 = configs.maxCPU
  ∧ configs.toCPUSet "1024" =
      (None, Some (Errorf "values larger than %d are not supported" [op_d 1023]))
  ∧ (¬ ∃ s, configs.toCPUSet "1024" = (Some s, None))
  ∧ ∃ s, configs.toCPUSet "1023" = (Some s, None).
Proof.
  split_and!; [done|done| |by eexists].
  intros [s Hs]. vm_compute in Hs. discriminate.
Qed.

(** Claim C5. [toCPUSet] of the empty string returns no set and no error. A
    string that is not empty and whose segments leave the set empty fails
    with the error of no CPUs found, on the string itself; that is so when
    every segment is blank, as in the string of a space, a comma and a
    space. A blank segment leaves the set as it is, and the loop over the
    segments is the loop over those that are not blank. *)
Theorem toCPUSet_no_CPUs :
  configs.toCPUSet EmptyString = (None, None)
  ∧ (∀ str s,
       str ≠ EmptyString →
       configs.segments (strings.Split str ",") unix.CPUSet_new = inl s →
       unix.CPUSet_Count s = 0 →
       configs.toCPUSet str = (None, Some (Errorf "no CPUs found in %q" [op_s str])))
  ∧ (∀ str,
       str ≠ EmptyString →
       Forall (λ r, strings.TrimSpace r = EmptyString) (strings.Split str ",") →
       configs.toCPUSet str = (None, Some (Errorf "no CPUs found in %q" [op_s str])))
  ∧ (∀ str,
       configs.toCPUSet str = (None, Some (Errorf "no CPUs found in %q" [op_s str])) ↔
       str ≠ EmptyString
       ∧ Forall (λ r, strings.TrimSpace r = EmptyString) (strings.Split str ","))
  ∧ (∀ s r, strings.TrimSpace r = EmptyString → configs.segment s r = inl s)
  ∧ (∀ rs s,
       configs.segments rs s =
         configs.segments (filter (λ r, strings.TrimSpace r ≠ EmptyString) rs) s)
  ∧ configs.toCPUSet " , " = (None, Some (Errorf "no CPUs found in %q" [op_s " , "])).
Proof.
  split_and!.
  - done.
  - intros str s Hne Hs Hc. by rewrite toCPUSet_nonempty, Hs, Hc.
  - intros str Hne Hblank. by rewrite toCPUSet_nonempty, segments_blank.
  - intros str. split.
    + intros Hstr. assert (Hne : str ≠ EmptyString) by (by intros ->).
      split; [done|]. rewrite toCPUSet_nonempty in Hstr by done.
      destruct (configs.segments _ _) as [s|err] eqn:Hs.
      * destruct (Z.eqb_spec (unix.CPUSet_Count s) 0); [|done].
        by eapply segments_empty; [apply CPUSet_new_wf|..].
      * apply segments_inr in Hs as [(v & k & ->)|[->|[r ->]]]; done.
    + intros [Hne Hblank]. by rewrite toCPUSet_nonempty, segments_blank.
  - apply segment_blank.
  - apply segments_skip_blank.
  - done.
Qed.

Lemma toCPUSet_no_CPUs_witness :
  configs.toCPUSet " ,, " = (None, Some (Errorf "no CPUs found in %q" [op_s " ,, "])).
Proof.
  apply (proj1 (proj2 (proj2 toCPUSet_no_CPUs))).
  - discriminate.
  - repeat constructor.
Defined.

(** Claim C9. For a range segment whose start and end are in order as values
    ([toInt] returns them), [toCPUSet] rejects the segment with the error of
    an invalid range when the start is greater than the end, and otherwise sets
    the bits of the interval from start to end, both included, and no other
    bit; so does the whole function on a specification of that one range. A
    range whose start is its end gives the set of the bare value, as for the
    range from 2 to 2 and the value 2. Two runs on one specification give one
    set. *)
Theorem toCPUSet_ranges (v w : string) (a b : Z) :
  configs.toInt v = (a, None) → configs.toInt w = (b, None) →
  (∀ s r, CPUSet_wf s → strings.TrimSpace r = range_text v w →
     configs.segment s r =
       (if a >? b then inr (New ("invalid range: " ++ range_text v w))
        else inl (configs.setRange s a b))
     ∧ ∀ j, 0 ≤ j →
         unix.CPUSet_IsSet (configs.setRange s a b) j =
           (a <=? j) && (j <=? b) || unix.CPUSet_IsSet s j)
  ∧ (a > b →
       configs.toCPUSet (range_text v w) =
         (None, Some (New ("invalid range: " ++ range_text v w))))
  ∧ (a ≤ b →
       ∃ s, configs.toCPUSet (range_text v w) = (Some s, None)
         ∧ ∀ j, 0 ≤ j → unix.CPUSet_IsSet s j = (a <=? j) && (j <=? b))
  ∧ configs.toCPUSet (range_text v v) = configs.toCPUSet v
  ∧ configs.toCPUSet "2-2" = configs.toCPUSet "2"
  ∧ (∀ str r1 r2, configs.toCPUSet str = r1 → configs.toCPUSet str = r2 → r1 = r2).
Proof.
  intros Hv Hw.
  pose proof Hv as (Hnv & Hdv & _ & Ha)%toInt_ok_inv.
  pose proof Hw as (_ & Hdw & _ & Hb)%toInt_ok_inv.
  change configs.maxCPU with unix._CPU_SETSIZE in *.
  split_and!.
  - intros s r Hs Hr. split.
    + rewrite (segment_range _ _ v w), Hv, Hw; [done..|by apply digits_no_byte].
    + intros j Hj. apply CPUSet_IsSet_setRange; lia || done.
  - intros Hab. rewrite (toCPUSet_range v w a b) by done.
    by destruct (Z.gtb_spec a b); [|lia].
  - intros Hab. rewrite (toCPUSet_range v w a b) by done.
    destruct (Z.gtb_spec a b); [lia|]. eexists; split; [done|].
    intros j Hj. rewrite CPUSet_IsSet_setRange by (apply CPUSet_new_wf || lia).
    by rewrite CPUSet_IsSet_new, orb_false_r.
  - rewrite (toCPUSet_range v v a a), toCPUSet_scalar, Hv by done.
    destruct (Z.gtb_spec a a); [lia|]. by rewrite setRange_single.
  - done.
  - congruence.
Qed.

Lemma toCPUSet_ranges_witness :
  (∃ s, configs.toCPUSet "0-3" = (Some s, None)
     ∧ ∀ j, 0 ≤ j → unix.CPUSet_IsSet s j = (0 <=? j) && (j <=? 3))
  ∧ configs.toCPUSet "5-2" = (None, Some (New "invalid range: 5-2")).
Proof.
  assert (H0 : configs.toInt "0" = (0, None)) by reflexivity.
  assert (H3 : configs.toInt "3" = (3, None)) by reflexivity.
  assert (H5 : configs.toInt "5" = (5, None)) by reflexivity.
  assert (H2 : configs.toInt "2" = (2, None)) by reflexivity.
  split.
  - exact (proj1 (proj2 (proj2 (toCPUSet_ranges "0" "3" 0 3 H0 H3))) ltac:(lia)).
  - exact (proj1 (proj2 (toCPUSet_ranges "5" "2" 5 2 H5 H2)) ltac:(lia)).
Defined.

(** The example of the specification: the range from 0 to 3 has the four
    bits 0 to 3 and counts 4. *)
Example toCPUSet_0_3 :
  ∃ s, configs.toCPUSet "0-3" = (Some s, None) ∧ unix.CPUSet_Count s = 4
    ∧ ∀ j, 0 ≤ j → unix.CPUSet_IsSet s j = (0 <=? j) && (j <=? 3).
Proof.
  exists (configs.setRange unix.CPUSet_new 0 3). split_and!; [done|done|].
  intros j Hj. rewrite CPUSet_IsSet_setRange by (apply CPUSet_new_wf || done).
  by rewrite CPUSet_IsSet_new, orb_false_r.
Qed.

(** [toCPUSet] returns no set and no error for the empty string only, and a
    set it returns has a bit set. *)
Lemma toCPUSet_results str :
  match configs.toCPUSet str with
  | (None, None) => str = EmptyString
  | (None, Some _) => str ≠ EmptyString
  | (Some s, None) => str ≠ EmptyString ∧ 0 < unix.CPUSet_Count s
  | (Some _, Some _) => False
  end.
Proof.
  destruct (decide (str = EmptyString)) as [->|Hne]; [done|].
  rewrite toCPUSet_nonempty by done.
  destruct (configs.segments _ _) as [s|err]; [|done].
  destruct (Z.eqb_spec (unix.CPUSet_Count s) 0); [done|].
  pose proof (CPUSet_Count_nonneg s). split; [done|lia].
Qed.

(** Claim C8. [ConvertCPUAffinity] returns no result and no error for an
    absent input and for a pair of two empty strings, and for no other
    input. When the initial specification fails, the error is that of
    [toCPUSet] wrapped as the bad initial one; when it is in order and the
    final one fails, wrapped as the bad final one. Otherwise the result
    holds the two sets as [toCPUSet] builds them, of which one at least is
    present. *)
Theorem ConvertCPUAffinity_cases :
  configs.ConvertCPUAffinity None = (None, None)
  ∧ configs.ConvertCPUAffinity
      (Some {| specs.Initial := EmptyString; specs.Final := EmptyString |}) = (None, None)
  ∧ ∀ sa : specs.CPUAffinity,
      (configs.ConvertCPUAffinity (Some sa) = (None, None) ↔
         specs.Initial sa = EmptyString ∧ specs.Final sa = EmptyString)
      ∧ match configs.toCPUSet (specs.Initial sa), configs.toCPUSet (specs.Final sa) with
        | (_, Some err), _ =>
            configs.ConvertCPUAffinity (Some sa) =
              (None, Some (Errorf "bad CPUAffinity.Initial: %w" [op_w err]))
        | (_, None), (_, Some err) =>
            configs.ConvertCPUAffinity (Some sa) =
              (None, Some (Errorf "bad CPUAffinity.Final: %w" [op_w err]))
        | (initial, None), (final, None) =>
            (is_Some initial ∨ is_Some final →
               configs.ConvertCPUAffinity (Some sa) =
                 (Some {| configs.Initial := initial; configs.Final := final |}, None))
            ∧ (initial = None ∧ final = None →
                 configs.ConvertCPUAffinity (Some sa) = (None, None))
        end.
Proof.
  split_and!; [done|done|]. intros sa.
  pose proof (toCPUSet_results (specs.Initial sa)) as Hi.
  pose proof (toCPUSet_results (specs.Final sa)) as Hf.
  unfold configs.ConvertCPUAffinity.
  destruct (configs.toCPUSet (specs.Initial sa)) as [[si|] [ei|]];
    destruct (configs.toCPUSet (specs.Final sa)) as [[sf|] [ef|]];
    try done; intuition (try discriminate; try congruence);
    match goal with H : is_Some None |- _ => by destruct H end.
Qed.

Lemma ConvertCPUAffinity_cases_witness :
  configs.ConvertCPUAffinity
    (Some {| specs.Initial := EmptyString; specs.Final := EmptyString |}) = (None, None).
Proof.
  pose (sa := {| specs.Initial := EmptyString; specs.Final := EmptyString |}).
  exact (proj2 (proj1 (proj2 (proj2 ConvertCPUAffinity_cases) sa)) (conj eq_refl eq_refl)).
Defined.

(** ** Hook runner *)

Section Hooks_Run.
Context {State World CommandHook : Type}.
Variable Command_Run : CommandHook → State → World → World * option error.

Local Abbreviation Hook := (configs.Hook State World CommandHook).
Local Abbreviation Hook_Run := (configs.Hook_Run Command_Run).
Local Abbreviation runFrom := (configs.runFrom Command_Run).
Local Abbreviation Hooks_Run := (configs.Hooks_Run Command_Run).

Lemma runFrom_all_run i pre l name state w w1 :
  all_run Command_Run state pre w w1 →
  runFrom i (pre ++ l) name state w =
    runFrom (i + Z.of_nat (length pre)) l name state w1.
Proof.
  intros Hpre; revert i; induction Hpre as [w|h pre w w1 w2 Hh _ IH]; intros i; simpl.
  - f_equal; lia.
  - rewrite Hh, IH. f_equal; lia.
Qed.

(** A list either runs to its end or splits at its first hook that
    fails. *)
Lemma all_run_or_fail state l w :
  (∃ w', all_run Command_Run state l w w')
  ∨ ∃ pre h post w1 w2 err,
      l = (pre ++ h :: post)%list ∧ all_run Command_Run state pre w w1
      ∧ Hook_Run h state w1 = (w2, Some err).
Proof.
  revert w; induction l as [|h l IH]; intros w; [left; eexists; constructor|].
  destruct (Hook_Run h state w) as [w1 [err|]] eqn:Hh.
  - right. exists [], h, l, w, w1, err. split_and!; [done|constructor|done].
  - destruct (IH w1) as [[w' Hl]|(pre & h' & post & w2 & w3 & err & -> & Hpre & Hh')].
    + left. exists w'. by econstructor.
    + right. exists (h :: pre), h', post, w2, w3, err.
      split_and!; [done|by econstructor|done].
Qed.

(** Claim C2. [Hooks.Run] takes the list of the name, the empty list for
    a name that is not in the registry and for every name of a nil
    registry, and then returns success at once; it runs the hooks of the
    list in order; at the first hook that fails, after the hooks before it
    have all succeeded, it returns the error of that hook wrapped with the
    name and the index of the hook, counted from 0, and the world is the
    one the failing hook leaves, whatever the hooks after it are; when all
    the hooks succeed it returns success. *)
Theorem Hooks_Run_fail_fast (hooks : option (gmap string (list Hook)))
    (name : string) (state : State) (w : World) :
  (hooks = None ∨ (∃ m, hooks = Some m ∧ m !! name = None) →
     configs.Hooks_index hooks name = []
     ∧ Hooks_Run hooks name state w = (w, None))
  ∧ (∀ pre h post w1 w2 err,
       configs.Hooks_index hooks name = (pre ++ h :: post)%list →
       all_run Command_Run state pre w w1 →
       Hook_Run h state w1 = (w2, Some err) →
       Hooks_Run hooks name state w =
         (w2, Some (Errorf "error running %s hook #%d: %w"
                      [op_s name; op_d (Z.of_nat (length pre)); op_w err]))
       ∧ ∀ post', runFrom 0 (pre ++ h :: post') name state w =
                    Hooks_Run hooks name state w)
  ∧ (∀ w', all_run Command_Run state (configs.Hooks_index hooks name) w w' →
       Hooks_Run hooks name state w = (w', None))
  ∧ ((∃ w', all_run Command_Run state (configs.Hooks_index hooks name) w w')
     ∨ ∃ pre h post w1 w2 err,
         configs.Hooks_index hooks name = (pre ++ h :: post)%list
         ∧ all_run Command_Run state pre w w1 ∧ Hook_Run h state w1 = (w2, Some err)).
Proof.
  unfold configs.Hooks_Run. split_and!.
  - intros [->|(m & -> & Hm)]; [done|]. unfold configs.Hooks_index. by rewrite Hm.
  - intros pre h post w1 w2 err Hl Hpre Hh.
    assert (Hrun : ∀ post', runFrom 0 (pre ++ h :: post') name state w =
      (w2, Some (Errorf "error running %s hook #%d: %w"
                   [op_s name; op_d (Z.of_nat (length pre)); op_w err]))).
    { intros post'. rewrite (runFrom_all_run _ _ _ _ _ _ _ Hpre). simpl.
      by rewrite Hh. }
    rewrite Hl. split; [apply Hrun|]. intros post'. by rewrite !Hrun.
  - intros w' Hall.
    rewrite <-(app_nil_r (configs.Hooks_index hooks name)).
    by rewrite (runFrom_all_run _ _ _ _ _ _ _ Hall).
  - apply all_run_or_fail.
Qed.

End Hooks_Run.

(** The example of the specification: of three hooks, the first succeeds and
    the second fails; the third is not run. Each hook writes its name to the
    world, a list of names. *)
Section Hooks_Run_example.

Example Hooks_Run_three :
  configs.Hooks_Run no_Command_Run three_hooks configs.Prestart tt []
  = (["A"; "B"],
     Some (Errorf "error running %s hook #%d: %w"
             [op_s "prestart"; op_d 1; op_w (New "B failed")])).
Proof. reflexivity. Qed.

Lemma Hooks_Run_fail_fast_witness :
  configs.Hooks_Run no_Command_Run three_hooks configs.Poststop tt [] = ([], None)
  ∧ configs.Hooks_Run no_Command_Run three_hooks configs.Prestart tt []
    = (["A"; "B"],
       Some (Errorf "error running %s hook #%d: %w"
               [op_s "prestart"; op_d 1; op_w (New "B failed")])).
Proof.
  split.
  - refine (proj2 (proj1 (Hooks_Run_fail_fast no_Command_Run three_hooks
                            configs.Poststop tt []) _)).
    right. eexists. split; [reflexivity|]. reflexivity.
  - refine (proj1 (proj1 (proj2 (Hooks_Run_fail_fast no_Command_Run three_hooks
                            configs.Prestart tt []))
                     [note "A" None] (note "B" (Some (New "B failed")))
                     [note "C" None] ["A"] ["A"; "B"] (New "B failed") _ _ _)).
    + reflexivity.
    + econstructor; [reflexivity|constructor].
    + reflexivity.
Defined.

End Hooks_Run_example.

(** ** Hook registry serialization *)

Section Hooks_JSON.
Context {State World CommandHook bytes : Type}.
Variable json_Marshal : gmap string (list CommandHook) → bytes * option error.
Variable json_Unmarshal : bytes → gmap string (list CommandHook) + error.

Local Abbreviation Hook := (configs.Hook State World CommandHook).
Local Abbreviation MarshalJSON := (configs.MarshalJSON json_Marshal).
Local Abbreviation UnmarshalJSON := (configs.UnmarshalJSON json_Unmarshal).

Lemma serialize_from_spec (l : list Hook) acc :
  configs.serialize_from l acc = ((acc ++ command_hooks l)%list, warnings l).
Proof.
  revert acc; induction l as [|h l IH]; intros acc; simpl.
  - by rewrite app_nil_r.
  - destruct h as [f|chook|ty Run]; rewrite IH; try done.
    by rewrite <-app_assoc.
Qed.

Lemma serialize_spec (l : list Hook) :
  configs.serialize l = (command_hooks l, warnings l).
Proof. apply serialize_from_spec. Qed.

Lemma command_hooks_fmap (l : list CommandHook) :
  command_hooks ((configs.Hook_CommandHook <$> l) : list Hook) = l.
Proof. induction l as [|c l IH]; [done|]. unfold command_hooks in *. cbn. by f_equal. Qed.

Lemma warnings_fmap (l : list CommandHook) :
  warnings ((configs.Hook_CommandHook <$> l) : list Hook) = [].
Proof. induction l as [|c l IH]; [done|]. unfold warnings in *. by simpl. Qed.

Lemma Hooks_index_commands_only (hooks : option (gmap string (list Hook))) name :
  configs.Hooks_index (commands_only hooks) name =
    configs.Hook_CommandHook <$> command_hooks (configs.Hooks_index hooks name).
Proof.
  destruct hooks as [m|]; [|done]. simpl. rewrite lookup_fmap.
  by destruct (m !! name).
Qed.

Lemma MarshalJSON_spec (hooks : option (gmap string (list Hook))) :
  MarshalJSON hooks =
    (json_Marshal (record hooks),
     mjoin ((λ name, warnings (configs.Hooks_index hooks name))
              <$> configs.KnownHookNames)).
Proof.
  unfold configs.MarshalJSON. rewrite !serialize_spec. unfold record. simpl.
  by rewrite app_nil_r.
Qed.

Lemma listed_index (hooks : option (gmap string (list Hook))) name :
  listed hooks name = configs.Hooks_index hooks name.
Proof. destruct hooks as [m|]; [|done]. simpl. by destruct (m !! name). Qed.

Lemma singleton_index name0 (l : list Hook) name :
  configs.Hooks_index (Some {[ name0 := l ]}) name =
    if decide (name = name0) then l else [].
Proof.
  unfold configs.Hooks_index. destruct (decide (name = name0)) as [->|Hne].
  - by rewrite lookup_singleton_eq.
  - by rewrite lookup_singleton_ne.
Qed.

(** Claim C7, amended. [MarshalJSON] gives to the encoder a record that has
    the six names of the fixed events and no other, each with the command
    hooks the registry lists under that name, in order, none for a name it
    does not list. A hook under one of the six names that is not a command
    hook, as a function hook, is left out with one line of warning in the
    log, and the bytes and the error returned are those for the registry
    without such hooks. The lists under other names are not read: two
    registries that list the same hooks under the six names give the same
    result, log included. For a function hook and a command hook under
    prestart, the array of prestart has the command hook alone, the other
    five arrays are empty, and the log has one line. *)
Theorem MarshalJSON_record (hooks : option (gmap string (list Hook))) :
  (∃ doc,
     MarshalJSON hooks =
       (json_Marshal doc, mjoin ((λ name, warnings (listed hooks name)) <$> event_names))
     ∧ dom doc = list_to_set event_names
     ∧ ∀ name, name ∈ event_names →
         doc !! name = Some (command_hooks (listed hooks name)))
  ∧ configs.KnownHookNames = event_names
  ∧ fst (MarshalJSON (commands_only hooks)) = fst (MarshalJSON hooks)
  ∧ snd (MarshalJSON (commands_only hooks)) = []
  ∧ (∀ hooks' : option (gmap string (list Hook)),
       (∀ name, name ∈ event_names → listed hooks' name = listed hooks name) →
       MarshalJSON hooks' = MarshalJSON hooks)
  ∧ (∀ (f : configs.FuncHook State World) (chook : CommandHook),
       MarshalJSON
         (Some {[ "prestart" :=
                    [configs.Hook_FuncHook f; configs.Hook_CommandHook chook] ]}) =
         (json_Marshal
            (<["prestart" := [chook]]>
             (<["createRuntime" := []]>
              (<["createContainer" := []]>
               (<["startContainer" := []]>
                (<["poststart" := []]>
                 (<["poststop" := []]> ∅)))))),
          [configs.Warnf "cannot serialize hook of type %T, skipping"
             [op_T "configs.FuncHook"]])).
Proof.
  split_and!.
  - exists (record hooks). split_and!.
    + rewrite MarshalJSON_spec. reflexivity.
    + unfold record. simpl. rewrite !dom_insert_L, dom_empty_L. set_solver.
    + intros name Hin. rewrite listed_index. unfold event_names in Hin.
      repeat (apply elem_of_cons in Hin as [->|Hin];
              [unfold record; by simplify_map_eq|]).
      by apply elem_of_nil in Hin.
  - done.
  - rewrite !MarshalJSON_spec. simpl. unfold record. simpl.
    by rewrite !Hooks_index_commands_only, !command_hooks_fmap.
  - rewrite MarshalJSON_spec. simpl.
    by rewrite !Hooks_index_commands_only, !warnings_fmap.
  - intros hooks' Hsame.
    assert (Hi : ∀ name, name ∈ event_names →
      configs.Hooks_index hooks' name = configs.Hooks_index hooks name).
    { intros name Hin. rewrite <-!listed_index. by apply Hsame. }
    unfold configs.MarshalJSON.
    rewrite (Hi configs.Prestart), (Hi configs.CreateRuntime),
      (Hi configs.CreateContainer), (Hi configs.StartContainer),
      (Hi configs.Poststart), (Hi configs.Poststop);
      [done|repeat constructor..].
  - intros f chook. unfold configs.MarshalJSON. by rewrite !singleton_index.
Qed.

End Hooks_JSON.

Section Hooks_JSON_examples.

Lemma MarshalJSON_record_witness :
  configs.MarshalJSON Marshal_id
    (Some {[ "prestart" := [configs.Hook_FuncHook nop; configs.Hook_CommandHook echo] ]}) =
    (Marshal_id
       (<["prestart" := [echo]]>
        (<["createRuntime" := []]>
         (<["createContainer" := []]>
          (<["startContainer" := []]>
           (<["poststart" := []]>
            (<["poststop" := []]> ∅)))))),
     [configs.Warnf "cannot serialize hook of type %T, skipping"
        [op_T "configs.FuncHook"]]).
Proof.
  exact (proj2 (proj2 (proj2 (proj2 (proj2
           (MarshalJSON_record (State := unit) (World := unit) Marshal_id None)))))
           nop echo).
Defined.

(** Claim C7 as stated fails for a function hook in the list of a name
    that is not one of the six: the registry lists it, it is left out, and
    no line is logged; the result is the one of the nil registry. *)
Lemma MarshalJSON_other_name_silent :
  configs.Hooks_index custom_function "custom" = [configs.Hook_FuncHook nop]
  ∧ snd (configs.MarshalJSON Marshal_id custom_function) = []
  ∧ configs.MarshalJSON Marshal_id custom_function =
      configs.MarshalJSON Marshal_id
        (None : option (gmap string (list (configs.Hook unit unit configs.Command)))).
Proof.
  assert (Hi : ∀ name, name ≠ "custom" →
    configs.Hooks_index custom_function name = []).
  { intros name Hne. unfold custom_function. rewrite singleton_index.
    by destruct (decide _). }
  split_and!.
  - unfold custom_function. by rewrite singleton_index.
  - unfold configs.MarshalJSON. by rewrite !Hi.
  - unfold configs.MarshalJSON. by rewrite !Hi.
Qed.

End Hooks_JSON_examples.

Section round_trip.
Context {State World CommandHook bytes : Type}.
Variable json_Marshal : gmap string (list CommandHook) → bytes * option error.
Variable json_Unmarshal : bytes → gmap string (list CommandHook) + error.

Local Abbreviation Hook := (configs.Hook State World CommandHook).
Local Abbreviation MarshalJSON := (configs.MarshalJSON json_Marshal).
Local Abbreviation UnmarshalJSON := (configs.UnmarshalJSON json_Unmarshal).

Lemma fmap_command_hooks (l : list Hook) :
  Forall is_command l → configs.Hook_CommandHook <$> command_hooks l = l.
Proof.
  induction 1 as [|h l [c Hc] _ IH]; [done|].
  destruct h; simplify_eq/=. unfold command_hooks in *. cbn. by f_equal.
Qed.

Lemma command_hooks_nil (l : list Hook) :
  Forall is_command l → command_hooks l = [] → l = [].
Proof. intros Hl Hnil. by rewrite <-(fmap_command_hooks l), Hnil. Qed.

Lemma append_loop (l : list CommandHook) (acc : list Hook) :
  foldl (λ l h, (l ++ [configs.Hook_CommandHook h])%list) acc l =
    (acc ++ (configs.Hook_CommandHook <$> l))%list.
Proof.
  revert acc; induction l as [|c l IH]; intros acc; simpl.
  - by rewrite app_nil_r.
  - by rewrite IH, <-app_assoc.
Qed.

Lemma unmarshalEntry_lookup n commandHooks (hooks : gmap string (list Hook)) name :
  configs.unmarshalEntry n commandHooks hooks !! name =
    if decide (n = name) then
      match stored commandHooks with Some l => Some l | None => hooks !! name end
    else hooks !! name.
Proof.
  unfold configs.unmarshalEntry. destruct commandHooks as [|c l].
  - simpl. by destruct (decide _).
  - replace (Z.of_nat (length (c :: l)) =? 0) with false
      by (symmetry; apply Z.eqb_neq; simpl; lia).
    rewrite append_loop, lookup_insert. by destruct (decide _).
Qed.

(** The loop of [UnmarshalJSON] stores the arrays that are not empty. *)
Lemma unmarshal_loop_lookup (state : gmap string (list CommandHook)) name :
  map_fold configs.unmarshalEntry (∅ : gmap string (list Hook)) state !! name =
    state !! name ≫= stored.
Proof.
  revert name. apply (map_fold_weak_ind
    (λ (r : gmap string (list Hook)) (m : gmap string (list CommandHook)),
       ∀ name, r !! name = m !! name ≫= stored)).
  - intros name. by rewrite !lookup_empty.
  - intros n x m r Hn IH name. rewrite unmarshalEntry_lookup, lookup_insert.
    destruct (decide (n = name)) as [->|]; [|apply IH].
    simpl. destruct (stored x); [done|]. by rewrite IH, Hn.
Qed.

Lemma UnmarshalJSON_spec (hooks : option (gmap string (list Hook))) b state :
  json_Unmarshal b = inl state →
  UnmarshalJSON hooks b =
    (Some (map_fold configs.unmarshalEntry ∅ state), None).
Proof. unfold configs.UnmarshalJSON. by intros ->. Qed.

Lemma record_lookup (hooks : option (gmap string (list Hook))) name :
  record hooks !! name =
    if decide (name ∈ configs.KnownHookNames)
    then Some (command_hooks (configs.Hooks_index hooks name)) else None.
Proof.
  unfold record. destruct (decide _) as [Hin|Hnotin].
  - unfold configs.KnownHookNames in Hin.
    repeat (apply elem_of_cons in Hin as [->|Hin]; [by simplify_map_eq|]).
    by apply elem_of_nil in Hin.
  - apply not_elem_of_list_to_map. rewrite <-list_fmap_compose.
    by rewrite list_fmap_id.
Qed.

(** Claim C6, amended. Take a registry whose hooks are all command hooks
    and whose names with a hook are among the six fixed names, and let
    [MarshalJSON] return bytes that decode to the record they encode.
    Then deserializing these bytes gives a registry with the same list of
    hooks, in the same order, under every name. It stores no empty list: it
    is the original map exactly when that one stores none either, and it is
    the empty map, which is not nil, for the nil registry. Whatever the
    bytes, deserializing a record stores, for each name, the command hooks
    of its array in order, and nothing for a name whose array is empty. *)
Theorem Hooks_round_trip (hooks receiver : option (gmap string (list Hook)))
    (b : bytes) :
  fst (MarshalJSON hooks) = (b, None) →
  (∀ doc, json_Marshal doc = (b, None) → json_Unmarshal b = inl doc) →
  (∀ name, Forall is_command (configs.Hooks_index hooks name)) →
  (∀ name, configs.Hooks_index hooks name ≠ [] → name ∈ configs.KnownHookNames) →
  (∃ m,
     UnmarshalJSON receiver b = (Some m, None)
     ∧ (∀ name, configs.Hooks_index (Some m) name = configs.Hooks_index hooks name)
     ∧ (∀ name, m !! name ≠ Some [])
     ∧ (∀ m0, hooks = Some m0 → (m = m0 ↔ ∀ name, m0 !! name ≠ Some []))
     ∧ (hooks = None → m = ∅))
  ∧ (∀ b' state,
       json_Unmarshal b' = inl state →
       ∃ m, UnmarshalJSON receiver b' = (Some m, None)
         ∧ ∀ name, m !! name = state !! name ≫= stored).
Proof.
  intros Hm Hinv Hcmd Hnames.
  assert (Hun : ∀ b' state, json_Unmarshal b' = inl state →
    ∃ m, UnmarshalJSON receiver b' = (Some m, None)
      ∧ ∀ name, m !! name = state !! name ≫= stored).
  { intros b' state Hb. eexists. split; [by apply UnmarshalJSON_spec|].
    apply unmarshal_loop_lookup. }
  split; [|done].
  rewrite MarshalJSON_spec in Hm. cbn [fst] in Hm.
  pose proof (Hinv _ Hm) as Hu.
  destruct (Hun b _ Hu) as (m & Hm' & Hlookup).
  assert (Hidx : ∀ name, m !! name = stored (command_hooks (configs.Hooks_index hooks name))).
  { intros name. rewrite Hlookup, record_lookup.
    destruct (decide (name ∈ configs.KnownHookNames)) as [|Hnotin]; [done|].
    destruct (configs.Hooks_index hooks name) as [|h l] eqn:Hl; [done|].
    destruct Hnotin. apply Hnames. by rewrite Hl. }
  assert (Hsame : ∀ name,
    configs.Hooks_index (Some m) name = configs.Hooks_index hooks name).
  { intros name. unfold configs.Hooks_index at 1. rewrite Hidx.
    specialize (Hcmd name).
    destruct (command_hooks (configs.Hooks_index hooks name)) as [|c l] eqn:Hc.
    - symmetry. by apply command_hooks_nil.
    - rewrite <-(fmap_command_hooks _ Hcmd), Hc. done. }
  assert (Hne : ∀ name, m !! name ≠ Some []).
  { intros name. rewrite Hidx.
    by destruct (command_hooks (configs.Hooks_index hooks name)). }
  exists m. split_and!; try done.
  - intros m0 ->. split; [by intros <-|].
    intros Hm0. apply map_eq. intros name.
    specialize (Hsame name). specialize (Hne name). specialize (Hm0 name).
    simpl in Hsame. destruct (m !! name) as [[|??]|], (m0 !! name) as [[|??]|];
      simplify_eq/=; done.
  - intros ->. apply map_eq. intros name. rewrite Hidx, lookup_empty. done.
Qed.

End round_trip.

Section round_trip_examples.

Lemma Marshal_id_inverse doc :
  ∃ b, Marshal_id doc = (b, None) ∧ Unmarshal_id b = inl doc.
Proof. by exists doc. Qed.

Lemma prestart_hooks_index name :
  configs.Hooks_index prestart_hooks name =
    if decide (name = configs.Prestart)
    then [configs.Hook_CommandHook echo; configs.Hook_CommandHook ls] else [].
Proof.
  unfold prestart_hooks, configs.Hooks_index.
  destruct (decide (name = configs.Prestart)) as [->|Hne].
  - by rewrite lookup_singleton_eq.
  - by rewrite lookup_singleton_ne.
Qed.

Lemma Hooks_round_trip_witness :
  ∃ b m,
    fst (configs.MarshalJSON Marshal_id prestart_hooks) = (b, None)
    ∧ configs.UnmarshalJSON Unmarshal_id None b = (Some m, None)
    ∧ Some m = prestart_hooks.
Proof.
  assert (Hb : fst (configs.MarshalJSON Marshal_id prestart_hooks) =
                 (record prestart_hooks, None)) by (by rewrite MarshalJSON_spec).
  assert (Hinv : ∀ doc, Marshal_id doc = (record prestart_hooks, None) →
                        Unmarshal_id (record prestart_hooks) = inl doc).
  { intros doc Hdoc. unfold Marshal_id in Hdoc. injection Hdoc as ->. done. }
  assert (H1 : ∀ name, Forall is_command (configs.Hooks_index prestart_hooks name)).
  { intros name. rewrite prestart_hooks_index.
    destruct (decide _); repeat constructor; by eexists. }
  assert (H2 : ∀ name, configs.Hooks_index prestart_hooks name ≠ [] →
                       name ∈ configs.KnownHookNames).
  { intros name. rewrite prestart_hooks_index.
    destruct (decide _) as [->|]; [intros _; by left|done]. }
  destruct (proj1 (Hooks_round_trip Marshal_id Unmarshal_id prestart_hooks None
                     (record prestart_hooks) Hb Hinv H1 H2))
    as (m & Hm & _ & _ & Heq & _).
  exists (record prestart_hooks), m. split_and!; [done|done|].
  f_equal. apply (Heq _ eq_refl).
  intros name. destruct (decide (name = configs.Prestart)) as [->|Hne].
  - by rewrite lookup_singleton_eq.
  - by rewrite lookup_singleton_ne.
Defined.

(** Claim C6 as stated fails for a registry with a name outside the six:
    the hooks of that name are built purely from command hooks, and are
    lost. *)
Lemma Hooks_round_trip_other_name :
  (∀ name, Forall is_command (configs.Hooks_index custom_hooks name))
  ∧ ∃ b m,
      fst (configs.MarshalJSON Marshal_id custom_hooks) = (b, None)
      ∧ configs.UnmarshalJSON Unmarshal_id custom_hooks b = (Some m, None)
      ∧ configs.Hooks_index custom_hooks "custom" = [configs.Hook_CommandHook echo]
      ∧ configs.Hooks_index (Some m) "custom" = []
      ∧ Some m ≠ custom_hooks.
Proof.
  split.
  - intros name. unfold custom_hooks, configs.Hooks_index.
    destruct (decide (name = "custom")) as [->|Hne].
    + rewrite lookup_singleton_eq. simpl. repeat constructor. by eexists.
    + rewrite lookup_singleton_ne by done. constructor.
  - exists (record custom_hooks), (map_fold configs.unmarshalEntry ∅ (record custom_hooks)).
    assert (Hcustom : configs.Hooks_index
      (Some (map_fold configs.unmarshalEntry ∅ (record custom_hooks))) "custom"
      = ([] : list (configs.Hook unit unit configs.Command))).
    { unfold configs.Hooks_index. by rewrite unmarshal_loop_lookup, record_lookup. }
    assert (Horig : configs.Hooks_index custom_hooks "custom" =
                      [configs.Hook_CommandHook echo]).
    { unfold custom_hooks, configs.Hooks_index. by rewrite lookup_singleton_eq. }
    split_and!; [by rewrite MarshalJSON_spec|done|done|done|].
    intros Heq.
    pose proof (eq_trans (eq_sym Hcustom)
      (eq_trans (f_equal (λ h, configs.Hooks_index h "custom") Heq) Horig)) as H.
    discriminate H.
Qed.

End round_trip_examples.

(** ** The default environment *)

Section SetDefaultEnv.
Context {State World : Type}.

Local Abbreviation Hook := (configs.Hook State World configs.loc).

Lemma defaulted_idemp env c : defaulted env (defaulted env c) = defaulted env c.
Proof.
  unfold defaulted. destruct (configs.len (configs.Env c) =? 0) eqn:Hc.
  - cbn [configs.setEnv configs.Env]. by destruct (configs.len env =? 0).
  - by rewrite Hc.
Qed.

Lemma setDefaultEnv_command env (σ : gmap configs.loc configs.Command) ch c :
  σ !! ch = Some c →
  configs.setDefaultEnv env σ (configs.Hook_CommandHook ch : Hook) =
    Some (<[ch := defaulted env c]> σ).
Proof.
  intros Hc. unfold configs.setDefaultEnv, defaulted. rewrite Hc. simpl.
  destruct (configs.len (configs.Env c) =? 0); [done|]. by rewrite insert_id.
Qed.

Lemma setDefaultEnv_other env (σ : gmap configs.loc configs.Command) (h : Hook) :
  command_of h = None → configs.setDefaultEnv env σ h = Some σ.
Proof. by destruct h. Qed.

Lemma SetDefaultEnv_lookup (hooks : list Hook) env (σ : gmap configs.loc configs.Command) :
  (∀ ch, ch ∈ commands_of hooks → is_Some (σ !! ch)) →
  ∃ σ', configs.SetDefaultEnv hooks env σ = Some σ'
    ∧ ∀ l, σ' !! l =
        if decide (l ∈ commands_of hooks) then defaulted env <$> σ !! l else σ !! l.
Proof.
  revert σ; induction hooks as [|h hooks IH]; intros σ Hwf.
  - exists σ. split; [done|]. intros l.
    destruct (decide _) as [Hin|]; [by apply elem_of_nil in Hin|done].
  - destruct (command_of h) as [ch|] eqn:Hh.
    + assert (h = configs.Hook_CommandHook ch) as ->
        by (destruct h; simplify_eq/=; done).
      change (commands_of (configs.Hook_CommandHook ch :: hooks))
        with (ch :: commands_of hooks) in *.
      destruct (Hwf ch) as [c Hc]; [by left|].
      cbn [configs.SetDefaultEnv]. rewrite (setDefaultEnv_command _ _ _ _ Hc).
      cbn [mbind option_bind].
      destruct (IH (<[ch := defaulted env c]> σ)) as (σ' & Hσ' & Hl).
      { intros l Hin. rewrite lookup_insert. destruct (decide _); [done|].
        apply Hwf. by right. }
      exists σ'. split; [done|]. intros l. rewrite Hl, lookup_insert.
      destruct (decide (ch = l)) as [->|Hne];
        destruct (decide (l ∈ commands_of hooks)) as [Hin|Hnin];
        destruct (decide (l ∈ _ :: commands_of hooks)) as [Hin'|Hnin'];
        rewrite ?Hc; simpl; rewrite ?defaulted_idemp; try done.
      * destruct Hnin'. by left.
      * destruct Hnin'. by left.
      * destruct Hnin'. by right.
      * by apply elem_of_cons in Hin' as [->|?].
    + assert (Hcons : commands_of (h :: hooks) = commands_of hooks)
        by (unfold commands_of; simpl; by rewrite Hh).
      rewrite Hcons in *. cbn [configs.SetDefaultEnv].
      rewrite setDefaultEnv_other by done. cbn [mbind option_bind].
      by apply IH.
Qed.

(** Claim C10, amended. For a list whose command hooks all hold a command,
    [SetDefaultEnv] returns, and afterwards the commands of the command
    hooks of the list that had no environment, one of length 0, nil or
    empty, have the given one, with every other field as before; the
    commands that had an environment are as before; so is every command no
    hook of the list points to, and no command appears or disappears. The
    function hooks, and the list itself, are not written to. *)
Theorem SetDefaultEnv_frame (hooks : list Hook) (env : option (list string))
    (σ : gmap configs.loc configs.Command) :
  (∀ ch, configs.Hook_CommandHook ch ∈ hooks → is_Some (σ !! ch)) →
  ∃ σ', configs.SetDefaultEnv hooks env σ = Some σ'
    ∧ (∀ ch c, configs.Hook_CommandHook ch ∈ hooks → σ !! ch = Some c →
         configs.len (configs.Env c) = 0 →
         σ' !! ch = Some {| configs.Path := configs.Path c;
                            configs.Args := configs.Args c;
                            configs.Env := env;
                            configs.Dir := configs.Dir c;
                            configs.Timeout := configs.Timeout c |})
    ∧ (∀ ch c, configs.Hook_CommandHook ch ∈ hooks → σ !! ch = Some c →
         configs.len (configs.Env c) ≠ 0 → σ' !! ch = Some c)
    ∧ (∀ l, configs.Hook_CommandHook l ∉ hooks → σ' !! l = σ !! l)
    ∧ dom σ' = dom σ.
Proof.
  intros Hwf.
  assert (Hin : ∀ ch, ch ∈ commands_of hooks ↔ configs.Hook_CommandHook ch ∈ hooks).
  { intros ch. unfold commands_of. rewrite list_elem_of_omap. split.
    - intros (h & Hh & Hch). by destruct h; simplify_eq/=.
    - intros Hh. by exists (configs.Hook_CommandHook ch). }
  destruct (SetDefaultEnv_lookup hooks env σ) as (σ' & Hσ' & Hl).
  { intros ch ?. by apply Hwf, Hin. }
  exists σ'. split_and!; [done|..].
  - intros ch c Hch Hc Henv. rewrite Hl, decide_True, Hc by by apply Hin.
    simpl. unfold defaulted. by rewrite Henv.
  - intros ch c Hch Hc Henv. rewrite Hl, decide_True, Hc by by apply Hin.
    simpl. unfold defaulted. by destruct (Z.eqb_spec (configs.len (configs.Env c)) 0).
  - intros l Hnl. rewrite Hl, decide_False; [done|]. by rewrite Hin.
  - apply set_eq. intros l. rewrite !elem_of_dom, Hl.
    destruct (decide _); [|done]. by rewrite fmap_is_Some.
Qed.

End SetDefaultEnv.

Section SetDefaultEnv_example.

Lemma SetDefaultEnv_frame_witness :
  ∃ σ', configs.SetDefaultEnv two_hooks (Some ["PATH=/bin"]) two_commands = Some σ'
    ∧ σ' !! 1%positive = Some (configs.setEnv echo (Some ["PATH=/bin"]))
    ∧ σ' !! 2%positive = Some ls.
Proof.
  assert (Hwf : ∀ ch, configs.Hook_CommandHook ch ∈ two_hooks →
                      is_Some (two_commands !! ch)).
  { intros ch Hch. unfold two_hooks in Hch.
    repeat (apply elem_of_cons in Hch as [Hch|Hch]; simplify_eq);
      [by eexists..|by apply elem_of_nil in Hch]. }
  destruct (SetDefaultEnv_frame two_hooks (Some ["PATH=/bin"]) two_commands Hwf)
    as (σ' & Hσ' & Hset & Hkeep & _).
  exists σ'. split_and!; [done| |].
  - apply (Hset 1%positive echo); [by left|done|done].
  - apply (Hkeep 2%positive ls); [by right; right; left|done|done].
Defined.

Example SetDefaultEnv_two :
  configs.SetDefaultEnv two_hooks (Some ["PATH=/bin"]) two_commands =
    Some (<[1%positive := configs.setEnv echo (Some ["PATH=/bin"])]> two_commands).
Proof. reflexivity. Qed.

(** Claim C10 as stated fails on a list with a command hook that holds no
    command, here the one of address 3 beside two hooks that hold one:
    reading its environment panics, and the call returns nothing. *)
Lemma SetDefaultEnv_nil_command :
  configs.SetDefaultEnv
    ((two_hooks ++ [configs.Hook_CommandHook 3%positive])%list
       : list (configs.Hook unit unit configs.loc))
    (Some ["PATH=/bin"]) two_commands = None.
Proof. reflexivity. Qed.

(** The empty slice is not the nil slice: given the empty one, a command
    without environment gets it, and then has an environment that is not
    nil. *)
Example SetDefaultEnv_empty_not_nil :
  configs.SetDefaultEnv two_hooks (Some []) two_commands =
    Some (<[1%positive := configs.setEnv echo (Some [])]> two_commands)
  ∧ configs.Env (configs.setEnv echo (Some [])) ≠ configs.Env echo.
Proof. split; [reflexivity|done]. Qed.

End SetDefaultEnv_example.

(** ** Command runner *)

Section Command_Run.
Context {State bytes : Type}.
Variable json_Marshal : State → bytes * option error.

Local Abbreviation Command_Run := (configs.Command_Run json_Marshal).

(** Claim C3. For a command whose process is started, the state having
    been encoded: without a timeout the method makes no timer and kills
    nothing, it receives the exit and returns its error, or blocks as long
    as the process runs. With a timeout it makes a timer; when it receives
    the exit first it returns the error of the exit and stops the timer,
    without a kill; when the timer comes first, because the process has not
    exited or because the select takes the timer, it kills the process,
    then receives the exit, and only then stops the timer and returns the
    error of the timeout, on the configured duration; as long as that exit
    does not come it does not return. The error of an exit is none for an
    exit without error, and else wraps the error of the exit with the text
    of the two buffers. In no case does the method return, once the process
    is started, without having received the exit, and it never panics. *)
Theorem Command_Run_race (c : configs.Command) (s : State) (o : configs.outside)
    (b : bytes) :
  json_Marshal s = (b, None) → configs.Start_error o = None →
  (configs.Timeout c = None →
     (∀ e, configs.exit_alone o = Some e →
        Command_Run c s o =
          ([configs.call_Start (Cmd_of c b); configs.recv_errC],
           configs.Returns (exit_error e)))
     ∧ (configs.exit_alone o = None →
          Command_Run c s o = ([configs.call_Start (Cmd_of c b)], configs.Blocks)))
  ∧ (∀ d, configs.Timeout c = Some d →
       (∀ e, configs.exit_alone o = Some e → configs.exit_first o = true →
          Command_Run c s o =
            ([configs.call_Start (Cmd_of c b); configs.call_NewTimer d;
              configs.recv_errC; configs.call_Stop],
             configs.Returns (exit_error e)))
       ∧ (configs.exit_alone o = None ∨ configs.exit_first o = false →
            (∀ e, configs.exit_after_Kill o = Some e →
               Command_Run c s o =
                 ([configs.call_Start (Cmd_of c b); configs.call_NewTimer d;
                   configs.call_Kill; configs.recv_errC; configs.call_Stop],
                  configs.Returns (Some (timeout_error d))))
            ∧ (configs.exit_after_Kill o = None →
                 Command_Run c s o =
                   ([configs.call_Start (Cmd_of c b); configs.call_NewTimer d;
                     configs.call_Kill],
                    configs.Blocks))))
  ∧ (∀ e, (configs.Wait_error e = None → exit_error e = None)
        ∧ ∀ err, configs.Wait_error e = Some err →
            exit_error e =
              Some (Errorf "%w, stdout: %s, stderr: %s"
                      [op_w err; op_s (configs.stdout e); op_s (configs.stderr e)])
            ∧ Unwrap (Errorf "%w, stdout: %s, stderr: %s"
                        [op_w err; op_s (configs.stdout e); op_s (configs.stderr e)])
              = Some err)
  ∧ (∀ tr r, Command_Run c s o = (tr, r) →
       r ≠ configs.Panics
       ∧ (∀ err, r = configs.Returns err → configs.recv_errC ∈ tr)
       ∧ (configs.call_Kill ∈ tr → ∃ d, configs.Timeout c = Some d)).
Proof.
  intros Hb Hstart. unfold configs.Command_Run, exit_error, timeout_error, Cmd_of.
  rewrite Hb, Hstart. split_and!.
  - intros ->. split.
    + intros e ->. simpl. unfold configs.annotate. by destruct (configs.Wait_error e).
    + by intros ->.
  - intros d ->. split.
    + intros e -> ->. simpl. unfold configs.annotate. by destruct (configs.Wait_error e).
    + intros Hfirst. split.
      * intros e ->. destruct Hfirst as [->| ->]; [done|].
        by destruct (configs.exit_alone o).
      * intros ->. destruct Hfirst as [->| ->]; [done|].
        by destruct (configs.exit_alone o).
  - intros e. split; [by intros ->|]. by intros err ->.
  - intros tr r.
    destruct (configs.Timeout c) as [d|], (configs.exit_alone o) as [e|],
      (configs.exit_first o), (configs.exit_after_Kill o) as [e'|];
      simpl; intros [= <- <-]; (split_and!; [done| |]);
      try (intros err [= <-]); try (intros Hin);
      repeat (apply elem_of_cons in Hin as [Hin|Hin]; try discriminate Hin);
      try (by apply elem_of_nil in Hin); try (by eexists);
      try (by repeat (first [left; reflexivity|right])).
Qed.

End Command_Run.

Section Command_Run_examples.

Lemma Command_Run_race_witness :
  configs.Command_Run Marshal_state ls tt (process None false) =
    ([configs.call_Start (Cmd_of ls "{}"); configs.call_NewTimer 1000000000;
      configs.call_Kill; configs.recv_errC; configs.call_Stop],
     configs.Returns
       (Some (Errorf "hook ran past specified timeout of %.1fs"
                [op_seconds 1000000000]))).
Proof.
  exact (proj1 (proj2 (proj1 (proj2
           (Command_Run_race Marshal_state ls tt (process None false) "{}"
              eq_refl eq_refl)) 1000000000 eq_refl) (or_introl eq_refl))
           killed eq_refl).
Defined.

(** The process exits first, with an error: the error comes back with the
    text of the two buffers, and the timer is stopped. *)
Example Command_Run_exit_first :
  configs.Command_Run Marshal_state ls tt (process (Some failed) true) =
    ([configs.call_Start (Cmd_of ls "{}"); configs.call_NewTimer 1000000000;
      configs.recv_errC; configs.call_Stop],
     configs.Returns
       (Some (Errorf "%w, stdout: %s, stderr: %s"
                [op_w (New "exit status 1"); op_s "out"; op_s "err"]))).
Proof. reflexivity. Qed.

(** Without a timeout, a process that does not exit blocks the call. *)
Example Command_Run_no_timeout :
  configs.Command_Run Marshal_state echo tt (process None false) =
    ([configs.call_Start (Cmd_of echo "{}")], configs.Blocks).
Proof. reflexivity. Qed.

End Command_Run_examples.

(** * Further properties *)

(** ** The texts the CPU set builder takes *)

Section toCPUSet_grammar.
Import strings strconv unix configs.

Lemma toInt_cpu_numeral v a : toInt v = (a, None) ↔ cpu_numeral v a.
Proof.
  unfold cpu_numeral. split.
  - intros (? & ? & -> & ?)%toInt_ok_inv. split_and!; auto; lia.
  - intros (Hne & Hv & <- & Ha). rewrite toInt_digits by done.
    by destruct (Z.ltb_spec (numeral v 0) maxCPU); [|lia].
Qed.

Lemma cpu_numeral_fun v a b : cpu_numeral v a → cpu_numeral v b → a = b.
Proof. intros (_ & _ & <- & _) (_ & _ & <- & _). done. Qed.

Lemma cpu_numeral_range v a : cpu_numeral v a → 0 ≤ a < _CPU_SETSIZE.
Proof.
  intros (_ & Hv & <- & Ha). pose proof (numeral_le v 0 Hv ltac:(lia)).
  change maxCPU with _CPU_SETSIZE in Ha. lia.
Qed.

Lemma Cut_found_inv s sep before after :
  Cut s sep = (before, after, true) →
  s = before ++ String sep after
  ∧ all_bytes (λ c, negb (byte_eqb c sep)) before = true.
Proof.
  revert before; induction s as [|c s IH]; intros before; simpl; [done|].
  unfold byte_eqb in *. destruct (Ascii.eqb_spec c sep) as [->|Hne].
  - by intros [= <- <-].
  - destruct (Cut s sep) as [[b a] f]. intros [= <- <- ->].
    destruct (IH b eq_refl) as [-> Hb]. split; [done|]. simpl.
    rewrite Hb. by destruct (Ascii.eqb_spec c sep).
Qed.

Lemma Cut_not_found_inv s sep before after :
  Cut s sep = (before, after, false) →
  all_bytes (λ c, negb (byte_eqb c sep)) s = true.
Proof.
  revert before; induction s as [|c s IH]; intros before; simpl; [done|].
  unfold byte_eqb in *. destruct (Ascii.eqb_spec c sep) as [->|Hne]; [done|].
  destruct (Cut s sep) as [[b a] f]. intros [= <- <- ->]. simpl. by eapply IH.
Qed.

Lemma range_text_hyphen v w :
  all_bytes (λ c, negb (byte_eqb c "-")) (range_text v w) = false.
Proof.
  unfold range_text. rewrite all_bytes_app. simpl.
  by rewrite andb_false_r.
Qed.

Lemma cpu_numeral_no_hyphen v a :
  cpu_numeral v a → all_bytes (λ c, negb (byte_eqb c "-")) v = true.
Proof. intros (_ & Hv & _). by apply digits_no_byte. Qed.

(** The start and the end of a range text are what [Cut] finds. *)
Lemma range_text_inj v w a v' w' :
  cpu_numeral v a → range_text v w = v' ++ String "-" w' →
  all_bytes (λ c, negb (byte_eqb c "-")) v' = true → v = v' ∧ w = w'.
Proof.
  intros Hv Heq Hv'.
  pose proof (Cut_app v "-" w (cpu_numeral_no_hyphen _ _ Hv)) as H1.
  pose proof (Cut_app v' "-" w' Hv') as H2.
  unfold range_text in Heq. rewrite Heq, H2 in H1. by simplify_eq.
Qed.

(** What a segment does, by the shape of its text. *)
Lemma segment_cases s r :
  (TrimSpace r = EmptyString ∧ segment s r = inl s)
  ∨ (∃ a, cpu_numeral (TrimSpace r) a ∧ segment s r = inl (CPUSet_Set s a))
  ∨ (∃ v w a b, TrimSpace r = range_text v w ∧ cpu_numeral v a ∧ cpu_numeral w b
       ∧ a ≤ b ∧ segment s r = inl (setRange s a b))
  ∨ (¬ segment_text (TrimSpace r) ∧ ∃ err, segment s r = inr err).
Proof.
  destruct (decide (TrimSpace r = EmptyString)) as [Hr|Hr];
    [left; split; [done|by apply segment_blank]|].
  right. unfold segment. cbn zeta. rewrite eqb_empty_false by done.
  destruct (Cut (TrimSpace r) "-") as [[r0 r1] [|]] eqn:Hcut.
  - apply Cut_found_inv in Hcut as [Ht H0]. right.
    assert (Hnum : ∀ a, ¬ cpu_numeral (TrimSpace r) a).
    { intros a Ha%cpu_numeral_no_hyphen.
      rewrite Ht in Ha. fold (range_text r0 r1) in Ha.
      by rewrite range_text_hyphen in Ha. }
    assert (Hrange : ∀ v w a b, TrimSpace r = range_text v w →
              cpu_numeral v a → cpu_numeral w b → v = r0 ∧ w = r1).
    { intros v w a b Hvw Hv _. rewrite Ht in Hvw.
      by eapply range_text_inj. }
    destruct (toInt r0) as [start [e0|]] eqn:H0'.
    { right. split; [|by eexists]. intros [?|[[a Ha]|(v & w & a & b & Hvw & Hv & Hw & _)]];
        [done|by eapply Hnum|].
      destruct (Hrange _ _ _ _ Hvw Hv Hw) as [-> ->].
      apply toInt_cpu_numeral in Hv. congruence. }
    destruct (toInt r1) as [end_ [e1|]] eqn:H1'.
    { right. split; [|by eexists]. intros [?|[[a Ha]|(v & w & a & b & Hvw & Hv & Hw & _)]];
        [done|by eapply Hnum|].
      destruct (Hrange _ _ _ _ Hvw Hv Hw) as [-> ->].
      apply toInt_cpu_numeral in Hw. congruence. }
    apply toInt_cpu_numeral in H0', H1'.
    destruct (Z.gtb_spec start end_).
    + right. split; [|by eexists].
      intros [?|[[a Ha]|(v & w & a & b & Hvw & Hv & Hw & Hab)]];
        [done|by eapply Hnum|].
      destruct (Hrange _ _ _ _ Hvw Hv Hw) as [-> ->].
      pose proof (cpu_numeral_fun _ _ _ Hv H0'). pose proof (cpu_numeral_fun _ _ _ Hw H1').
      lia.
    + left. exists r0, r1, start, end_. by rewrite Ht.
  - apply Cut_not_found_inv in Hcut.
    destruct (toInt (TrimSpace r)) as [val [e|]] eqn:Hval.
    + right. right. split; [|by eexists].
      intros [?|[[a Ha]|(v & w & a & b & Hvw & Hv & Hw & _)]]; [done| |].
      * apply toInt_cpu_numeral in Ha. congruence.
      * rewrite Hvw in Hcut. by rewrite range_text_hyphen in Hcut.
    + left. exists val. split; [by apply toInt_cpu_numeral|done].
Qed.

Lemma segment_accepts s r :
  (∃ s', segment s r = inl s') ↔ segment_text (TrimSpace r).
Proof.
  destruct (segment_cases s r)
    as [[Hr Hs]|[(a & Ha & Hs)|[(v & w & a & b & Hr & Hv & Hw & Hab & Hs)|[Hn [err Hs]]]]].
  - split; [by left|by eexists].
  - split; [right; left; by eexists|by eexists].
  - split; [right; right; by eexists _, _, _, _|by eexists].
  - split; [|done]. intros [s' Hs']. congruence.
Qed.

Lemma covers_blank r j : TrimSpace r = EmptyString → ¬ covers r j.
Proof.
  intros Hr [(Hne & _)|(v & w & a & b & Hvw & _)]; [done|].
  rewrite Hr in Hvw. symmetry in Hvw. by apply range_text_ne in Hvw.
Qed.

Lemma covers_numeral r a j : cpu_numeral (TrimSpace r) a → covers r j ↔ j = a.
Proof.
  intros Ha. split.
  - intros [Hj|(v & w & a' & b & Hvw & _)]; [by eapply cpu_numeral_fun|].
    apply cpu_numeral_no_hyphen in Ha. rewrite Hvw in Ha.
    by rewrite range_text_hyphen in Ha.
  - intros ->. by left.
Qed.

Lemma covers_range r v w a b j :
  TrimSpace r = range_text v w → cpu_numeral v a → cpu_numeral w b →
  covers r j ↔ a ≤ j ≤ b.
Proof.
  intros Hr Hv Hw. split.
  - intros [Hj|(v' & w' & a' & b' & Hvw & Hv' & Hw' & Hj)].
    + apply cpu_numeral_no_hyphen in Hj. rewrite Hr in Hj.
      by rewrite range_text_hyphen in Hj.
    + rewrite Hr in Hvw.
      destruct (range_text_inj v w a v' w' Hv Hvw) as [<- <-];
        [by eapply cpu_numeral_no_hyphen|].
      by rewrite (cpu_numeral_fun _ _ _ Hv Hv'), (cpu_numeral_fun _ _ _ Hw Hw').
  - intros Hj. right. by eexists _, _, _, _.
Qed.

(** The bits after a segment: those before, and those the segment names. *)
Lemma segment_bits s r s' j :
  CPUSet_wf s → segment s r = inl s' → 0 ≤ j →
  CPUSet_IsSet s' j = true ↔ CPUSet_IsSet s j = true ∨ covers r j.
Proof.
  intros Hs Hr Hj. destruct (segment_cases s r)
    as [[Ht Hs']|[(a & Ha & Hs')|[(v & w & a & b & Ht & Hv & Hw & Hab & Hs')|[_ [err Hs']]]]];
    [| | |congruence]; rewrite Hs' in Hr; simplify_eq.
  - pose proof (covers_blank r j Ht). tauto.
  - pose proof (cpu_numeral_range _ _ Ha).
    rewrite CPUSet_IsSet_Set, (covers_numeral r a j Ha) by done.
    rewrite orb_true_iff, Z.eqb_eq. split; intros [?|?]; auto.
  - pose proof (cpu_numeral_range _ _ Hv). pose proof (cpu_numeral_range _ _ Hw).
    rewrite CPUSet_IsSet_setRange, (covers_range r v w a b j Ht Hv Hw) by (done || lia).
    rewrite orb_true_iff, andb_true_iff, !Z.leb_le. tauto.
Qed.

Lemma segments_accepts rs s :
  (∃ s', segments rs s = inl s') ↔ Forall (λ r, segment_text (TrimSpace r)) rs.
Proof.
  revert s; induction rs as [|r rs IH]; intros s; simpl.
  - split; [constructor|by eexists].
  - rewrite Forall_cons, <-(segment_accepts s r). split.
    + intros [s' Hs']. destruct (segment s r) as [s1|] eqn:Hr; [|done].
      split; [by eexists|]. apply (IH s1). by eexists.
    + intros [[s1 Hr] Hrs]. rewrite Hr. by apply IH.
Qed.

Lemma segments_bits rs s s' j :
  CPUSet_wf s → segments rs s = inl s' → 0 ≤ j →
  CPUSet_IsSet s' j = true ↔ CPUSet_IsSet s j = true ∨ ∃ r, r ∈ rs ∧ covers r j.
Proof.
  intros Hs Hrs Hj. revert s Hs Hrs; induction rs as [|r rs IH]; intros s Hs; simpl.
  - intros [= <-]. split; [by left|]. intros [?|(r & Hr%elem_of_nil & _)]; done.
  - destruct (segment s r) as [s1|] eqn:Hr; [|done]. intros Hrs.
    rewrite (IH s1), (segment_bits s r s1 j) by (done || by eapply segment_wf).
    split.
    + intros [[?|?]|(r' & ? & ?)]; [by left| |].
      * right. exists r. split; [by left|done].
      * right. exists r'. split; [by right|done].
    + intros [?|(r' & [->|?]%elem_of_cons & ?)]; [by left;left|by left; right|].
      right. by exists r'.
Qed.

End toCPUSet_grammar.

(** X1. [toCPUSet] returns a set exactly for the strings whose segments,
    trimmed, are each nothing, a CPU number below [maxCPU] in decimal digits,
    or two such numbers in order around a hyphen, and are not all nothing. *)
Theorem toCPUSet_accepts (str : string) :
  (∃ s, configs.toCPUSet str = (Some s, None)) ↔
  Forall (λ r, segment_text (strings.TrimSpace r)) (strings.Split str ",")
  ∧ Exists (λ r, strings.TrimSpace r ≠ EmptyString) (strings.Split str ",").
Proof.
  split.
  - intros [s Hs]. assert (Hne : str ≠ EmptyString) by (by intros ->).
    rewrite toCPUSet_nonempty in Hs by done.
    destruct (configs.segments _ _) as [s'|] eqn:Hseg; [|done].
    destruct (Z.eqb_spec (unix.CPUSet_Count s') 0) as [|Hc]; [done|].
    split; [apply (segments_accepts _ unix.CPUSet_new); by eexists|].
    destruct (decide (Forall (λ r, strings.TrimSpace r = EmptyString)
                        (strings.Split str ","))) as [Hall|Hnot].
    + rewrite segments_blank in Hseg by done. by simplify_eq.
    + apply not_Forall_Exists in Hnot; [|apply _].
      eapply Exists_impl; [exact Hnot|]. by intros r Hr.
  - intros [Hall Hex].
    apply (segments_accepts _ unix.CPUSet_new) in Hall as [s Hs].
    assert (Hne : str ≠ EmptyString).
    { intros ->. simpl in Hex. by apply Exists_cons in Hex as [?|?%Exists_nil]. }
    exists s. rewrite toCPUSet_nonempty, Hs by done.
    destruct (Z.eqb_spec (unix.CPUSet_Count s) 0) as [Hc|]; [|done].
    eapply segments_empty in Hc; [|apply CPUSet_new_wf|done].
    apply Exists_exists in Hex as (r & Hr & Hnb).
    by rewrite Forall_forall in Hc; specialize (Hc r Hr).
Qed.

(** X2. In the set [toCPUSet] returns, the bit of a CPU is set exactly when
    a segment of the string names the CPU: as its number, or inside its
    range. *)
Theorem toCPUSet_bits (str : string) (s : list Z) (j : Z) :
  configs.toCPUSet str = (Some s, None) → 0 ≤ j →
  unix.CPUSet_IsSet s j = true ↔ ∃ r, r ∈ strings.Split str "," ∧ covers r j.
Proof.
  intros Hs Hj. assert (Hne : str ≠ EmptyString) by (by intros ->).
  rewrite toCPUSet_nonempty in Hs by done.
  destruct (configs.segments _ _) as [s'|] eqn:Hseg; [|done].
  destruct (_ =? _); simplify_eq.
  rewrite (segments_bits _ _ _ _ CPUSet_new_wf Hseg Hj), CPUSet_IsSet_new.
  split; [by intros [?|?]|by right].
Qed.

(** ** The words of a CPU set *)

Section CPUSet_words.
Import unix.

Lemma word_ok_high w n : word_ok w → 64 ≤ n → Z.testbit w n = false.
Proof.
  intros Hw Hn. rewrite <-(Z.mod_small w (2 ^ 64)) by done.
  apply Z.mod_pow2_bits_high. lia.
Qed.

Lemma word_ok_bits w : 0 ≤ w → (∀ n, 64 ≤ n → Z.testbit w n = false) → word_ok w.
Proof.
  intros Hw Hhigh. assert (Heq : w mod 2 ^ 64 = w).
  { apply Z.bits_inj'. intros n Hn. destruct (Z.lt_ge_cases n 64).
    - by rewrite Z.mod_pow2_bits_low.
    - rewrite Z.mod_pow2_bits_high, Hhigh by lia. done. }
  rewrite <-Heq. apply Z.mod_pos_bound. lia.
Qed.

Lemma word_ok_lor_mask w cpu : word_ok w → word_ok (Z.lor w (cpuBitsMask cpu)).
Proof.
  intros Hw. unfold cpuBitsMask, _NCPUBITS.
  assert (Hk : 0 ≤ cpu mod 64 < 64) by (apply Z.mod_pos_bound; lia).
  rewrite Z.shiftl_1_l. apply word_ok_bits.
  - apply Z.lor_nonneg. split; [apply Hw|]. apply Z.pow_nonneg. lia.
  - intros n Hn. rewrite Z.lor_spec, (word_ok_high w n), Z.pow2_bits_eqb by (done || lia).
    simpl. apply Z.eqb_neq. lia.
Qed.

Lemma CPUSet_new_words : CPUSet_words CPUSet_new.
Proof. apply Forall_replicate. unfold word_ok. lia. Qed.

Lemma CPUSet_Set_words s cpu : CPUSet_words s → CPUSet_words (CPUSet_Set s cpu).
Proof.
  unfold CPUSet_words, CPUSet_Set. cbn zeta. intros Hs.
  destruct (Z.ltb_spec (cpuBitsIndex cpu) (Z.of_nat (length s))) as [Hlt|]; [|done].
  apply Forall_insert; [done|]. apply word_ok_lor_mask.
  destruct (Z.le_gt_cases 0 (cpuBitsIndex cpu)).
  - apply Forall_lookup_total_1; [done|].
    apply Nat2Z.inj_lt. by rewrite Z2Nat.id.
  - replace (Z.to_nat (cpuBitsIndex cpu)) with 0%nat by lia.
    destruct Hs as [|w s Hw _]; [|done]. unfold word_ok. simpl. lia.
Qed.

Lemma setRange_words s start end_ : CPUSet_words s → CPUSet_words (configs.setRange s start end_).
Proof.
  unfold configs.setRange. generalize (seqZ start (end_ - start + 1)); intros l.
  revert s; induction l as [|i l IH]; intros s Hs; simpl; [done|].
  by apply IH, CPUSet_Set_words.
Qed.

Lemma segment_words s r s' : CPUSet_words s → configs.segment s r = inl s' → CPUSet_words s'.
Proof.
  intros Hs Hr. destruct (segment_cases s r)
    as [[_ Hs']|[(a & _ & Hs')|[(v & w & a & b & _ & _ & _ & _ & Hs')|[_ [err Hs']]]]];
    rewrite Hs' in Hr; simplify_eq;
    [done|by apply CPUSet_Set_words|by apply setRange_words].
Qed.

Lemma segments_words rs s s' : CPUSet_words s → configs.segments rs s = inl s' → CPUSet_words s'.
Proof.
  revert s; induction rs as [|r rs IH]; intros s Hs; simpl; [by intros [= <-]|].
  destruct (configs.segment s r) as [s1|] eqn:Hr; [|done].
  apply IH. by eapply segment_words.
Qed.

(** Two CPU sets with the same bits are one. *)
Lemma CPUSet_ext s1 s2 :
  CPUSet_wf s1 → CPUSet_wf s2 → CPUSet_words s1 → CPUSet_words s2 →
  (∀ j, 0 ≤ j → CPUSet_IsSet s1 j = CPUSet_IsSet s2 j) → s1 = s2.
Proof.
  unfold CPUSet_wf. change (Z.to_nat cpuSetSize) with 16%nat.
  intros Hl1 Hl2 Hw1 Hw2 Hbits.
  apply (list_eq_same_length _ _ 16); [done..|]. intros i x y Hi Hx Hy.
  pose proof (Forall_lookup_1 _ _ _ _ Hw1 Hx) as Hxw.
  pose proof (Forall_lookup_1 _ _ _ _ Hw2 Hy) as Hyw.
  apply Z.bits_inj'. intros n Hn. destruct (Z.lt_ge_cases n 64) as [Hlt|Hge].
  - specialize (Hbits (Z.of_nat i * 64 + n) ltac:(lia)).
    rewrite !CPUSet_IsSet_testbit in Hbits by lia.
    rewrite Z.div_add_l, Z.div_small, Z.add_0_r in Hbits by lia.
    rewrite Z.add_comm, Z.mod_add, Z.mod_small in Hbits by lia.
    rewrite Hl1, Hl2, Nat2Z.id in Hbits.
    destruct (Z.ltb_spec (Z.of_nat i) (Z.of_nat 16)); [|lia].
    by rewrite (list_lookup_total_correct _ _ _ Hx),
      (list_lookup_total_correct _ _ _ Hy) in Hbits.
  - by rewrite !word_ok_high.
Qed.

(** A bit that is set is the bit of a CPU below the size of the set. *)
Lemma CPUSet_IsSet_lt s j :
  CPUSet_wf s → 0 ≤ j → CPUSet_IsSet s j = true → j < _CPU_SETSIZE.
Proof.
  unfold CPUSet_wf. change (Z.to_nat cpuSetSize) with 16%nat. intros Hs Hj.
  rewrite CPUSet_IsSet_testbit, Hs by done.
  destruct (Z.ltb_spec (j / 64) (Z.of_nat 16)) as [Hlt|]; [|done]. intros _.
  unfold _CPU_SETSIZE. pose proof (Z.div_mod j 64 ltac:(lia)).
  pose proof (Z.mod_pos_bound j 64 ltac:(lia)). lia.
Qed.

End CPUSet_words.

(** ** The count of a CPU set *)

Section CPUSet_Count.
Import unix.

Lemma bit_count_app f l1 l2 : bit_count f (l1 ++ l2) = bit_count f l1 + bit_count f l2.
Proof.
  unfold bit_count. induction l1 as [|j l1 IH]; simpl; [done|]. rewrite IH. lia.
Qed.

Lemma bit_count_ext f g l : (∀ j, j ∈ l → f j = g j) → bit_count f l = bit_count g l.
Proof.
  unfold bit_count. induction l as [|j l IH]; intros Hfg; simpl; [done|].
  rewrite (Hfg j), IH; [done| |by left]. intros j' ?. apply Hfg. by right.
Qed.

Lemma bit_count_fmap f (g : Z → Z) l : bit_count f (g <$> l) = bit_count (f ∘ g) l.
Proof. unfold bit_count. induction l as [|j l IH]; csimpl; [done|]. by rewrite IH. Qed.

Lemma bit_count_bounds f l : 0 ≤ bit_count f l ≤ Z.of_nat (length l).
Proof.
  unfold bit_count. induction l as [|j l IH]; simpl; [lia|].
  destruct (f j); simpl; lia.
Qed.

Lemma bit_count_false f l : (∀ j, j ∈ l → f j = false) → bit_count f l = 0.
Proof.
  unfold bit_count. induction l as [|j l IH]; intros Hf; simpl; [done|].
  rewrite (Hf j), IH; [done| |by left]. intros j' ?. apply Hf. by right.
Qed.

Lemma bit_count_true f l : (∀ j, j ∈ l → f j = true) → bit_count f l = Z.of_nat (length l).
Proof.
  unfold bit_count. induction l as [|j l IH]; intros Hf; simpl length; [done|].
  simpl. rewrite (Hf j), IH; [simpl; lia| |by left]. intros j' ?. apply Hf. by right.
Qed.

Lemma OnesCount64_bit_count x : OnesCount64 x = bit_count (Z.testbit x) (seqZ 0 64).
Proof. reflexivity. Qed.

Lemma CPUSet_Count_cons w s : CPUSet_Count (w :: s) = OnesCount64 w + CPUSet_Count s.
Proof. unfold CPUSet_Count at 1. simpl. by rewrite CPUSet_Count_foldl. Qed.

Lemma CPUSet_IsSet_cons_low w s j :
  0 ≤ j < 64 → CPUSet_IsSet (w :: s) j = Z.testbit w j.
Proof.
  intros Hj. rewrite CPUSet_IsSet_testbit by lia.
  rewrite Z.div_small, Z.mod_small by lia. simpl length.
  destruct (Z.ltb_spec 0 (Z.of_nat (S (length s)))); [done|lia].
Qed.

Lemma CPUSet_IsSet_cons_high w s j :
  0 ≤ j → CPUSet_IsSet (w :: s) (64 + j) = CPUSet_IsSet s j.
Proof.
  intros Hj. rewrite !CPUSet_IsSet_testbit by lia.
  replace (64 + j) with (j + 1 * 64) by lia.
  rewrite Z.div_add, Z.mod_add by lia.
  assert (0 ≤ j / 64) by (apply Z.div_pos; lia).
  replace (Z.to_nat (j / 64 + 1)) with (S (Z.to_nat (j / 64))) by lia.
  simpl length. simpl lookup_total.
  destruct (Z.ltb_spec (j / 64 + 1) (Z.of_nat (S (length s)))),
    (Z.ltb_spec (j / 64) (Z.of_nat (length s))); try lia; done.
Qed.

(** The count of a set is the number of its bits that are set. *)
Lemma CPUSet_Count_bits s :
  CPUSet_Count s = bit_count (CPUSet_IsSet s) (seqZ 0 (64 * Z.of_nat (length s))).
Proof.
  induction s as [|w s IH]; [done|].
  rewrite CPUSet_Count_cons, IH, OnesCount64_bit_count.
  replace (64 * Z.of_nat (length (w :: s))) with (64 + 64 * Z.of_nat (length s))
    by (simpl length; lia).
  rewrite seqZ_app, bit_count_app by lia. f_equal.
  - apply bit_count_ext. intros j Hj%elem_of_seqZ.
    by rewrite CPUSet_IsSet_cons_low by lia.
  - rewrite <-(fmap_add_seqZ 64 0), bit_count_fmap.
    apply bit_count_ext. intros j Hj%elem_of_seqZ. simpl.
    by rewrite CPUSet_IsSet_cons_high by lia.
Qed.

Lemma bit_count_interval a b n :
  0 ≤ a → a ≤ b → b < n →
  bit_count (λ j, (a <=? j) && (j <=? b)) (seqZ 0 n) = b - a + 1.
Proof.
  intros Ha Hab Hb.
  remember (b - a + 1) as m eqn:Hm. remember (n - b - 1) as k eqn:Hk.
  replace n with (a + (m + k)) by lia.
  rewrite (seqZ_app 0 a), (seqZ_app (0 + a) m), !bit_count_app by lia.
  rewrite (bit_count_false _ (seqZ 0 a)), (bit_count_true _ (seqZ (0 + a) m)),
    (bit_count_false _ (seqZ (0 + a + m) k)).
  - rewrite length_seqZ. lia.
  - intros j Hj%elem_of_seqZ. destruct (Z.leb_spec a j), (Z.leb_spec j b); try done; lia.
  - intros j Hj%elem_of_seqZ. destruct (Z.leb_spec a j), (Z.leb_spec j b); try done; lia.
  - intros j Hj%elem_of_seqZ. destruct (Z.leb_spec a j), (Z.leb_spec j b); try done; lia.
Qed.

End CPUSet_Count.

Section toCPUSet_sets.
Import strings unix configs.

Lemma covers_trimmed r1 r2 j : TrimSpace r1 = TrimSpace r2 → covers r1 j → covers r2 j.
Proof. unfold covers. by intros ->. Qed.

Lemma covers_not_blank r j : covers r j → TrimSpace r ≠ EmptyString.
Proof. intros Hc Hr. by eapply covers_blank. Qed.

(** What [toCPUSet] does on a string that is not empty, in full. *)
Lemma toCPUSet_Some str s :
  toCPUSet str = (Some s, None) ↔
  str ≠ EmptyString ∧ segments (Split str ",") CPUSet_new = inl s ∧ CPUSet_Count s ≠ 0.
Proof.
  split.
  - intros Hs. assert (Hne : str ≠ EmptyString) by (by intros ->).
    rewrite toCPUSet_nonempty in Hs by done.
    destruct (segments _ _) as [s'|]; [|done].
    destruct (Z.eqb_spec (CPUSet_Count s') 0); by simplify_eq.
  - intros (Hne & Hseg & Hc). rewrite toCPUSet_nonempty, Hseg by done.
    by destruct (Z.eqb_spec (CPUSet_Count s) 0).
Qed.

Lemma segments_shape rs s :
  segments rs CPUSet_new = inl s → CPUSet_wf s ∧ CPUSet_words s.
Proof.
  intros Hseg. split.
  - eapply segments_wf; [apply CPUSet_new_wf|done].
  - eapply segments_words; [apply CPUSet_new_words|done].
Qed.

Lemma CPUSet_Count_wf s :
  CPUSet_wf s → CPUSet_Count s = bit_count (CPUSet_IsSet s) (seqZ 0 maxCPU).
Proof.
  unfold CPUSet_wf. change (Z.to_nat cpuSetSize) with 16%nat. intros Hs.
  rewrite CPUSet_Count_bits, Hs. done.
Qed.

End toCPUSet_sets.

(** X3. The set [toCPUSet] returns depends only on which texts occur as
    trimmed segments that are not empty: not on their order, their
    repetition, the white space around them or the empty segments between
    them. *)
Theorem toCPUSet_segment_set (str1 str2 : string) (s : list Z) :
  configs.toCPUSet str1 = (Some s, None) →
  (∀ t, t ≠ EmptyString →
     (∃ r, r ∈ strings.Split str1 "," ∧ strings.TrimSpace r = t) ↔
     (∃ r, r ∈ strings.Split str2 "," ∧ strings.TrimSpace r = t)) →
  configs.toCPUSet str2 = (Some s, None).
Proof.
  intros (Hne1 & Hseg1 & Hc1)%toCPUSet_Some Hsame.
  destruct (segments_shape _ _ Hseg1) as [Hwf1 Hw1].
  assert (Hall1 : Forall (λ r, segment_text (strings.TrimSpace r)) (strings.Split str1 ","))
    by (apply (segments_accepts _ unix.CPUSet_new); by eexists).
  assert (Hall2 : Forall (λ r, segment_text (strings.TrimSpace r)) (strings.Split str2 ",")).
  { apply Forall_forall. intros r Hr.
    destruct (decide (strings.TrimSpace r = EmptyString)) as [Hb|Hb]; [by left|].
    destruct (proj2 (Hsame _ Hb)) as (r1 & Hr1 & Heq); [by eexists|].
    rewrite <-Heq. by apply (proj1 (Forall_forall _ _) Hall1). }
  apply (segments_accepts _ unix.CPUSet_new) in Hall2 as [s2 Hseg2].
  destruct (segments_shape _ _ Hseg2) as [Hwf2 Hw2].
  assert (Hbits : ∀ j, 0 ≤ j → unix.CPUSet_IsSet s2 j = unix.CPUSet_IsSet s j).
  { intros j Hj. apply eq_true_iff_eq.
    rewrite (segments_bits _ _ _ _ CPUSet_new_wf Hseg1 Hj),
      (segments_bits _ _ _ _ CPUSet_new_wf Hseg2 Hj), CPUSet_IsSet_new.
    split; (intros [?|(r & Hr & Hc)]; [done|]); right.
    - destruct (proj2 (Hsame _ (covers_not_blank _ _ Hc))) as (r' & Hr' & Heq);
        [by eexists|].
      exists r'. split; [done|]. by eapply covers_trimmed.
    - destruct (proj1 (Hsame _ (covers_not_blank _ _ Hc))) as (r' & Hr' & Heq);
        [by eexists|].
      exists r'. split; [done|]. by eapply covers_trimmed. }
  assert (s2 = s) as -> by (by apply CPUSet_ext).
  apply toCPUSet_Some. split_and!; [|done..].
  intros ->. destruct (decide (Forall (λ r, strings.TrimSpace r = EmptyString)
                        (strings.Split str1 ","))) as [Hblank|Hnot].
  - rewrite segments_blank in Hseg1 by done. by simplify_eq.
  - apply not_Forall_Exists in Hnot; [|apply _].
    apply Exists_exists in Hnot as (r & Hr & Hb).
    destruct (proj1 (Hsame _ Hb)) as (r' & Hr' & Heq); [by eexists|].
    apply list_elem_of_singleton in Hr' as ->. apply Hb. by rewrite <-Heq.
Qed.

(** X4. A set [toCPUSet] returns has [cpuSetSize] words of 64 bits, has no
    bit set at [maxCPU] or above, and counts as many CPUs as it has bits set,
    one at least and [maxCPU] at most. *)
Theorem toCPUSet_set_shape (str : string) (s : list Z) :
  configs.toCPUSet str = (Some s, None) →
  Z.of_nat (length s) = unix.cpuSetSize
  ∧ Forall word_ok s
  ∧ (∀ j, 0 ≤ j → unix.CPUSet_IsSet s j = true → j < configs.maxCPU)
  ∧ unix.CPUSet_Count s = bit_count (unix.CPUSet_IsSet s) (seqZ 0 configs.maxCPU)
  ∧ 1 ≤ unix.CPUSet_Count s ≤ configs.maxCPU.
Proof.
  intros (Hne & Hseg & Hc)%toCPUSet_Some.
  destruct (segments_shape _ _ Hseg) as [Hwf Hw].
  pose proof (CPUSet_Count_wf s Hwf) as Hcount.
  split_and!; [by rewrite Hwf|done| |done| |].
  - intros j Hj Hset. rewrite maxCPU_eq. by eapply CPUSet_IsSet_lt.
  - pose proof (CPUSet_Count_nonneg s). lia.
  - rewrite Hcount.
    pose proof (bit_count_bounds (unix.CPUSet_IsSet s) (seqZ 0 configs.maxCPU)) as Hb.
    rewrite length_seqZ in Hb. change configs.maxCPU with 1024 in *. lia.
Qed.

(** X5. For a range of two CPU numbers in order, [toCPUSet] returns a set of
    as many CPUs as the range has numbers. *)
Theorem toCPUSet_range_count (v w : string) (a b : Z) :
  cpu_numeral v a → cpu_numeral w b → a ≤ b →
  ∃ s, configs.toCPUSet (range_text v w) = (Some s, None)
     ∧ unix.CPUSet_Count s = b - a + 1.
Proof.
  intros Hv Hw Hab.
  pose proof (cpu_numeral_range _ _ Hv) as Ha. pose proof (cpu_numeral_range _ _ Hw) as Hb.
  apply toInt_cpu_numeral in Hv, Hw.
  eexists. split.
  - rewrite (toCPUSet_range v w a b Hv Hw).
    destruct (Z.gtb_spec a b); [lia|done].
  - rewrite CPUSet_Count_wf by apply setRange_wf, CPUSet_new_wf.
    rewrite <-(bit_count_interval a b configs.maxCPU)
      by (rewrite ?maxCPU_eq; lia).
    apply bit_count_ext. intros j Hj%elem_of_seqZ.
    rewrite CPUSet_IsSet_setRange, CPUSet_IsSet_new by (apply CPUSet_new_wf || lia).
    by rewrite orb_false_r.
Qed.

(** ** The failures of the CPU set builder *)

Section toCPUSet_failures.
Import strings unix configs.

(** The error of a segment does not depend on the set built so far. *)
Lemma segment_inr_any s s' r err : segment s r = inr err → segment s' r = inr err.
Proof.
  unfold segment. cbn zeta. destruct (String.eqb _ _); [done|].
  destruct (Cut _ _) as [[r0 r1] [|]].
  - destruct (toInt r0) as [start [?|]]; [done|].
    destruct (toInt r1) as [end_ [?|]]; [done|].
    by destruct (_ >? _).
  - by destruct (toInt _) as [val [?|]].
Qed.

(** A loop that fails has a first segment that fails. *)
Lemma segments_inr_split rs s err :
  segments rs s = inr err →
  ∃ pre r post s', rs = (pre ++ r :: post)%list
    ∧ segments pre s = inl s' ∧ segment s' r = inr err.
Proof.
  revert s; induction rs as [|r rs IH]; intros s; simpl; [done|].
  destruct (segment s r) as [s1|e1] eqn:Hr.
  - intros (pre & r' & post & s' & -> & Hpre & Hr')%IH.
    exists (r :: pre), r', post, s'. split_and!; [done| |done]. simpl. by rewrite Hr.
  - intros [= <-]. by exists [], r, rs, s.
Qed.

End toCPUSet_failures.

(** X19. [toCPUSet] fails in two ways only. Either the string is not empty
    and every segment is blank, and the error is that of no CPUs found, on
    the string; or some segment is not one it takes while those before it
    are, and the error is that of this segment, whatever the segments before
    it have set and whatever follows. *)
Theorem toCPUSet_fails (str : string) (err : error) :
  configs.toCPUSet str = (None, Some err) ↔
  (str ≠ EmptyString
   ∧ Forall (λ r, strings.TrimSpace r = EmptyString) (strings.Split str ",")
   ∧ err = Errorf "no CPUs found in %q" [op_s str])
  ∨ ∃ pre r post,
      strings.Split str "," = (pre ++ r :: post)%list
      ∧ Forall (λ r, segment_text (strings.TrimSpace r)) pre
      ∧ ¬ segment_text (strings.TrimSpace r)
      ∧ configs.segment unix.CPUSet_new r = inr err.
Proof.
  split.
  - intros Hstr. assert (Hne : str ≠ EmptyString) by (by intros ->).
    rewrite toCPUSet_nonempty in Hstr by done.
    destruct (configs.segments _ _) as [s|e] eqn:Hseg.
    + destruct (Z.eqb_spec (unix.CPUSet_Count s) 0) as [Hc|]; [|done].
      left. split_and!; [done| |congruence].
      by eapply segments_empty; [apply CPUSet_new_wf|..].
    + right. injection Hstr as <-.
      apply segments_inr_split in Hseg as (pre & r & post & s' & Hsplit & Hpre & Hr).
      exists pre, r, post. split_and!; [done| | |by eapply segment_inr_any].
      * apply (segments_accepts _ unix.CPUSet_new). by eexists.
      * intros [s'' Hs'']%(segment_accepts s'). congruence.
  - intros [(Hne & Hblank & ->)|(pre & r & post & Hsplit & Hpre & _ & Hr)].
    + by rewrite toCPUSet_nonempty, segments_blank.
    + apply (segments_accepts _ unix.CPUSet_new) in Hpre as [s Hs].
      eapply toCPUSet_segment_error; [done..|]. by eapply segment_inr_any.
Qed.

(** ** The scheduler attributes *)

Section ToSchedAttr_bits.
Import configs.

Lemma assoc_elem_of t k v : assoc t k = Some v → (k, v) ∈ t.
Proof.
  induction t as [|[k' v'] t IH]; simpl; [done|].
  destruct (String.eqb_spec k k') as [->|_]; [intros [= ->]; by left|].
  intros ?. right. by apply IH.
Qed.

Ltac table_cases H :=
  repeat (apply elem_of_cons in H as [H|H]); [..|by apply elem_of_nil in H].

Lemma policy_table_range p code : assoc policy_table p = Some code → 0 ≤ code ≤ 6.
Proof.
  intros H%assoc_elem_of. unfold policy_table in H.
  table_cases H; simplify_eq; lia.
Qed.

Lemma policy_table_inj p1 p2 code :
  assoc policy_table p1 = Some code → assoc policy_table p2 = Some code → p1 = p2.
Proof.
  intros H1%assoc_elem_of H2%assoc_elem_of. unfold policy_table in H1, H2.
  table_cases H1; simplify_eq; table_cases H2; by simplify_eq.
Qed.

Lemma flag_table_bit flag bit :
  assoc flag_table flag = Some bit → ∃ i, 0 ≤ i < 7 ∧ bit = 2 ^ i.
Proof.
  intros H%assoc_elem_of. unfold flag_table in H.
  table_cases H; simplify_eq;
    [by exists 0|by exists 1|by exists 2|by exists 3|by exists 4|by exists 5|by exists 6].
Qed.

Lemma flag_table_inj flag1 flag2 bit :
  assoc flag_table flag1 = Some bit → assoc flag_table flag2 = Some bit → flag1 = flag2.
Proof.
  intros H1%assoc_elem_of H2%assoc_elem_of. unfold flag_table in H1, H2.
  table_cases H1; simplify_eq; table_cases H2; by simplify_eq.
Qed.

Lemma lor_bound n a b :
  0 ≤ n → 0 ≤ a < 2 ^ n → 0 ≤ b < 2 ^ n → 0 ≤ Z.lor a b < 2 ^ n.
Proof.
  intros Hn Ha Hb. assert (H0 : 0 ≤ Z.lor a b) by (apply Z.lor_nonneg; lia).
  split; [done|]. destruct (decide (Z.lor a b = 0)) as [->|Hne]; [lia|].
  apply Z.log2_lt_pow2; [lia|]. rewrite Z.log2_lor by lia.
  destruct (decide (a = 0)) as [->|], (decide (b = 0)) as [->|].
  - done.
  - rewrite Z.max_r by (apply Z.log2_nonneg). apply Z.log2_lt_pow2; lia.
  - rewrite Z.max_l by (apply Z.log2_nonneg). apply Z.log2_lt_pow2; lia.
  - apply Z.max_lub_lt; apply Z.log2_lt_pow2; lia.
Qed.

(** The loop over the flags: the bits it leaves set are those set before
    and those of the flags it has seen. *)
Lemma schedFlags_bits fl acc flags k :
  schedFlags fl acc = inl flags →
  Z.testbit flags k = true ↔
  Z.testbit acc k = true
  ∨ ∃ flag bit, flag ∈ fl ∧ assoc flag_table flag = Some bit ∧ Z.testbit bit k = true.
Proof.
  revert acc; induction fl as [|f fl IH]; intros acc; cbn [schedFlags].
  - intros [= <-]. split; [by left|]. by intros [?|(? & ? & ?%elem_of_nil & _)].
  - rewrite schedFlag_assoc. destruct (assoc flag_table f) as [bit|] eqn:Hf; [|done].
    intros Hfl. rewrite (IH _ Hfl), Z.lor_spec, orb_true_iff. split.
    + intros [[?|?]|(f' & b' & ? & ? & ?)]; [by left| |].
      * right. exists f, bit. split_and!; [by left|done..].
      * right. exists f', b'. split_and!; [by right|done..].
    + intros [?|(f' & b' & [->|?]%elem_of_cons & Hf' & ?)]; [by left; left| |].
      * left. right. congruence.
      * right. by exists f', b'.
Qed.

Lemma schedFlags_known_flags fl acc flags :
  schedFlags fl acc = inl flags → Forall (λ flag, is_Some (assoc flag_table flag)) fl.
Proof.
  revert acc; induction fl as [|f fl IH]; intros acc; cbn [schedFlags]; [by constructor|].
  rewrite schedFlag_assoc. destruct (assoc flag_table f) as [bit|] eqn:Hf; [|done].
  intros Hfl. constructor; [by eexists|by eapply IH].
Qed.

Lemma schedFlags_bound fl acc flags :
  schedFlags fl acc = inl flags → 0 ≤ acc < 2 ^ 7 → 0 ≤ flags < 2 ^ 7.
Proof.
  revert acc; induction fl as [|f fl IH]; intros acc; cbn [schedFlags];
    [by intros [= <-]|].
  rewrite schedFlag_assoc. destruct (assoc flag_table f) as [bit|] eqn:Hf; [|done].
  intros Hfl Hacc. apply (IH _ Hfl).
  destruct (flag_table_bit _ _ Hf) as (i & Hi & ->).
  apply lor_bound; [lia|done|]. split; [apply Z.pow_nonneg; lia|].
  apply Z.pow_lt_mono_r; lia.
Qed.

(** What [ToSchedAttr] does when it returns attributes. *)
Lemma ToSchedAttr_Some scheduler attr :
  ToSchedAttr scheduler = (Some attr, None) →
  ∃ policy flags,
    assoc policy_table (specs.Policy scheduler) = Some policy
    ∧ schedFlags (specs.Flags scheduler) 0 = inl flags
    ∧ attr = {| unix.Size := unix.SizeofSchedAttr;
                unix.Policy := policy;
                unix.Flags := flags;
                unix.Nice := specs.Nice scheduler;
                unix.Priority := uint32 (specs.Priority scheduler);
                unix.Runtime := specs.Runtime scheduler;
                unix.Deadline := specs.Deadline scheduler;
                unix.Period := specs.Period scheduler |}.
Proof.
  unfold ToSchedAttr. rewrite schedPolicy_assoc.
  destruct (assoc policy_table _) as [policy|]; [|done].
  destruct (schedFlags _ _) as [flags|]; [|done].
  intros [= <-]. by exists policy, flags.
Qed.

End ToSchedAttr_bits.

(** X6. In the attributes [ToSchedAttr] returns, a bit of the flags is set
    exactly when the scheduler has a flag name whose bit of the table it is:
    the flags depend on which names occur, not on their order or their
    number. *)
Theorem ToSchedAttr_flag_bits (scheduler : specs.Scheduler) (attr : unix.SchedAttr) (k : Z) :
  configs.ToSchedAttr scheduler = (Some attr, None) →
  Z.testbit (unix.Flags attr) k = true ↔
  ∃ flag bit, flag ∈ specs.Flags scheduler ∧ assoc flag_table flag = Some bit
    ∧ Z.testbit bit k = true.
Proof.
  intros (policy & flags & _ & Hfl & ->)%ToSchedAttr_Some. cbn [unix.Flags].
  rewrite (schedFlags_bits _ _ _ k Hfl), Z.bits_0. split; [by intros [?|?]|by right].
Qed.

(** X7. The attributes [ToSchedAttr] returns have the size of the
    structure, a policy code from 0 to 6, flags within the seven bits of the
    table, which are zero only for a scheduler without flags, and a priority
    that fits 32 bits. *)
Theorem ToSchedAttr_ranges (scheduler : specs.Scheduler) (attr : unix.SchedAttr) :
  configs.ToSchedAttr scheduler = (Some attr, None) →
  unix.Size attr = 56
  ∧ 0 ≤ unix.Policy attr ≤ 6
  ∧ 0 ≤ unix.Flags attr ≤ 0x7f
  ∧ (unix.Flags attr = 0 ↔ specs.Flags scheduler = [])
  ∧ 0 ≤ unix.Priority attr < 2 ^ 32.
Proof.
  intros (policy & flags & Hp & Hfl & ->)%ToSchedAttr_Some.
  cbn [unix.Size unix.Policy unix.Flags unix.Priority].
  split; [done|]. split; [by eapply policy_table_range|].
  split; [pose proof (schedFlags_bound _ _ _ Hfl); lia|].
  split; [|apply Z.mod_pos_bound; lia]. split.
  - intros ->. destruct (specs.Flags scheduler) as [|f fl] eqn:Hflags; [done|].
    pose proof (schedFlags_known_flags _ _ _ Hfl) as Hknown.
    apply Forall_cons in Hknown as [[bit Hbit] _].
    destruct (flag_table_bit _ _ Hbit) as (i & Hi & ->).
    assert (Z.testbit 0 i = true) as Hset; [|by rewrite Z.bits_0 in Hset].
    apply (schedFlags_bits _ _ _ i Hfl). right. exists f, (2 ^ i).
    split_and!; [by left|done|]. apply Z.pow2_bits_true. lia.
  - intros Hnil. rewrite Hnil in Hfl. by simplify_eq/=.
Qed.

(** X8. Two schedulers that [ToSchedAttr] takes to the same attributes have
    the same policy, nice value, runtime, deadline and period, the same flag
    names up to order and repetition, and priorities that agree modulo 2^32,
    so the same priority when both fit 32 bits with a sign. *)
Theorem ToSchedAttr_same_attr (s1 s2 : specs.Scheduler) (attr : unix.SchedAttr) :
  configs.ToSchedAttr s1 = (Some attr, None) →
  configs.ToSchedAttr s2 = (Some attr, None) →
  specs.Policy s1 = specs.Policy s2
  ∧ specs.Nice s1 = specs.Nice s2
  ∧ specs.Runtime s1 = specs.Runtime s2
  ∧ specs.Deadline s1 = specs.Deadline s2
  ∧ specs.Period s1 = specs.Period s2
  ∧ (∀ flag, flag ∈ specs.Flags s1 ↔ flag ∈ specs.Flags s2)
  ∧ specs.Priority s1 mod 2 ^ 32 = specs.Priority s2 mod 2 ^ 32
  ∧ (- 2 ^ 31 ≤ specs.Priority s1 < 2 ^ 31 → - 2 ^ 31 ≤ specs.Priority s2 < 2 ^ 31 →
       specs.Priority s1 = specs.Priority s2).
Proof.
  intros (p1 & f1 & Hp1 & Hf1 & ->)%ToSchedAttr_Some
         (p2 & f2 & Hp2 & Hf2 & [= <- <- Hnice Hprio Hrun Hdead Hper])%ToSchedAttr_Some.
  assert (Hflags : ∀ fl1 fl2, configs.schedFlags fl1 0 = inl f1 →
            configs.schedFlags fl2 0 = inl f1 → ∀ flag, flag ∈ fl1 → flag ∈ fl2).
  { intros fl1 fl2 H1 H2 flag Hin.
    pose proof (schedFlags_known_flags _ _ _ H1) as Hknown.
    destruct (proj1 (Forall_forall _ _) Hknown flag Hin) as [bit Hbit].
    destruct (flag_table_bit _ _ Hbit) as (i & Hi & ->).
    assert (Hset : Z.testbit f1 i = true).
    { apply (schedFlags_bits _ _ _ i H1). right. exists flag, (2 ^ i).
      split_and!; [done..|]. apply Z.pow2_bits_true. lia. }
    apply (schedFlags_bits _ _ _ i H2) in Hset
      as [Hset|(flag' & bit' & Hin' & Hbit' & Hset)]; [by rewrite Z.bits_0 in Hset|].
    destruct (flag_table_bit _ _ Hbit') as (i' & Hi' & ->).
    rewrite Z.pow2_bits_eqb in Hset by lia. apply Z.eqb_eq in Hset as ->.
    by rewrite (flag_table_inj _ _ _ Hbit Hbit'). }
  unfold configs.uint32 in Hprio. split_and!; try done.
  - by eapply policy_table_inj.
  - intros flag. split; by eapply Hflags.
  - intros H1 H2.
    pose proof (Z.div_mod (specs.Priority s1) (2 ^ 32) ltac:(lia)) as E1.
    pose proof (Z.div_mod (specs.Priority s2) (2 ^ 32) ltac:(lia)) as E2.
    rewrite Hprio in E1. change (2 ^ 32) with 4294967296 in *.
    change (2 ^ 31) with 2147483648 in *. lia.
Qed.

(** ** The two sets of an affinity *)

(** X9. In a result of [ConvertCPUAffinity], a set is absent exactly when
    the string of its side is empty, and a set that is present is the one
    [toCPUSet] builds from that string, with a CPU in it. *)
Theorem ConvertCPUAffinity_sets (sa : specs.CPUAffinity) (a : configs.CPUAffinity) :
  configs.ConvertCPUAffinity (Some sa) = (Some a, None) →
  (configs.Initial a = None ↔ specs.Initial sa = EmptyString)
  ∧ (configs.Final a = None ↔ specs.Final sa = EmptyString)
  ∧ (∀ s, configs.Initial a = Some s →
       configs.toCPUSet (specs.Initial sa) = (Some s, None) ∧ 0 < unix.CPUSet_Count s)
  ∧ (∀ s, configs.Final a = Some s →
       configs.toCPUSet (specs.Final sa) = (Some s, None) ∧ 0 < unix.CPUSet_Count s).
Proof.
  unfold configs.ConvertCPUAffinity.
  pose proof (toCPUSet_results (specs.Initial sa)) as Hi.
  pose proof (toCPUSet_results (specs.Final sa)) as Hf.
  destruct (configs.toCPUSet (specs.Initial sa)) as [[si|] [ei|]];
    destruct (configs.toCPUSet (specs.Final sa)) as [[sf|] [ef|]];
    try done; intros [= <-]; cbn [configs.Initial configs.Final];
    (split_and!; [split| split|intros s [= <-]|intros s [= <-]]);
    try done; try tauto; try (by destruct Hi); try (by destruct Hf).
Qed.

(** ** The hooks of a name *)

Section Hooks_lists.
Context {State World CommandHook : Type}.
Variable Command_Run : CommandHook → State → World → World * option error.

Local Abbreviation Hook := (configs.Hook State World CommandHook).
Local Abbreviation Hook_Run := (configs.Hook_Run Command_Run).
Local Abbreviation runFrom := (configs.runFrom Command_Run).
Local Abbreviation runHooksFrom := (configs.runHooksFrom Command_Run).
Local Abbreviation Hooks_Run := (configs.Hooks_Run Command_Run).
Local Abbreviation RunHooks := (configs.RunHooks Command_Run).

(** The two loops over a list of hooks go the same way. *)
Lemma runHooksFrom_runFrom (l : list Hook) i name state w :
  (∃ w', runFrom i l name state w = (w', None) ∧ runHooksFrom i l state w = (w', None))
  ∨ ∃ w' k err,
      i ≤ k < i + Z.of_nat (length l)
      ∧ runFrom i l name state w =
          (w', Some (Errorf "error running %s hook #%d: %w" [op_s name; op_d k; op_w err]))
      ∧ runHooksFrom i l state w =
          (w', Some (Errorf "error running hook #%d: %w" [op_d k; op_w err])).
Proof.
  revert i w; induction l as [|h l IH]; intros i w; simpl.
  - left. by exists w.
  - destruct (Hook_Run h state w) as [w1 [err|]] eqn:Hh.
    + right. exists w1, i, err. split_and!; [lia|lia|done..].
    + destruct (IH (i + 1) w1) as [(w' & ? & ?)|(w' & k & err & Hk & ? & ?)].
      * left. by exists w'.
      * right. exists w', k, err. split_and!; [lia|lia|done..].
Qed.

Lemma hasHookIn_true (hooks : option (gmap string (list Hook))) names :
  configs.hasHookIn hooks names = true ↔
  ∃ name, name ∈ names ∧ configs.Hooks_index hooks name ≠ [].
Proof.
  induction names as [|h names IH]; simpl.
  - split; [done|]. by intros (? & ?%elem_of_nil & _).
  - destruct (configs.Hooks_index hooks h) as [|x l] eqn:Hh; simpl.
    + rewrite IH. split.
      * intros (name & ? & ?). exists name. split; [by right|done].
      * intros (name & [->|?]%elem_of_cons & Hne); [by rewrite Hh in Hne|].
        by exists name.
    + split; [|done]. intros _. exists h. split; [by left|]. by rewrite Hh.
Qed.

(** X10. [RunHooks] on the list of a name goes as [Hooks.Run] does on the
    name: both run the same hooks and leave the same world, both succeed or
    both fail at the same hook, and then their errors wrap the error of that
    hook with its index, the one of [Hooks.Run] with the name too. *)
Theorem RunHooks_as_Hooks_Run (hooks : option (gmap string (list Hook)))
    (name : string) (state : State) (w : World) :
  (∃ w', Hooks_Run hooks name state w = (w', None)
       ∧ RunHooks (configs.Hooks_index hooks name) state w = (w', None))
  ∨ ∃ w' k err,
      0 ≤ k < Z.of_nat (length (configs.Hooks_index hooks name))
      ∧ Hooks_Run hooks name state w =
          (w', Some (Errorf "error running %s hook #%d: %w" [op_s name; op_d k; op_w err]))
      ∧ RunHooks (configs.Hooks_index hooks name) state w =
          (w', Some (Errorf "error running hook #%d: %w" [op_d k; op_w err])).
Proof.
  unfold configs.Hooks_Run, configs.RunHooks.
  destruct (runHooksFrom_runFrom (configs.Hooks_index hooks name) 0 name state w)
    as [(w' & ? & ?)|(w' & k & err & Hk & ? & ?)].
  - left. by exists w'.
  - right. exists w', k, err. split_and!; [lia|lia|done..].
Qed.

(** X11. [HasHook] answers yes exactly when the registry has a hook under
    one of the names: a nil registry, a name that is not in it and a name
    with an empty list count for nothing. *)
Theorem HasHook_true (hooks : option (gmap string (list Hook))) (names : list string) :
  configs.HasHook hooks names = true ↔
  ∃ name m h l, name ∈ names ∧ hooks = Some m ∧ m !! name = Some (h :: l).
Proof.
  destruct hooks as [m|]; simpl.
  - rewrite hasHookIn_true. split.
    + intros (name & Hin & Hne). simpl in Hne.
      destruct (m !! name) as [[|h l]|] eqn:Hm; try done. by exists name, m, h, l.
    + intros (name & m' & h & l & Hin & [= <-] & Hm). exists name.
      split; [done|]. simpl. by rewrite Hm.
  - split; [done|]. by intros (? & ? & ? & ? & _ & ? & _).
Qed.

(** X12. When [HasHook] answers no for some names, [Hooks.Run] on each of
    them runs nothing: it returns success and leaves the world as it is. *)
Theorem HasHook_false_Run (hooks : option (gmap string (list Hook)))
    (names : list string) (name : string) (state : State) (w : World) :
  configs.HasHook hooks names = false → name ∈ names →
  Hooks_Run hooks name state w = (w, None).
Proof.
  intros Hno Hin. unfold configs.Hooks_Run.
  assert (Hnil : configs.Hooks_index hooks name = []); [|by rewrite Hnil].
  destruct hooks as [m|]; [|done]. simpl in Hno.
  destruct (configs.Hooks_index (Some m) name) as [|h l] eqn:Hl; [done|].
  assert (configs.hasHookIn (Some m) names = true); [|congruence].
  apply hasHookIn_true. exists name. split; [done|]. by rewrite Hl.
Qed.

End Hooks_lists.

(** ** Serialization, in both directions *)

Section Hooks_JSON_both.
Context {State World CommandHook bytes : Type}.
Variable json_Marshal : gmap string (list CommandHook) → bytes * option error.
Variable json_Unmarshal : bytes → gmap string (list CommandHook) + error.

Local Abbreviation Hook := (configs.Hook State World CommandHook).
Local Abbreviation MarshalJSON := (configs.MarshalJSON json_Marshal).
Local Abbreviation UnmarshalJSON := (configs.UnmarshalJSON json_Unmarshal).

Lemma warnings_nil (l : list Hook) : warnings l = [] ↔ Forall is_command l.
Proof.
  unfold warnings, is_command. induction l as [|h l IH]; [by split; [constructor|]|].
  rewrite Forall_cons, <-IH. destruct h as [f|chook|ty Run]; cbn.
  - split; [done|]. by intros [[? [=]] _].
  - split; [|by intros [_ ?]]. intros ?. split; [by eexists|done].
  - split; [done|]. by intros [[? [=]] _].
Qed.

Lemma mjoin_nil {A} (ls : list (list A)) : mjoin ls = [] ↔ Forall (λ l, l = []) ls.
Proof.
  induction ls as [|l ls IH]; [by split; [constructor|]|].
  rewrite Forall_cons, <-IH. simpl. split.
  - by intros [-> ->]%app_eq_nil.
  - by intros [-> ->].
Qed.

(** Two registries with the same command hooks under the six names give the
    same record. *)
Lemma record_ext (hooks1 hooks2 : option (gmap string (list Hook))) :
  (∀ name, name ∈ configs.KnownHookNames →
     command_hooks (configs.Hooks_index hooks1 name) =
     command_hooks (configs.Hooks_index hooks2 name)) →
  record hooks1 = record hooks2.
Proof.
  intros Hsame. apply map_eq. intros name. rewrite !record_lookup.
  destruct (decide _); [|done]. by rewrite Hsame.
Qed.

Lemma known_arrays_lookup (state : gmap string (list CommandHook)) name :
  known_arrays state !! name =
    if decide (name ∈ configs.KnownHookNames)
    then Some (default [] (state !! name)) else None.
Proof.
  unfold known_arrays. destruct (decide _) as [Hin|Hnotin].
  - unfold configs.KnownHookNames in Hin.
    repeat (apply elem_of_cons in Hin as [->|Hin]; [by simplify_map_eq|]).
    by apply elem_of_nil in Hin.
  - apply not_elem_of_list_to_map. rewrite <-list_fmap_compose.
    by rewrite list_fmap_id.
Qed.

(** The list of a name in a registry that holds what [UnmarshalJSON]
    stores. *)
Lemma stored_index (m : gmap string (list Hook)) (state : gmap string (list CommandHook)) :
  (∀ name, m !! name = state !! name ≫= stored) →
  ∀ name, configs.Hooks_index (Some m) name =
            configs.Hook_CommandHook <$> default [] (state !! name).
Proof.
  intros Hm name. simpl. rewrite Hm.
  by destruct (state !! name) as [[|c l]|].
Qed.

(** X13. Deserializing and then serializing gives to the encoder, under
    each of the six names, the array the decoded record has under the name,
    the empty one when it has none, and nothing under another name; and it
    logs no warning. *)
Theorem UnmarshalJSON_MarshalJSON (receiver : option (gmap string (list Hook)))
    (b : bytes) (state : gmap string (list CommandHook)) :
  json_Unmarshal b = inl state →
  ∃ m, UnmarshalJSON receiver b = (Some m, None)
     ∧ MarshalJSON (Some m) = (json_Marshal (known_arrays state), []).
Proof.
  intros Hb. eexists. split; [by apply UnmarshalJSON_spec|].
  pose proof (stored_index _ state (unmarshal_loop_lookup state)) as Hidx.
  rewrite MarshalJSON_spec. f_equal.
  - f_equal. apply map_eq. intros name.
    rewrite record_lookup, known_arrays_lookup. destruct (decide _); [|done].
    by rewrite Hidx, command_hooks_fmap.
  - apply mjoin_nil, Forall_fmap, Forall_forall. intros name _. unfold compose.
    rewrite Hidx. apply warnings_fmap.
Qed.

(** X14. With an encoder and a decoder of JSON that are inverse on the
    records, serializing any registry and then deserializing keeps, under
    each of the six names, the command hooks of the list in order, and
    nothing else: no other hook and no other name. A second round trip
    starts from the same bytes, without a warning. *)
Theorem Hooks_round_trip_keeps (hooks receiver : option (gmap string (list Hook))) :
  (∀ doc, ∃ b, json_Marshal doc = (b, None) ∧ json_Unmarshal b = inl doc) →
  ∃ b m,
    fst (MarshalJSON hooks) = (b, None)
    ∧ UnmarshalJSON receiver b = (Some m, None)
    ∧ (∀ name, configs.Hooks_index (Some m) name =
         if decide (name ∈ configs.KnownHookNames)
         then configs.Hook_CommandHook <$> command_hooks (configs.Hooks_index hooks name)
         else [])
    ∧ MarshalJSON (Some m) = ((b, None), []).
Proof.
  intros Hjson. destruct (Hjson (record hooks)) as (b & Hm & Hu).
  pose proof (stored_index _ _ (unmarshal_loop_lookup (record hooks))) as Hidx.
  assert (Hlist : ∀ name,
    configs.Hooks_index (Some (map_fold configs.unmarshalEntry ∅ (record hooks))) name =
      if decide (name ∈ configs.KnownHookNames)
      then configs.Hook_CommandHook <$> command_hooks (configs.Hooks_index hooks name)
      else ([] : list Hook)).
  { intros name. rewrite Hidx, record_lookup. by destruct (decide _). }
  exists b, (map_fold configs.unmarshalEntry ∅ (record hooks)). split_and!.
  - by rewrite MarshalJSON_spec.
  - by apply UnmarshalJSON_spec.
  - done.
  - rewrite MarshalJSON_spec. f_equal.
    + rewrite <-Hm. f_equal. apply record_ext. intros name Hin.
      by rewrite Hlist, decide_True, command_hooks_fmap.
    + apply mjoin_nil, Forall_fmap, Forall_forall. intros name Hin. unfold compose.
      rewrite Hidx. apply warnings_fmap.
Qed.

(** X15. [MarshalJSON] logs nothing exactly when every hook under the six
    names is a command hook. *)
Theorem MarshalJSON_quiet (hooks : option (gmap string (list Hook))) :
  snd (MarshalJSON hooks) = [] ↔
  ∀ name, name ∈ configs.KnownHookNames →
    Forall is_command (configs.Hooks_index hooks name).
Proof.
  rewrite MarshalJSON_spec. cbn [snd].
  rewrite mjoin_nil, Forall_fmap, Forall_forall.
  split; intros H name Hin; apply warnings_nil, (H name Hin).
Qed.

End Hooks_JSON_both.

(** ** The default environment, again *)

Section SetDefaultEnv_more.
Context {State World : Type}.

Local Abbreviation Hook := (configs.Hook State World configs.loc).

Lemma elem_of_commands_of (hooks : list Hook) ch :
  ch ∈ commands_of hooks ↔ configs.Hook_CommandHook ch ∈ hooks.
Proof.
  unfold commands_of. rewrite list_elem_of_omap. split.
  - intros (h & Hh & Hch). by destruct h; simplify_eq/=.
  - intros Hh. by exists (configs.Hook_CommandHook ch).
Qed.

(** [SetDefaultEnv] panics exactly on a command hook without a command. *)
Lemma SetDefaultEnv_None (hooks : list Hook) env (σ : gmap configs.loc configs.Command) :
  configs.SetDefaultEnv hooks env σ = None ↔
  ∃ ch, configs.Hook_CommandHook ch ∈ hooks ∧ σ !! ch = None.
Proof.
  revert σ; induction hooks as [|h hooks IH]; intros σ.
  - split; [done|]. by intros (? & ?%elem_of_nil & _).
  - cbn [configs.SetDefaultEnv]. destruct (command_of h) as [ch0|] eqn:Hh.
    + assert (h = configs.Hook_CommandHook ch0) as ->
        by (destruct h; simplify_eq/=; done).
      destruct (σ !! ch0) as [c|] eqn:Hc.
      * rewrite (setDefaultEnv_command env σ ch0 c Hc). cbn [mbind option_bind].
        rewrite IH. split.
        -- intros (ch & Hin & Hnone). exists ch. split; [by right|].
           apply lookup_insert_None in Hnone. tauto.
        -- intros (ch & [[= ->]|Hin]%elem_of_cons & Hnone); [congruence|].
           exists ch. split; [done|]. apply lookup_insert_None.
           split; [done|]. congruence.
      * split; [|by unfold configs.setDefaultEnv; rewrite Hc].
        intros _. exists ch0. split; [by left|done].
    + rewrite setDefaultEnv_other by done. cbn [mbind option_bind]. rewrite IH.
      split.
      * intros (ch & Hin & Hnone). exists ch. split; [by right|done].
      * intros (ch & [<-|Hin]%elem_of_cons & Hnone); [done|]. by exists ch.
Qed.

Lemma SetDefaultEnv_Some (hooks : list Hook) env (σ σ' : gmap configs.loc configs.Command) :
  configs.SetDefaultEnv hooks env σ = Some σ' →
  (∀ ch, ch ∈ commands_of hooks → is_Some (σ !! ch))
  ∧ ∀ l, σ' !! l =
      if decide (l ∈ commands_of hooks) then defaulted env <$> σ !! l else σ !! l.
Proof.
  intros Hrun.
  assert (Hwf : ∀ ch, ch ∈ commands_of hooks → is_Some (σ !! ch)).
  { intros ch Hin%elem_of_commands_of.
    destruct (σ !! ch) as [c|] eqn:Hc; [by eexists|].
    assert (configs.SetDefaultEnv hooks env σ = None); [|congruence].
    apply SetDefaultEnv_None. by exists ch. }
  split; [done|].
  destruct (SetDefaultEnv_lookup hooks env σ Hwf) as (σ1 & Hσ1 & Hl).
  rewrite Hσ1 in Hrun. by injection Hrun as <-.
Qed.

Lemma defaulted_again env env' c :
  configs.len env ≠ 0 → defaulted env' (defaulted env c) = defaulted env c.
Proof.
  intros Hne. unfold defaulted. destruct (configs.len (configs.Env c) =? 0) eqn:Hc.
  - cbn [configs.setEnv configs.Env]. by destruct (Z.eqb_spec (configs.len env) 0).
  - by rewrite Hc.
Qed.

(** Defaulting leaves a command as it is exactly when it has an environment
    or has the given one already. *)
Lemma defaulted_id env c :
  defaulted env c = c ↔ (configs.len (configs.Env c) = 0 → configs.Env c = env).
Proof.
  unfold defaulted. destruct (Z.eqb_spec (configs.len (configs.Env c)) 0) as [H0|Hn].
  - split.
    + intros Heq _. rewrite <-Heq at 1. done.
    + intros Henv. destruct c as [p a e d t]. cbn in *.
      unfold configs.setEnv. cbn. by rewrite Henv.
  - split; [by intros _ ?|done].
Qed.

(** X16. [SetDefaultEnv] panics, on a nil pointer, exactly when a command
    hook of the list holds no command; the other hooks of the list and the
    environments do not matter. *)
Theorem SetDefaultEnv_panics (hooks : list Hook) (env : option (list string))
    (σ : gmap configs.loc configs.Command) :
  configs.SetDefaultEnv hooks env σ = None ↔
  ∃ pre ch post, hooks = (pre ++ configs.Hook_CommandHook ch :: post)%list
    ∧ σ !! ch = None.
Proof.
  rewrite SetDefaultEnv_None. split.
  - intros (ch & (pre & post & ->)%list_elem_of_split & Hnone). by exists pre, ch, post.
  - intros (pre & ch & post & -> & Hnone). exists ch. split; [|done].
    apply elem_of_app. right. by left.
Qed.

(** X17. After [SetDefaultEnv] with an environment of one entry or more, a
    second call on the same list, with any environment, changes nothing.
    And a call changes no command exactly when every command it defaults,
    one of the list with an environment of length 0, has the given
    environment already: the nil one for nil, the empty one for empty. *)
Theorem SetDefaultEnv_settled (hooks : list Hook) (env env' : option (list string))
    (σ σ' : gmap configs.loc configs.Command) :
  configs.SetDefaultEnv hooks env σ = Some σ' →
  (configs.len env ≠ 0 → configs.SetDefaultEnv hooks env' σ' = Some σ')
  ∧ (σ' = σ ↔
     ∀ ch c, configs.Hook_CommandHook ch ∈ hooks → σ !! ch = Some c →
       configs.len (configs.Env c) = 0 → configs.Env c = env).
Proof.
  intros [Hwf Hl]%SetDefaultEnv_Some. split.
  - intros Hne. destruct (SetDefaultEnv_lookup hooks env' σ') as (σ2 & Hσ2 & Hl2).
    { intros ch Hin. rewrite Hl, decide_True by done. by apply fmap_is_Some, Hwf. }
    rewrite Hσ2. f_equal. apply map_eq. intros l. rewrite Hl2, Hl.
    destruct (decide _); [|done]. rewrite <-option_fmap_compose.
    apply option_fmap_ext. intros c. by apply defaulted_again.
  - split.
    + intros -> ch c Hin%elem_of_commands_of Hc. apply defaulted_id.
      specialize (Hl ch). rewrite decide_True, Hc in Hl by done.
      simpl in Hl. congruence.
    + intros Hsame. apply map_eq. intros l. rewrite Hl.
      destruct (decide _) as [Hin|]; [|done].
      destruct (σ !! l) as [c|] eqn:Hc; [|done]. simpl. f_equal.
      apply defaulted_id. apply (Hsame l c); [|done]. by apply elem_of_commands_of.
Qed.

(** X18. [SetDefaultEnv] depends only on which commands the command hooks
    of the list point to: not on the order of the hooks, on their
    repetition or on the hooks that are not command hooks. *)
Theorem SetDefaultEnv_command_set (hooks hooks' : list Hook)
    (env : option (list string))
    (σ : gmap configs.loc configs.Command) :
  (∀ ch, configs.Hook_CommandHook ch ∈ hooks ↔ configs.Hook_CommandHook ch ∈ hooks') →
  configs.SetDefaultEnv hooks env σ = configs.SetDefaultEnv hooks' env σ.
Proof.
  intros Hsame.
  destruct (configs.SetDefaultEnv hooks env σ) as [σ1|] eqn:H1.
  - apply SetDefaultEnv_Some in H1 as [Hwf Hl].
    destruct (SetDefaultEnv_lookup hooks' env σ) as (σ2 & Hσ2 & Hl2).
    { intros ch Hin. by apply Hwf, elem_of_commands_of, Hsame, elem_of_commands_of. }
    rewrite Hσ2. f_equal. apply map_eq. intros l. rewrite Hl, Hl2.
    destruct (decide (l ∈ commands_of hooks)) as [Hin|Hnot],
      (decide (l ∈ commands_of hooks')) as [Hin'|Hnot']; try done.
    + destruct Hnot'. by apply elem_of_commands_of, Hsame, elem_of_commands_of.
    + destruct Hnot. by apply elem_of_commands_of, Hsame, elem_of_commands_of.
  - symmetry. apply SetDefaultEnv_None. apply SetDefaultEnv_None in H1 as (ch & Hin & Hnone).
    exists ch. split; [by apply Hsame|done].
Qed.

End SetDefaultEnv_more.

(** ** Instances of the further properties *)

Section further_examples.

Lemma toCPUSet_accepts_witness :
  Forall (λ r, segment_text (strings.TrimSpace r)) (strings.Split "0-3, 7" ",")
  ∧ Exists (λ r, strings.TrimSpace r ≠ EmptyString) (strings.Split "0-3, 7" ",").
Proof.
  apply (proj1 (toCPUSet_accepts "0-3, 7")).
  exists (unix.CPUSet_Set (configs.setRange unix.CPUSet_new 0 3) 7). reflexivity.
Defined.

Lemma toCPUSet_fails_witness :
  configs.toCPUSet "0-3,5-2,x" = (None, Some (New "invalid range: 5-2")).
Proof.
  apply toCPUSet_fails. right. exists ["0-3"], "5-2", ["x"].
  split_and!.
  - reflexivity.
  - constructor; [|constructor]. apply (segment_accepts unix.CPUSet_new).
    eexists. reflexivity.
  - intros Ht. apply (segment_accepts unix.CPUSet_new "5-2") in Ht as [s' Hs'].
    discriminate Hs'.
  - reflexivity.
Defined.

Lemma toCPUSet_bits_witness :
  unix.CPUSet_IsSet (unix.CPUSet_Set (configs.setRange unix.CPUSet_new 0 3) 7) 2 = true ↔
  ∃ r, r ∈ strings.Split "0-3, 7" "," ∧ covers r 2.
Proof. apply (toCPUSet_bits "0-3, 7"); [reflexivity|lia]. Defined.

Lemma toCPUSet_segment_set_witness :
  configs.toCPUSet "2, 1,,2" =
    (Some (unix.CPUSet_Set (unix.CPUSet_Set unix.CPUSet_new 1) 2), None).
Proof.
  apply (toCPUSet_segment_set "1,2" "2, 1,,2"); [reflexivity|].
  intros t Ht.
  change (strings.Split "1,2" ",") with ["1"; "2"].
  change (strings.Split "2, 1,,2" ",") with ["2"; " 1"; EmptyString; "2"].
  split; intros (r & Hr & <-);
    repeat (apply elem_of_cons in Hr as [->|Hr]); try (by apply elem_of_nil in Hr).
  - exists " 1". split; [by right; left|reflexivity].
  - exists "2". split; [by left|reflexivity].
  - exists "2". split; [by right; left|reflexivity].
  - exists "1". split; [by left|reflexivity].
  - by destruct Ht.
  - exists "2". split; [by right; left|reflexivity].
Defined.

Lemma toCPUSet_set_shape_witness :
  1 ≤ unix.CPUSet_Count (unix.CPUSet_Set (configs.setRange unix.CPUSet_new 0 3) 7)
    ≤ configs.maxCPU.
Proof.
  assert (H : configs.toCPUSet "0-3, 7" =
    (Some (unix.CPUSet_Set (configs.setRange unix.CPUSet_new 0 3) 7), None))
    by reflexivity.
  exact (proj2 (proj2 (proj2 (proj2 (toCPUSet_set_shape "0-3, 7" _ H))))).
Defined.

Lemma toCPUSet_range_count_witness :
  ∃ s, configs.toCPUSet (range_text "2" "5") = (Some s, None)
     ∧ unix.CPUSet_Count s = 5 - 2 + 1.
Proof.
  apply (toCPUSet_range_count "2" "5" 2 5); [| |lia];
    (split_and!; [done|reflexivity|reflexivity|reflexivity]).
Defined.

Lemma ToSchedAttr_flag_bits_witness :
  Z.testbit 3 1 = true ↔
  ∃ flag bit,
    flag ∈ [specs.SchedFlagReclaim; specs.SchedFlagResetOnFork; specs.SchedFlagReclaim]
    ∧ assoc flag_table flag = Some bit ∧ Z.testbit bit 1 = true.
Proof.
  exact (ToSchedAttr_flag_bits
           (rr_scheduler
              [specs.SchedFlagReclaim; specs.SchedFlagResetOnFork; specs.SchedFlagReclaim] 7)
           (rr_attr 3 7) 1 eq_refl).
Defined.

Lemma ToSchedAttr_ranges_witness :
  0 ≤ unix.Priority (rr_attr 0 4294967295) < 2 ^ 32.
Proof.
  exact (proj2 (proj2 (proj2 (proj2
           (ToSchedAttr_ranges (rr_scheduler [] (-1)) (rr_attr 0 4294967295) eq_refl))))).
Defined.

Lemma ToSchedAttr_same_attr_witness :
  specs.SchedFlagReclaim ∈ [specs.SchedFlagReclaim; specs.SchedFlagKeepParams] ↔
  specs.SchedFlagReclaim ∈
    [specs.SchedFlagKeepParams; specs.SchedFlagReclaim; specs.SchedFlagKeepParams].
Proof.
  exact (proj1 (proj2 (proj2 (proj2 (proj2 (proj2
           (ToSchedAttr_same_attr
              (rr_scheduler [specs.SchedFlagReclaim; specs.SchedFlagKeepParams] 7)
              (rr_scheduler [specs.SchedFlagKeepParams; specs.SchedFlagReclaim;
                             specs.SchedFlagKeepParams] 7)
              (rr_attr 0x12 7) eq_refl eq_refl))))))
           specs.SchedFlagReclaim).
Defined.

Lemma ConvertCPUAffinity_sets_witness :
  configs.toCPUSet "0-1" = (Some (configs.setRange unix.CPUSet_new 0 1), None)
  ∧ 0 < unix.CPUSet_Count (configs.setRange unix.CPUSet_new 0 1).
Proof.
  exact (proj1 (proj2 (proj2
           (ConvertCPUAffinity_sets
              {| specs.Initial := "0-1"; specs.Final := EmptyString |}
              {| configs.Initial := Some (configs.setRange unix.CPUSet_new 0 1);
                 configs.Final := None |} eq_refl))) _ eq_refl).
Defined.

Lemma HasHook_true_witness :
  configs.HasHook three_hooks [configs.Poststop; configs.Prestart] = true.
Proof.
  apply HasHook_true. eexists configs.Prestart, _, _, _.
  split_and!; [by right; left|reflexivity|reflexivity].
Defined.

Lemma HasHook_false_Run_witness :
  configs.Hooks_Run no_Command_Run three_hooks configs.Poststop tt [] = ([], None).
Proof.
  apply (HasHook_false_Run no_Command_Run three_hooks
           [configs.Poststart; configs.Poststop]); [reflexivity|by right; left].
Defined.

Lemma UnmarshalJSON_MarshalJSON_witness :
  ∃ m, configs.UnmarshalJSON Unmarshal_id
         (None : option (gmap string (list (configs.Hook unit unit configs.Command))))
         {[ "custom" := [echo] ]} = (Some m, None)
     ∧ configs.MarshalJSON Marshal_id (Some m) =
         (Marshal_id (known_arrays {[ "custom" := [echo] ]}), []).
Proof. by apply UnmarshalJSON_MarshalJSON. Defined.

Lemma Hooks_round_trip_keeps_witness :
  ∃ b m,
    fst (configs.MarshalJSON Marshal_id custom_hooks) = (b, None)
    ∧ configs.UnmarshalJSON Unmarshal_id None b = (Some m, None)
    ∧ (∀ name, configs.Hooks_index (Some m) name =
         if decide (name ∈ configs.KnownHookNames)
         then configs.Hook_CommandHook <$>
                command_hooks (configs.Hooks_index custom_hooks name)
         else ([] : list (configs.Hook unit unit configs.Command)))
    ∧ configs.MarshalJSON Marshal_id (Some m) = ((b, None), []).
Proof.
  exact (Hooks_round_trip_keeps Marshal_id Unmarshal_id custom_hooks None
           Marshal_id_inverse).
Defined.

Lemma MarshalJSON_quiet_witness :
  snd (configs.MarshalJSON Marshal_id prestart_hooks) = [].
Proof.
  apply MarshalJSON_quiet. intros name _. rewrite prestart_hooks_index.
  destruct (decide _); repeat constructor; by eexists.
Defined.

Lemma SetDefaultEnv_panics_witness :
  configs.SetDefaultEnv
    ([configs.Hook_CommandHook 3%positive] : list (configs.Hook unit unit configs.loc))
    (Some ["PATH=/bin"]) two_commands = None.
Proof.
  apply SetDefaultEnv_panics. exists [], 3%positive, []. split; reflexivity.
Defined.

Lemma SetDefaultEnv_settled_witness :
  configs.SetDefaultEnv two_hooks (Some ["HOME=/"])
    (<[1%positive := configs.setEnv echo (Some ["PATH=/bin"])]> two_commands) =
    Some (<[1%positive := configs.setEnv echo (Some ["PATH=/bin"])]> two_commands).
Proof.
  apply (proj1 (SetDefaultEnv_settled two_hooks (Some ["PATH=/bin"]) (Some ["HOME=/"])
                  two_commands _ SetDefaultEnv_two)).
  done.
Defined.

Lemma SetDefaultEnv_command_set_witness :
  configs.SetDefaultEnv two_hooks (Some ["PATH=/bin"]) two_commands =
  configs.SetDefaultEnv
    ([configs.Hook_CommandHook 2%positive; configs.Hook_CommandHook 1%positive;
      configs.Hook_CommandHook 2%positive] : list (configs.Hook unit unit configs.loc))
    (Some ["PATH=/bin"]) two_commands.
Proof.
  apply SetDefaultEnv_command_set. intros ch. unfold two_hooks.
  split; intros Hch;
    repeat (apply elem_of_cons in Hch as [Hch|Hch]; simplify_eq);
    try (by apply elem_of_nil in Hch).
  - by right; left.
  - by left.
  - by right; right; left.
  - by left.
  - by right; right; left.
Defined.

End further_examples.
